(** * RedGEM: a shallow embedding of [pytfa/redgem/redgem.py]

    The class [RedGEM] is embedded as a record of its attributes; every
    method becomes a function from the record to a result, which is either
    the updated record (and a returned value) or the Python exception that
    aborted the call.  Python [dict]s are [gmap]s, Python [set]s are
    [gset]s (iterated in the order of [elements]), Python [list]s and
    [tuple]s are lists, metabolite, reaction and subsystem identifiers are
    strings, and Python integers are [Z]. *)

From stdpp Require Import gmap strings list fin_maps.
From Stdlib Require Import ZArith.

(** ** Exceptions *)

(** The three ways a call can abort: a missing dictionary key or graph
    node, a list index out of range, and the interpreter's bound on the depth
    of recursion. *)
Inductive exn : Type :=
  | KeyError
  | IndexError
  | RecursionError.

Inductive res (A : Type) : Type :=
  | Ok (a : A)
  | Raise (e : exn).
Arguments Ok {A} a.
Arguments Raise {A} e.

#[global] Instance res_ret : MRet res := λ A a, Ok a.
#[global] Instance res_bind : MBind res := λ A B f x,
  match x with
  | Ok a => f a
  | Raise e => Raise e
  end.
#[global] Instance res_fmap : FMap res := λ A B f x,
  match x with
  | Ok a => Ok (f a)
  | Raise e => Raise e
  end.

(** [d[k]] on a dictionary. *)
Definition getitem `{Countable K} {V} (d : gmap K V) (k : K) : res V :=
  match d !! k with
  | Some v => Ok v
  | None => Raise KeyError
  end.

(** [l[k]] on a list, for an index [k] that a [range] produced. *)
Definition getindex {A} (l : list A) (k : nat) : res A :=
  match l !! k with
  | Some v => Ok v
  | None => Raise IndexError
  end.

(** [l[k] = v] on a list. *)
Definition setindex {A} (l : list A) (k : nat) (v : A) : res (list A) :=
  if decide (k < length l) then Ok (<[k := v]> l) else Raise IndexError.

(** [for x in l: s = body(s, x)], aborted by the first exception. *)
Fixpoint for_each {A S} (l : list A) (body : S → A → res S) (s : S) : res S :=
  match l with
  | [] => Ok s
  | x :: l' => s' ← body s x; for_each l' body s'
  end.

(** [range(z)] for a Python integer [z]: empty when [z] is not positive. *)
Definition range (z : Z) : list nat := seq 0 (Z.to_nat z).

(** ** The network (the part of [cobra] that the algorithm reads) *)

(** A path is a tuple of metabolite identifiers. *)
Abbreviation path := (list string).

(** A reaction: its identifier, its subsystem tag, and its
    metabolite-to-coefficient dictionary in insertion order; a metabolite is
    represented by its identifier, and only the sign of a coefficient is ever
    inspected. *)
Record Reaction : Type := mkReaction {
  rxn_id : string;
  rxn_subsystem : string;
  rxn_metabolites : list (string * Z)
}.

(** [cobra]: the reactants of a reaction have a negative coefficient, the
    products a positive one. *)
Definition reactants (r : Reaction) : list string :=
  (filter (λ mc, (mc.2 < 0)%Z) (rxn_metabolites r)).*1.
Definition products (r : Reaction) : list string :=
  (filter (λ mc, (0 < mc.2)%Z) (rxn_metabolites r)).*1.

Record Model : Type := mkModel {
  model_reactions : list Reaction;
  model_metabolites : list string
}.

(** ** The directed graph (the part of [networkx] that the algorithm uses) *)

(** [adj]: node to successor to the edge attribute [rxn_id].  A node of the
    graph is a key of the outer dictionary. *)
Abbreviation DiGraph := (gmap string (gmap string string)).

Definition add_node (g : DiGraph) (u : string) : DiGraph :=
  match g !! u with
  | Some _ => g
  | None => <[u := ∅]> g
  end.

Definition add_edge (g : DiGraph) (u v rxn : string) : DiGraph :=
  let g := add_node (add_node g u) v in
  <[u := <[v := rxn]> (default ∅ (g !! u))]> g.

(** [set(G.adj[u])] *)
Definition graph_adj (g : DiGraph) (u : string) : res (gset string) :=
  a ← getitem g u; Ok (dom a).

(** [G[u][v]['rxn_id']] *)
Definition graph_rxn_id (g : DiGraph) (u v : string) : res string :=
  a ← getitem g u; getitem a v.

(** ** The state of a [RedGEM] object *)

Record RedGEM : Type := mkRedGEM {
  _gem : Model;
  _redgem : Model;
  _graph : DiGraph;
  _subsystem_names : list string;
  _core_subsystems : list string;
  _subsystem_reactions : gmap string (list Reaction);
  _subsystem_reactions_id : gmap string (gset string);
  _intermediate_reactions_id : gmap string (gmap string (list (gset string)));
  _subsystem_metabolites_id : gmap string (gset string);
  _intermediate_metabolites_id : gmap string (gmap string (list (gset string)));
  _intermediate_paths : gmap string (gmap string (list (gset path)));
  _min_distance_sub_to_sub : gmap string (gmap string Z);
  _intermediate_extracellular_paths : gmap string (list (gset path));
  _intermediate_extracellular_metabolites_id : gmap string (list (gset string));
  _intermediate_extracellular_reactions_id : gmap string (list (gset string));
  _path_dict : gmap string (list path);
  _cofactor_pairs : list string;
  _small_metabolites : list string;
  _inorganics : list string;
  _d : Z;
  _extracellular_system : list string;
  _n : Z
}.

(** Assignment to one attribute. *)
Definition set_redgem (st : RedGEM) v : RedGEM :=
  {| _gem := _gem st;
     _redgem := v;
     _graph := _graph st;
     _subsystem_names := _subsystem_names st;
     _core_subsystems := _core_subsystems st;
     _subsystem_reactions := _subsystem_reactions st;
     _subsystem_reactions_id := _subsystem_reactions_id st;
     _intermediate_reactions_id := _intermediate_reactions_id st;
     _subsystem_metabolites_id := _subsystem_metabolites_id st;
     _intermediate_metabolites_id := _intermediate_metabolites_id st;
     _intermediate_paths := _intermediate_paths st;
     _min_distance_sub_to_sub := _min_distance_sub_to_sub st;
     _intermediate_extracellular_paths := _intermediate_extracellular_paths st;
     _intermediate_extracellular_metabolites_id := _intermediate_extracellular_metabolites_id st;
     _intermediate_extracellular_reactions_id := _intermediate_extracellular_reactions_id st;
     _path_dict := _path_dict st;
     _cofactor_pairs := _cofactor_pairs st;
     _small_metabolites := _small_metabolites st;
     _inorganics := _inorganics st;
     _d := _d st;
     _extracellular_system := _extracellular_system st;
     _n := _n st |}.
Definition set_graph (st : RedGEM) v : RedGEM :=
  {| _gem := _gem st;
     _redgem := _redgem st;
     _graph := v;
     _subsystem_names := _subsystem_names st;
     _core_subsystems := _core_subsystems st;
     _subsystem_reactions := _subsystem_reactions st;
     _subsystem_reactions_id := _subsystem_reactions_id st;
     _intermediate_reactions_id := _intermediate_reactions_id st;
     _subsystem_metabolites_id := _subsystem_metabolites_id st;
     _intermediate_metabolites_id := _intermediate_metabolites_id st;
     _intermediate_paths := _intermediate_paths st;
     _min_distance_sub_to_sub := _min_distance_sub_to_sub st;
     _intermediate_extracellular_paths := _intermediate_extracellular_paths st;
     _intermediate_extracellular_metabolites_id := _intermediate_extracellular_metabolites_id st;
     _intermediate_extracellular_reactions_id := _intermediate_extracellular_reactions_id st;
     _path_dict := _path_dict st;
     _cofactor_pairs := _cofactor_pairs st;
     _small_metabolites := _small_metabolites st;
     _inorganics := _inorganics st;
     _d := _d st;
     _extracellular_system := _extracellular_system st;
     _n := _n st |}.
Definition set_subsystem_reactions (st : RedGEM) v : RedGEM :=
  {| _gem := _gem st;
     _redgem := _redgem st;
     _graph := _graph st;
     _subsystem_names := _subsystem_names st;
     _core_subsystems := _core_subsystems st;
     _subsystem_reactions := v;
     _subsystem_reactions_id := _subsystem_reactions_id st;
     _intermediate_reactions_id := _intermediate_reactions_id st;
     _subsystem_metabolites_id := _subsystem_metabolites_id st;
     _intermediate_metabolites_id := _intermediate_metabolites_id st;
     _intermediate_paths := _intermediate_paths st;
     _min_distance_sub_to_sub := _min_distance_sub_to_sub st;
     _intermediate_extracellular_paths := _intermediate_extracellular_paths st;
     _intermediate_extracellular_metabolites_id := _intermediate_extracellular_metabolites_id st;
     _intermediate_extracellular_reactions_id := _intermediate_extracellular_reactions_id st;
     _path_dict := _path_dict st;
     _cofactor_pairs := _cofactor_pairs st;
     _small_metabolites := _small_metabolites st;
     _inorganics := _inorganics st;
     _d := _d st;
     _extracellular_system := _extracellular_system st;
     _n := _n st |}.
Definition set_subsystem_reactions_id (st : RedGEM) v : RedGEM :=
  {| _gem := _gem st;
     _redgem := _redgem st;
     _graph := _graph st;
     _subsystem_names := _subsystem_names st;
     _core_subsystems := _core_subsystems st;
     _subsystem_reactions := _subsystem_reactions st;
     _subsystem_reactions_id := v;
     _intermediate_reactions_id := _intermediate_reactions_id st;
     _subsystem_metabolites_id := _subsystem_metabolites_id st;
     _intermediate_metabolites_id := _intermediate_metabolites_id st;
     _intermediate_paths := _intermediate_paths st;
     _min_distance_sub_to_sub := _min_distance_sub_to_sub st;
     _intermediate_extracellular_paths := _intermediate_extracellular_paths st;
     _intermediate_extracellular_metabolites_id := _intermediate_extracellular_metabolites_id st;
     _intermediate_extracellular_reactions_id := _intermediate_extracellular_reactions_id st;
     _path_dict := _path_dict st;
     _cofactor_pairs := _cofactor_pairs st;
     _small_metabolites := _small_metabolites st;
     _inorganics := _inorganics st;
     _d := _d st;
     _extracellular_system := _extracellular_system st;
     _n := _n st |}.
Definition set_intermediate_reactions_id (st : RedGEM) v : RedGEM :=
  {| _gem := _gem st;
     _redgem := _redgem st;
     _graph := _graph st;
     _subsystem_names := _subsystem_names st;
     _core_subsystems := _core_subsystems st;
     _subsystem_reactions := _subsystem_reactions st;
     _subsystem_reactions_id := _subsystem_reactions_id st;
     _intermediate_reactions_id := v;
     _subsystem_metabolites_id := _subsystem_metabolites_id st;
     _intermediate_metabolites_id := _intermediate_metabolites_id st;
     _intermediate_paths := _intermediate_paths st;
     _min_distance_sub_to_sub := _min_distance_sub_to_sub st;
     _intermediate_extracellular_paths := _intermediate_extracellular_paths st;
     _intermediate_extracellular_metabolites_id := _intermediate_extracellular_metabolites_id st;
     _intermediate_extracellular_reactions_id := _intermediate_extracellular_reactions_id st;
     _path_dict := _path_dict st;
     _cofactor_pairs := _cofactor_pairs st;
     _small_metabolites := _small_metabolites st;
     _inorganics := _inorganics st;
     _d := _d st;
     _extracellular_system := _extracellular_system st;
     _n := _n st |}.
Definition set_subsystem_metabolites_id (st : RedGEM) v : RedGEM :=
  {| _gem := _gem st;
     _redgem := _redgem st;
     _graph := _graph st;
     _subsystem_names := _subsystem_names st;
     _core_subsystems := _core_subsystems st;
     _subsystem_reactions := _subsystem_reactions st;
     _subsystem_reactions_id := _subsystem_reactions_id st;
     _intermediate_reactions_id := _intermediate_reactions_id st;
     _subsystem_metabolites_id := v;
     _intermediate_metabolites_id := _intermediate_metabolites_id st;
     _intermediate_paths := _intermediate_paths st;
     _min_distance_sub_to_sub := _min_distance_sub_to_sub st;
     _intermediate_extracellular_paths := _intermediate_extracellular_paths st;
     _intermediate_extracellular_metabolites_id := _intermediate_extracellular_metabolites_id st;
     _intermediate_extracellular_reactions_id := _intermediate_extracellular_reactions_id st;
     _path_dict := _path_dict st;
     _cofactor_pairs := _cofactor_pairs st;
     _small_metabolites := _small_metabolites st;
     _inorganics := _inorganics st;
     _d := _d st;
     _extracellular_system := _extracellular_system st;
     _n := _n st |}.
Definition set_intermediate_metabolites_id (st : RedGEM) v : RedGEM :=
  {| _gem := _gem st;
     _redgem := _redgem st;
     _graph := _graph st;
     _subsystem_names := _subsystem_names st;
     _core_subsystems := _core_subsystems st;
     _subsystem_reactions := _subsystem_reactions st;
     _subsystem_reactions_id := _subsystem_reactions_id st;
     _intermediate_reactions_id := _intermediate_reactions_id st;
     _subsystem_metabolites_id := _subsystem_metabolites_id st;
     _intermediate_metabolites_id := v;
     _intermediate_paths := _intermediate_paths st;
     _min_distance_sub_to_sub := _min_distance_sub_to_sub st;
     _intermediate_extracellular_paths := _intermediate_extracellular_paths st;
     _intermediate_extracellular_metabolites_id := _intermediate_extracellular_metabolites_id st;
     _intermediate_extracellular_reactions_id := _intermediate_extracellular_reactions_id st;
     _path_dict := _path_dict st;
     _cofactor_pairs := _cofactor_pairs st;
     _small_metabolites := _small_metabolites st;
     _inorganics := _inorganics st;
     _d := _d st;
     _extracellular_system := _extracellular_system st;
     _n := _n st |}.
Definition set_intermediate_paths (st : RedGEM) v : RedGEM :=
  {| _gem := _gem st;
     _redgem := _redgem st;
     _graph := _graph st;
     _subsystem_names := _subsystem_names st;
     _core_subsystems := _core_subsystems st;
     _subsystem_reactions := _subsystem_reactions st;
     _subsystem_reactions_id := _subsystem_reactions_id st;
     _intermediate_reactions_id := _intermediate_reactions_id st;
     _subsystem_metabolites_id := _subsystem_metabolites_id st;
     _intermediate_metabolites_id := _intermediate_metabolites_id st;
     _intermediate_paths := v;
     _min_distance_sub_to_sub := _min_distance_sub_to_sub st;
     _intermediate_extracellular_paths := _intermediate_extracellular_paths st;
     _intermediate_extracellular_metabolites_id := _intermediate_extracellular_metabolites_id st;
     _intermediate_extracellular_reactions_id := _intermediate_extracellular_reactions_id st;
     _path_dict := _path_dict st;
     _cofactor_pairs := _cofactor_pairs st;
     _small_metabolites := _small_metabolites st;
     _inorganics := _inorganics st;
     _d := _d st;
     _extracellular_system := _extracellular_system st;
     _n := _n st |}.
Definition set_min_distance_sub_to_sub (st : RedGEM) v : RedGEM :=
  {| _gem := _gem st;
     _redgem := _redgem st;
     _graph := _graph st;
     _subsystem_names := _subsystem_names st;
     _core_subsystems := _core_subsystems st;
     _subsystem_reactions := _subsystem_reactions st;
     _subsystem_reactions_id := _subsystem_reactions_id st;
     _intermediate_reactions_id := _intermediate_reactions_id st;
     _subsystem_metabolites_id := _subsystem_metabolites_id st;
     _intermediate_metabolites_id := _intermediate_metabolites_id st;
     _intermediate_paths := _intermediate_paths st;
     _min_distance_sub_to_sub := v;
     _intermediate_extracellular_paths := _intermediate_extracellular_paths st;
     _intermediate_extracellular_metabolites_id := _intermediate_extracellular_metabolites_id st;
     _intermediate_extracellular_reactions_id := _intermediate_extracellular_reactions_id st;
     _path_dict := _path_dict st;
     _cofactor_pairs := _cofactor_pairs st;
     _small_metabolites := _small_metabolites st;
     _inorganics := _inorganics st;
     _d := _d st;
     _extracellular_system := _extracellular_system st;
     _n := _n st |}.
Definition set_intermediate_extracellular_paths (st : RedGEM) v : RedGEM :=
  {| _gem := _gem st;
     _redgem := _redgem st;
     _graph := _graph st;
     _subsystem_names := _subsystem_names st;
     _core_subsystems := _core_subsystems st;
     _subsystem_reactions := _subsystem_reactions st;
     _subsystem_reactions_id := _subsystem_reactions_id st;
     _intermediate_reactions_id := _intermediate_reactions_id st;
     _subsystem_metabolites_id := _subsystem_metabolites_id st;
     _intermediate_metabolites_id := _intermediate_metabolites_id st;
     _intermediate_paths := _intermediate_paths st;
     _min_distance_sub_to_sub := _min_distance_sub_to_sub st;
     _intermediate_extracellular_paths := v;
     _intermediate_extracellular_metabolites_id := _intermediate_extracellular_metabolites_id st;
     _intermediate_extracellular_reactions_id := _intermediate_extracellular_reactions_id st;
     _path_dict := _path_dict st;
     _cofactor_pairs := _cofactor_pairs st;
     _small_metabolites := _small_metabolites st;
     _inorganics := _inorganics st;
     _d := _d st;
     _extracellular_system := _extracellular_system st;
     _n := _n st |}.
Definition set_intermediate_extracellular_metabolites_id (st : RedGEM) v : RedGEM :=
  {| _gem := _gem st;
     _redgem := _redgem st;
     _graph := _graph st;
     _subsystem_names := _subsystem_names st;
     _core_subsystems := _core_subsystems st;
     _subsystem_reactions := _subsystem_reactions st;
     _subsystem_reactions_id := _subsystem_reactions_id st;
     _intermediate_reactions_id := _intermediate_reactions_id st;
     _subsystem_metabolites_id := _subsystem_metabolites_id st;
     _intermediate_metabolites_id := _intermediate_metabolites_id st;
     _intermediate_paths := _intermediate_paths st;
     _min_distance_sub_to_sub := _min_distance_sub_to_sub st;
     _intermediate_extracellular_paths := _intermediate_extracellular_paths st;
     _intermediate_extracellular_metabolites_id := v;
     _intermediate_extracellular_reactions_id := _intermediate_extracellular_reactions_id st;
     _path_dict := _path_dict st;
     _cofactor_pairs := _cofactor_pairs st;
     _small_metabolites := _small_metabolites st;
     _inorganics := _inorganics st;
     _d := _d st;
     _extracellular_system := _extracellular_system st;
     _n := _n st |}.
Definition set_intermediate_extracellular_reactions_id (st : RedGEM) v : RedGEM :=
  {| _gem := _gem st;
     _redgem := _redgem st;
     _graph := _graph st;
     _subsystem_names := _subsystem_names st;
     _core_subsystems := _core_subsystems st;
     _subsystem_reactions := _subsystem_reactions st;
     _subsystem_reactions_id := _subsystem_reactions_id st;
     _intermediate_reactions_id := _intermediate_reactions_id st;
     _subsystem_metabolites_id := _subsystem_metabolites_id st;
     _intermediate_metabolites_id := _intermediate_metabolites_id st;
     _intermediate_paths := _intermediate_paths st;
     _min_distance_sub_to_sub := _min_distance_sub_to_sub st;
     _intermediate_extracellular_paths := _intermediate_extracellular_paths st;
     _intermediate_extracellular_metabolites_id := _intermediate_extracellular_metabolites_id st;
     _intermediate_extracellular_reactions_id := v;
     _path_dict := _path_dict st;
     _cofactor_pairs := _cofactor_pairs st;
     _small_metabolites := _small_metabolites st;
     _inorganics := _inorganics st;
     _d := _d st;
     _extracellular_system := _extracellular_system st;
     _n := _n st |}.
Definition set_path_dict (st : RedGEM) v : RedGEM :=
  {| _gem := _gem st;
     _redgem := _redgem st;
     _graph := _graph st;
     _subsystem_names := _subsystem_names st;
     _core_subsystems := _core_subsystems st;
     _subsystem_reactions := _subsystem_reactions st;
     _subsystem_reactions_id := _subsystem_reactions_id st;
     _intermediate_reactions_id := _intermediate_reactions_id st;
     _subsystem_metabolites_id := _subsystem_metabolites_id st;
     _intermediate_metabolites_id := _intermediate_metabolites_id st;
     _intermediate_paths := _intermediate_paths st;
     _min_distance_sub_to_sub := _min_distance_sub_to_sub st;
     _intermediate_extracellular_paths := _intermediate_extracellular_paths st;
     _intermediate_extracellular_metabolites_id := _intermediate_extracellular_metabolites_id st;
     _intermediate_extracellular_reactions_id := _intermediate_extracellular_reactions_id st;
     _path_dict := v;
     _cofactor_pairs := _cofactor_pairs st;
     _small_metabolites := _small_metabolites st;
     _inorganics := _inorganics st;
     _d := _d st;
     _extracellular_system := _extracellular_system st;
     _n := _n st |}.

(** ** [__init__] *)

(** [dict_of_lists_of_sets]: for every subsystem name, [d + 1] empty sets. *)
Definition dict_of_lists_of_sets `{Countable A} (names : list string) (d : Z)
    : gmap string (list (gset A)) :=
  foldl (λ m name, <[name := replicate (length (range (d + 1))) ∅]> m) ∅ names.

(** [dict_of_dicts_of_lists_of_sets]: for every name, a deep copy of the
    former. *)
Definition dict_of_dicts_of_lists_of_sets `{Countable A} (names : list string) (d : Z)
    : gmap string (gmap string (list (gset A))) :=
  foldl (λ m name, <[name := dict_of_lists_of_sets names d]> m) ∅ names.

Definition dict_of_int (names : list string) : gmap string Z :=
  foldl (λ m name, <[name := (-1)%Z]> m) ∅ names.

Definition dict_of_dicts_of_int (names : list string) : gmap string (gmap string Z) :=
  foldl (λ m name, <[name := dict_of_int names]> m) ∅ names.

(** The constructor.  [gem.copy()] is a copy that shares nothing with [gem];
    [carbon_uptake] is stored and never read, it has no attribute here. *)
Definition __init__ (gem : Model) (core_subsystems : list string)
    (cofactor_pairs small_metabolites inorganics : list string) (d : Z)
    (extracellular_system : list string) (subsystem_names : list string) (n : Z)
    : RedGEM :=
  {| _gem := gem;
     _redgem := gem;
     _graph := ∅;
     _subsystem_names := subsystem_names;
     _core_subsystems := core_subsystems;
     _subsystem_reactions := ∅;
     _subsystem_reactions_id := ∅;
     _intermediate_reactions_id := dict_of_dicts_of_lists_of_sets subsystem_names d;
     _subsystem_metabolites_id := ∅;
     _intermediate_metabolites_id := dict_of_dicts_of_lists_of_sets subsystem_names d;
     _intermediate_paths := dict_of_dicts_of_lists_of_sets subsystem_names d;
     _min_distance_sub_to_sub := dict_of_dicts_of_int subsystem_names;
     _intermediate_extracellular_paths := dict_of_lists_of_sets subsystem_names d;
     _intermediate_extracellular_metabolites_id := dict_of_lists_of_sets subsystem_names d;
     _intermediate_extracellular_reactions_id := dict_of_lists_of_sets subsystem_names d;
     _path_dict := ∅;
     _cofactor_pairs := cofactor_pairs;
     _small_metabolites := small_metabolites;
     _inorganics := inorganics;
     _d := d;
     _extracellular_system := extracellular_system;
     _n := n |}.

(** ** Subsystems *)

(** The test that the three extraction loops share: the metabolite is a
    cofactor pair, a small metabolite or an inorganic. *)
Definition ignorable (st : RedGEM) (metabolite_id : string) : bool :=
  bool_decide (metabolite_id ∈ _cofactor_pairs st)
  || bool_decide (metabolite_id ∈ _small_metabolites st)
  || bool_decide (metabolite_id ∈ _inorganics st).

Definition extract_subsystem_reactions (st : RedGEM) (subsystem : string) : RedGEM :=
  let rxns := filter (λ rxn, rxn_subsystem rxn = subsystem) (model_reactions (_gem st)) in
  let rxns_id : gset string := list_to_set (rxn_id <$> rxns) in
  set_subsystem_reactions_id (set_subsystem_reactions st (<[subsystem := rxns]> (_subsystem_reactions st)))
    (<[subsystem := rxns_id]> (_subsystem_reactions_id st)).

(** The metabolites of a reaction that are not ignorable. *)
Definition retained (st : RedGEM) (rxn : Reaction) : list (string * Z) :=
  filter (λ mc, ignorable st mc.1 = false) (rxn_metabolites rxn).

Definition extract_subsystem_metabolites (st : RedGEM) (subsystem : string) : res RedGEM :=
  subsystem_rxns ← getitem (_subsystem_reactions st) subsystem;
  let metabolites_id : gset string :=
    list_to_set (subsystem_rxns ≫= λ rxn, (retained st rxn).*1) in
  Ok (set_subsystem_metabolites_id st (<[subsystem := metabolites_id]> (_subsystem_metabolites_id st))).

(** ** The graph builder *)

(** The reaction rebuilt from the retained metabolites. *)
Definition new_rxn (st : RedGEM) (rxn : Reaction) : Reaction :=
  {| rxn_id := rxn_id rxn;
     rxn_subsystem := rxn_subsystem rxn;
     rxn_metabolites := retained st rxn |}.

Definition kept_rxns (st : RedGEM) : list Reaction :=
  new_rxn st <$> model_reactions (_gem st).

Definition kept_metabolites (st : RedGEM) : gset string :=
  list_to_set (model_reactions (_gem st) ≫= λ rxn, (retained st rxn).*1).

(** The three nested loops that add the edges. *)
Definition add_rxn_edges (g : DiGraph) (rxn : Reaction) : DiGraph :=
  foldl (λ g reactant,
           foldl (λ g product, add_edge g reactant product (rxn_id rxn)) g (products rxn))
        g (reactants rxn).

Definition create_new_stoichiometric_matrix (st : RedGEM) : RedGEM :=
  let g := foldl add_node (_graph st) (elements (kept_metabolites st)) in
  set_graph st (foldl add_rxn_edges g (kept_rxns st)).

(** ** The admission predicates *)

(** Python's [a and b]: [b] is evaluated only when [a] holds. *)
Definition py_and (a : bool) (b : res bool) : res bool :=
  if a then b else Ok false.

(** [node in self._subsystem_metabolites_id[subsystem]] *)
Definition in_subsystem (st : RedGEM) (node subsystem : string) : res bool :=
  m ← getitem (_subsystem_metabolites_id st) subsystem; Ok (bool_decide (node ∈ m)).

Definition is_node_allowed (st : RedGEM) (node : string) (i : Z) (explored : gset string)
    (subsystem_i subsystem_j : string) (d : Z) : res bool :=
  if bool_decide (node ∈ explored) then Ok false else
  c ← py_and (bool_decide (subsystem_i ≠ subsystem_j)) (in_subsystem st node subsystem_i);
  if c : bool then Ok false else
  c ← py_and (bool_decide (i < d - 1)%Z) (in_subsystem st node subsystem_j);
  if c : bool then Ok false else
  c ← py_and (bool_decide (i = d - 1)%Z) (negb <$> in_subsystem st node subsystem_j);
  if c : bool then Ok false else
  Ok true.

Definition is_node_allowed_extracellular (st : RedGEM) (node : string) (i : Z)
    (explored : gset string) (subsystem : string) (n : Z) : res bool :=
  if bool_decide (node ∈ explored) then Ok false else
  if bool_decide (node ∈ _extracellular_system st) then Ok false else
  c ← py_and (bool_decide (i < n - 1)%Z) (in_subsystem st node subsystem);
  if c : bool then Ok false else
  c ← py_and (bool_decide (i = n - 1)%Z) (negb <$> in_subsystem st node subsystem);
  if c : bool then Ok false else
  Ok true.

(** ** The bounded breadth-first search *)

(** The ancestors dictionary of one search: a reached node to the list of
    the frontier nodes that discovered it. *)
Abbreviation ancestors_map := (gmap string (list string)).

(** [if new_node in ancestors: ancestors[new_node].append(current_node)
     else: ancestors[new_node] = [current_node]] *)
Definition ancestors_append (ancestors : ancestors_map) (new_node current_node : string)
    : ancestors_map :=
  match ancestors !! new_node with
  | Some l => <[new_node := l ++ [current_node]]> ancestors
  | None => <[new_node := [current_node]]> ancestors
  end.

(** The search loop is written twice in the source, in
    [breadth_search_subsystems_paths_length_d] and in
    [breadth_search_extracellular_system_paths]; the two copies differ in the
    admission predicate only, which is the parameter [allowed] here (the
    candidate, the step index and the explored set are its arguments). *)
Section search.
Variable allowed : string → Z → gset string → res bool.
Variable g : DiGraph.

(** [for new_node in set(self._graph.adj[current_node]): ...] *)
Definition expand (i : nat) (explored : gset string)
    (acc : gset string * ancestors_map) (current_node : string)
    : res (gset string * ancestors_map) :=
  successors ← graph_adj g current_node;
  for_each (elements successors)
    (λ '(new_nodes, ancestors) new_node,
       ok ← allowed new_node (Z.of_nat i) explored;
       if ok : bool
       then Ok ({[new_node]} ∪ new_nodes, ancestors_append ancestors new_node current_node)
       else Ok (new_nodes, ancestors))
    acc.

(** One iteration of [for i in range(d)]; the state is
    [(ancestors, frontier, explored)]. *)
Definition search_round (s : ancestors_map * gset string * gset string) (i : nat)
    : res (ancestors_map * gset string * gset string) :=
  let '(ancestors, frontier, explored) := s in
  '(new_nodes, ancestors) ← for_each (elements frontier) (expand i explored) (∅, ancestors);
  Ok (ancestors, new_nodes, explored ∪ new_nodes).

Definition search (d : nat) (metabolite_id : string)
    : res (ancestors_map * gset string * gset string) :=
  for_each (seq 0 d) search_round (∅, {[metabolite_id]}, {[metabolite_id]}).
End search.

(** ** The path enumerator *)

(** [retrieve_all_paths] reads and writes one attribute, [self._path_dict],
    which is passed in and returned.  [limit] bounds the depth of the
    recursion, as the interpreter does. *)
Fixpoint retrieve_all_paths (limit : nat) (path_dict : gmap string (list path))
    (dest_node src_node : string) (ancestors : ancestors_map) (init_dict : bool)
    : res (list path * gmap string (list path)) :=
  match limit with
  | 0 => Raise RecursionError
  | S limit =>
    let path_dict := if init_dict then ∅ else path_dict in
    let path_dict :=
      if decide (dest_node = src_node) then <[dest_node := [[src_node]]]> path_dict
      else path_dict in
    path_dict ←
      match path_dict !! dest_node with
      | Some _ => Ok path_dict
      | None =>
        previous ← getitem ancestors dest_node;
        '(new_paths, path_dict) ←
          for_each previous
            (λ '(new_paths, path_dict) previous_node,
               '(paths, path_dict) ←
                 retrieve_all_paths limit path_dict previous_node src_node ancestors false;
               Ok (new_paths ++ ((λ p, p ++ [dest_node]) <$> paths), path_dict))
            ([], path_dict);
        Ok (<[dest_node := new_paths]> path_dict)
      end;
    paths ← getitem path_dict dest_node;
    Ok (paths, path_dict)
  end.

(** ** Recording the results of a search *)

(** [c[i][j][k] = f(c[i][j][k])] on a dictionary of dictionaries of lists:
    the three subscripts are evaluated first and raise as Python does. *)
Definition update_pair {A} (c : gmap string (gmap string (list A)))
    (i j : string) (k : nat) (f : A → A) : res (gmap string (gmap string (list A))) :=
  ci ← getitem c i;
  cij ← getitem ci j;
  x ← getindex cij k;
  Ok (<[i := <[j := <[k := f x]> cij]> ci]> c).

(** [c[i][k] = f(c[i][k])] on a dictionary of lists. *)
Definition update_slot {A} (c : gmap string (list A))
    (i : string) (k : nat) (f : A → A) : res (gmap string (list A)) :=
  ci ← getitem c i;
  x ← getindex ci k;
  Ok (<[i := <[k := f x]> ci]> c).

(** The body of [for i in range(len(path)-1)]. *)
Definition save_edge (path : path) (subsystem_i subsystem_j : string) (d : nat)
    (st : RedGEM) (i : nat) : res RedGEM :=
  a ← getindex path i;
  b ← getindex path (i + 1);
  reaction ← graph_rxn_id (_graph st) a b;
  rs ← update_pair (_intermediate_reactions_id st) subsystem_i subsystem_j d
         (λ s, s ∪ {[reaction]});
  let st := set_intermediate_reactions_id st rs in
  if decide (0 < i) then
    ms ← update_pair (_intermediate_metabolites_id st) subsystem_i subsystem_j d
           (λ s, s ∪ {[a]});
    Ok (set_intermediate_metabolites_id st ms)
  else Ok st.

Definition retrieve_intermediate_metabolites_and_reactions (st : RedGEM)
    (paths : list path) (subsystem_i subsystem_j : string) (d : nat) : res RedGEM :=
  for_each paths
    (λ st path,
       for_each (range (Z.of_nat (length path) - 1))
         (save_edge path subsystem_i subsystem_j d) st)
    st.

Definition save_extracellular_edge (path : path) (subsystem : string) (n : nat)
    (st : RedGEM) (i : nat) : res RedGEM :=
  a ← getindex path i;
  b ← getindex path (i + 1);
  reaction ← graph_rxn_id (_graph st) a b;
  rs ← update_slot (_intermediate_extracellular_reactions_id st) subsystem n
         (λ s, s ∪ {[reaction]});
  let st := set_intermediate_extracellular_reactions_id st rs in
  if decide (0 < i) then
    ms ← update_slot (_intermediate_extracellular_metabolites_id st) subsystem n
           (λ s, s ∪ {[a]});
    Ok (set_intermediate_extracellular_metabolites_id st ms)
  else Ok st.

Definition retrieve_intermediate_extracellular_metabolites_and_reactions (st : RedGEM)
    (paths : list path) (subsystem : string) (n : nat) : res RedGEM :=
  for_each paths
    (λ st path,
       for_each (range (Z.of_nat (length path) - 1))
         (save_extracellular_edge path subsystem n) st)
    st.

(** ** The two searches *)

(** The body of [for node in frontier] in the search between subsystems:
    retrieve and save metabolites, reactions and paths. *)
Definition save_paths (limit : nat) (subsystem_i subsystem_j : string) (d : nat)
    (metabolite_id : string) (ancestors : ancestors_map) (st : RedGEM) (node : string)
    : res RedGEM :=
  '(paths, path_dict) ←
    retrieve_all_paths limit (_path_dict st) node metabolite_id ancestors true;
  let st := set_path_dict st path_dict in
  ps ← update_pair (_intermediate_paths st) subsystem_i subsystem_j d
         (λ s, s ∪ list_to_set paths);
  let st := set_intermediate_paths st ps in
  retrieve_intermediate_metabolites_and_reactions st paths subsystem_i subsystem_j d.

(** The first half of the body of
    [for metabolite_id in self._subsystem_metabolites_id[subsystem_i]]: find
    the metabolites at a distance [d] from [metabolite_id].  It leaves the
    ancestors and the frontier.  The depth [d] is an element of a [range],
    hence a natural number. *)
Definition find_at_distance (st : RedGEM) (subsystem_i subsystem_j : string) (d : nat)
    (metabolite_id : string) : res (ancestors_map * gset string) :=
  '(ancestors, frontier, explored) ←
    search (λ node i explored,
              is_node_allowed st node i explored subsystem_i subsystem_j (Z.of_nat d))
           (_graph st) d metabolite_id;
  (* Handle d = 0 case, since it didn't go through the loop *)
  not_there ← py_and (bool_decide (d = 0))
                     (negb <$> in_subsystem st metabolite_id subsystem_j);
  Ok (ancestors, if not_there : bool then ∅ else frontier).

(** The whole body: then retrieve and save metabolites, reactions and
    paths. *)
Definition search_from (limit : nat) (subsystem_i subsystem_j : string) (d : nat)
    (st : RedGEM) (metabolite_id : string) : res RedGEM :=
  '(ancestors, frontier) ← find_at_distance st subsystem_i subsystem_j d metabolite_id;
  for_each (elements frontier)
    (save_paths limit subsystem_i subsystem_j d metabolite_id ancestors) st.

Definition breadth_search_subsystems_paths_length_d (limit : nat) (st : RedGEM)
    (subsystem_i subsystem_j : string) (d : nat) : res RedGEM :=
  sources ← getitem (_subsystem_metabolites_id st) subsystem_i;
  for_each (elements sources) (search_from limit subsystem_i subsystem_j d) st.

(** The body of [for node in frontier] in the extracellular search. *)
Definition save_extracellular_paths (limit : nat) (subsystem : string) (n : nat)
    (metabolite_id : string) (ancestors : ancestors_map) (st : RedGEM) (node : string)
    : res RedGEM :=
  '(paths, path_dict) ←
    retrieve_all_paths limit (_path_dict st) node metabolite_id ancestors true;
  let st := set_path_dict st path_dict in
  ps ← update_slot (_intermediate_extracellular_paths st) subsystem n
         (λ s, s ∪ list_to_set paths);
  let st := set_intermediate_extracellular_paths st ps in
  retrieve_intermediate_extracellular_metabolites_and_reactions st paths subsystem n.

(** The first half of the body of
    [for metabolite_id in self._extracellular_system]: find the metabolites
    at a distance [n] from [metabolite_id]. *)
Definition find_extracellular_at_distance (st : RedGEM) (subsystem : string) (n : nat)
    (metabolite_id : string) : res (ancestors_map * gset string) :=
  '(ancestors, frontier, explored) ←
    search (λ node i explored,
              is_node_allowed_extracellular st node i explored subsystem (Z.of_nat n))
           (_graph st) n metabolite_id;
  (* Handle n = 0 case, since it didn't go through the loop *)
  not_there ← py_and (bool_decide (n = 0))
                     (negb <$> in_subsystem st metabolite_id subsystem);
  Ok (ancestors, if not_there : bool then ∅ else frontier).

(** The whole body. *)
Definition extracellular_search_from (limit : nat) (subsystem : string) (n : nat)
    (st : RedGEM) (metabolite_id : string) : res RedGEM :=
  '(ancestors, frontier) ← find_extracellular_at_distance st subsystem n metabolite_id;
  for_each (elements frontier)
    (save_extracellular_paths limit subsystem n metabolite_id ancestors) st.

Definition breadth_search_extracellular_system_paths (limit : nat) (st : RedGEM)
    (subsystem : string) (n : nat) : res RedGEM :=
  for_each (_extracellular_system st) (extracellular_search_from limit subsystem n) st.

(** ** The minimal distances *)

(** [for k in range(self._d+1): if paths[i][j][k]: ...; break]: the first
    [k] of the range whose set is not empty, if there is one. *)
Fixpoint first_non_empty (st : RedGEM) (i j : string) (ks : list nat) : res (option nat) :=
  match ks with
  | [] => Ok None
  | k :: ks =>
    pi ← getitem (_intermediate_paths st) i;
    pij ← getitem pi j;
    s ← getindex pij k;
    if decide (s ≠ ∅) then Ok (Some k) else first_non_empty st i j ks
  end.

Definition find_min_distance_between_subsystems (st : RedGEM)
    : res (gmap string (gmap string Z) * RedGEM) :=
  st ← for_each (_subsystem_names st)
    (λ st i,
       for_each (_subsystem_names st)
         (λ st j,
            found ← first_non_empty st i j (range (_d st + 1));
            st ← match found with
                 | Some k =>
                   mi ← getitem (_min_distance_sub_to_sub st) i;
                   Ok (set_min_distance_sub_to_sub st
                         (<[i := <[j := Z.of_nat k]> mi]> (_min_distance_sub_to_sub st)))
                 | None => Ok st
                 end;
            (* If min distance os not found, then *)
            mi ← getitem (_min_distance_sub_to_sub st) i;
            _ ← getitem mi j;
            Ok st)
         st)
    st;
  Ok (_min_distance_sub_to_sub st, st).

(** ** The driver *)

Definition run_between_all_subsystems (limit : nat) (st : RedGEM) : res RedGEM :=
  st ← for_each (_subsystem_names st)
    (λ st subsystem,
       extract_subsystem_metabolites (extract_subsystem_reactions st subsystem) subsystem)
    st;
  for_each (_subsystem_names st)
    (λ st subsystem_i,
       for_each (_subsystem_names st)
         (λ st subsystem_j,
            for_each (range (_d st + 1))
              (λ st k,
                 breadth_search_subsystems_paths_length_d limit st subsystem_i subsystem_j k)
              st)
         st)
    st.

Definition run_extracellular_system (limit : nat) (st : RedGEM) : res RedGEM :=
  for_each (_subsystem_names st)
    (λ st subsystem,
       for_each (range (_n st + 1))
         (λ st k, breadth_search_extracellular_system_paths limit st subsystem k)
         st)
    st.

(** ** The pruner *)

(** Modelled from the spec: [cobra]'s [Model.remove_reactions(ids,
    remove_orphans)], which is not part of the repository.  It removes every
    reaction whose identifier is listed from the network and, when
    [remove_orphans] is set, cascades to the metabolites that the removed
    reactions leave without any reaction. *)
Definition remove_reactions (m : Model) (ids : gset string) (remove_orphans : bool) : Model :=
  let removed := filter (λ r, rxn_id r ∈ ids) (model_reactions m) in
  let left := filter (λ r, rxn_id r ∉ ids) (model_reactions m) in
  let orphaned x :=
    bool_decide (x ∈ removed ≫= λ r, (rxn_metabolites r).*1)
    && bool_decide (x ∉ left ≫= λ r, (rxn_metabolites r).*1) in
  {| model_reactions := left;
     model_metabolites :=
       if remove_orphans
       then filter (λ x, orphaned x = false) (model_metabolites m)
       else model_metabolites m |}.

(** [extract_sub_network] returns the new state together with what it
    prints: [to_remove_metabolites] and [to_remove_reactions]. *)
Definition extract_sub_network (st : RedGEM) : res (RedGEM * (gset string * gset string)) :=
  let to_remove_metabolites : gset string := list_to_set (model_metabolites (_gem st)) in
  let to_remove_reactions : gset string := list_to_set (rxn_id <$> model_reactions (_gem st)) in
  (* Keep subsystems reactions and metabolites *)
  '(to_remove_metabolites, to_remove_reactions) ←
    for_each (_subsystem_names st)
      (λ '(to_remove_metabolites, to_remove_reactions) name,
         rs ← getitem (_subsystem_reactions_id st) name;
         ms ← getitem (_subsystem_metabolites_id st) name;
         Ok (to_remove_metabolites ∖ ms, to_remove_reactions ∖ rs))
      (to_remove_metabolites, to_remove_reactions);
  (* Keep intermediate reactions and metabolites *)
  '(to_remove_metabolites, to_remove_reactions) ←
    for_each (_subsystem_names st)
      (λ acc i,
         for_each (_subsystem_names st)
           (λ acc j,
              for_each (range (_d st + 1))
                (λ '(to_remove_metabolites, to_remove_reactions) k,
                   ri ← getitem (_intermediate_reactions_id st) i;
                   rij ← getitem ri j;
                   rs ← getindex rij k;
                   mi ← getitem (_intermediate_metabolites_id st) i;
                   mij ← getitem mi j;
                   ms ← getindex mij k;
                   Ok (to_remove_metabolites ∖ ms, to_remove_reactions ∖ rs))
                acc)
           acc)
      (to_remove_metabolites, to_remove_reactions);
  (* Keep extracellular metabolites *)
  let to_remove_metabolites := to_remove_metabolites ∖ list_to_set (_extracellular_system st) in
  (* Keep intermediate extracellular reactions and metabolites *)
  '(to_remove_metabolites, to_remove_reactions) ←
    for_each (_subsystem_names st)
      (λ acc i,
         for_each (range (_d st + 1))
           (λ '(to_remove_metabolites, to_remove_reactions) k,
              ri ← getitem (_intermediate_extracellular_reactions_id st) i;
              rs ← getindex ri k;
              mi ← getitem (_intermediate_extracellular_metabolites_id st) i;
              ms ← getindex mi k;
              Ok (to_remove_metabolites ∖ ms, to_remove_reactions ∖ rs))
           acc)
      (to_remove_metabolites, to_remove_reactions);
  Ok (set_redgem st (remove_reactions (_redgem st) to_remove_reactions true),
      (to_remove_metabolites, to_remove_reactions)).

Definition run (limit : nat) (st : RedGEM) : res (RedGEM * (gset string * gset string)) :=
  let st := create_new_stoichiometric_matrix st in
  st ← run_between_all_subsystems limit st;
  st ← run_extracellular_system limit st;
  extract_sub_network st.

(** ** A small network to run the definitions on

    Subsystem X holds the reaction [A -> B], subsystem Y the reaction
    [C -> D]; the reaction [B -> C] belongs to neither, and [h2o] is an
    inorganic. *)
Module Demo.
Definition r1 := mkReaction "r1" "X" [("A", (-1)%Z); ("h2o", (-1)%Z); ("B", 1%Z)].
Definition r2 := mkReaction "r2" "T" [("B", (-1)%Z); ("C", 1%Z)].
Definition r3 := mkReaction "r3" "Y" [("C", (-1)%Z); ("D", 1%Z)].
Definition r4 := mkReaction "r4" "T" [("E", (-2)%Z); ("A", 1%Z)].
Definition gem := mkModel [r1; r2; r3; r4] ["A"; "B"; "C"; "D"; "E"; "h2o"].
Definition new (d n : Z) : RedGEM :=
  __init__ gem ["X"; "Y"] [] [] ["h2o"] d ["E"] ["X"; "Y"] n.
(** The state once the metabolites of X and Y are extracted: X has A and
    B, Y has C and D. *)
Definition extracted (d n : Z) : RedGEM :=
  match extract_subsystem_metabolites (extract_subsystem_reactions (new d n) "X") "X" with
  | Ok st =>
    match extract_subsystem_metabolites (extract_subsystem_reactions st "Y") "Y" with
    | Ok st => create_new_stoichiometric_matrix st
    | Raise _ => st
    end
  | Raise _ => new d n
  end.
(** The same network with a reaction [F -> G] that no search reaches. *)
Definition r5 := mkReaction "r5" "T" [("F", (-1)%Z); ("G", 1%Z)].
Definition gem2 :=
  mkModel [r1; r2; r3; r4; r5] ["A"; "B"; "C"; "D"; "E"; "F"; "G"; "h2o"].
Definition fresh2 : RedGEM :=
  __init__ gem2 ["X"; "Y"] [] [] ["h2o"] 1 ["E"] ["X"; "Y"] 1.
(** The state that a run on it ends in. *)
Definition pruned : RedGEM :=
  Eval vm_compute in
  match run 1000 fresh2 with
  | Ok (st, _) => st
  | Raise _ => fresh2
  end.
(** The subsystems X and T share the metabolites A and B. *)
Definition sharing : RedGEM := __init__ gem [] [] [] ["h2o"] 0 ["E"] ["X"; "T"] 0.
(** Depth [d = 0] and extracellular depth [n = 1]: the extracellular
    metabolite E is at distance 1 from the subsystem X; h2o is no node of
    the graph. *)
Definition deeper (extracellular_system : list string) : RedGEM :=
  __init__ gem [] [] [] ["h2o"] 0 extracellular_system ["X"] 1.
(** The state of [deeper] when the extracellular search starts. *)
Definition searched (extracellular_system : list string) : RedGEM :=
  match run_between_all_subsystems 1000
          (create_new_stoichiometric_matrix (deeper extracellular_system)) with
  | Ok st => st
  | Raise _ => deeper extracellular_system
  end.
(** The core subsystem X is not among the subsystem names, which list Y
    only; and the state that a run on it ends in. *)
Definition apart : RedGEM := __init__ gem ["X"] [] [] ["h2o"] 1 ["E"] ["Y"] 1.
Definition apart_pruned : RedGEM :=
  Eval vm_compute in
  match run 1000 apart with
  | Ok (st, _) => st
  | Raise _ => apart
  end.
(** Two core subsystems, and the subsystem names left at their default, the
    empty tuple; and the state that a run on it ends in. *)
Definition unnamed : RedGEM := __init__ gem ["X"; "Y"] [] [] ["h2o"] 1 ["E"] [] 0.
Definition unnamed_pruned : RedGEM :=
  Eval vm_compute in
  match run 1000 unnamed with
  | Ok (st, _) => st
  | Raise _ => unnamed
  end.
(** A network in which the metabolite L takes part in one reaction only,
    [L -> atp], whose product is a cofactor. *)
Definition rL := mkReaction "rL" "T" [("L", (-1)%Z); ("atp", 1%Z)].
Definition lone : RedGEM :=
  __init__ (mkModel [r1; rL] ["A"; "B"; "h2o"; "L"; "atp"]) [] ["atp"] [] ["h2o"] 1 [] [] 0.
(** The state after the search from X to Y at depth 1, and the state
    after the extracellular search for X at depth 1. *)
Definition between : RedGEM :=
  Eval vm_compute in
  match breadth_search_subsystems_paths_length_d 1000 (extracted 1 0) "X" "Y" 1 with
  | Ok st => st
  | Raise _ => extracted 1 0
  end.
Definition outward : RedGEM :=
  Eval vm_compute in
  match breadth_search_extracellular_system_paths 1000 (extracted 1 1) "X" 1 with
  | Ok st => st
  | Raise _ => extracted 1 1
  end.
End Demo.

(** ** Vocabulary of the statements *)

(** The tag of the edge from [u] to [v], if the graph has that edge. *)
Definition edge_tag (g : DiGraph) (u v : string) : option string :=
  g !! u ≫= λ a, a !! v.

(** A reaction induces the edge from each of its reactants to each of its
    products. *)
Definition induces (r : Reaction) (a b : string) : Prop :=
  a ∈ reactants r ∧ b ∈ products r.

(** The set in slot [k] of the pair [(i, j)], or of the name [i]; empty when
    there is no such slot. *)
Definition pair_slot `{Countable A} (c : gmap string (gmap string (list (gset A))))
    (i j : string) (k : nat) : gset A :=
  default ∅ (c !! i ≫= λ ci, ci !! j ≫= λ l, l !! k).

Definition name_slot `{Countable A} (c : gmap string (list (gset A)))
    (i : string) (k : nat) : gset A :=
  default ∅ (c !! i ≫= λ l, l !! k).

(** The (i, j, k) path-result set. *)
Definition path_result (st : RedGEM) (i j : string) (k : nat) : gset path :=
  pair_slot (_intermediate_paths st) i j k.

(** The attributes that the searches only read. *)
Definition setup (st : RedGEM) :=
  (_gem st, _redgem st, _graph st, _subsystem_names st, _core_subsystems st,
   _subsystem_reactions st, _subsystem_reactions_id st, _subsystem_metabolites_id st,
   _min_distance_sub_to_sub st, _cofactor_pairs st, _small_metabolites st, _inorganics st,
   _d st, _extracellular_system st, _n st).

(** The identifiers that tag an edge of the graph. *)
Definition is_tag (g : DiGraph) (r : string) : Prop :=
  ∃ a b, edge_tag g a b = Some r.

(** A tuple of nodes that follows edges of the graph. *)
Definition path_in_graph (g : DiGraph) (p : path) : Prop :=
  ∀ i a b, p !! i = Some a → p !! S i = Some b → is_Some (edge_tag g a b).

(** The entry of a pair in a min-distance matrix. *)
Definition min_distance (m : gmap string (gmap string Z)) (i j : string) : option Z :=
  m !! i ≫= λ c, c !! j.

(** [k] is the smallest depth in [0, d] at which the pair has a path. *)
Definition is_min_depth (st : RedGEM) (i j : string) (k : nat) : Prop :=
  (Z.of_nat k ≤ _d st)%Z ∧ path_result st i j k ≠ ∅
  ∧ ∀ k', k' < k → path_result st i j k' = ∅.

(** The pair has no path at any depth in [0, d]. *)
Definition no_depth (st : RedGEM) (i j : string) : Prop :=
  ∀ k, (Z.of_nat k ≤ _d st)%Z → path_result st i j k = ∅.

(** The shape that [__init__] gives to the containers: every pair of
    subsystem names has a list of [len] slots, every name has one. *)
Definition pair_shape {A} (names : list string) (len : nat)
    (c : gmap string (gmap string (list A))) : Prop :=
  ∀ i j, i ∈ names → j ∈ names →
    ∃ ci cij, c !! i = Some ci ∧ ci !! j = Some cij ∧ length cij = len.

Definition slot_shape {A} (names : list string) (len : nat)
    (c : gmap string (list A)) : Prop :=
  ∀ i, i ∈ names → ∃ ci, c !! i = Some ci ∧ length ci = len.

Definition matrix_shape (names : list string) (m : gmap string (gmap string Z)) : Prop :=
  ∀ i j, i ∈ names → j ∈ names → is_Some (min_distance m i j).

(** The paths from the source [s] that are consistent with the ancestor
    chain, in the words of the specification: the single path [(s,)] to [s]
    itself, and to another node [t] every path to an immediate ancestor of
    [t] with [t] appended. *)
Inductive consistent_path (ancestors : ancestors_map) (s : string) : string → path → Prop :=
  | consistent_source : consistent_path ancestors s s [s]
  | consistent_step t l a p :
      t ≠ s → ancestors !! t = Some l → a ∈ l →
      consistent_path ancestors s a p →
      consistent_path ancestors s t (p ++ [t]).

(** The ancestors of a node are one level below it, and each of them is the
    source or has ancestors of its own: what makes the enumeration end. *)
Definition ranked (ancestors : ancestors_map) (s : string) (level : string → nat) : Prop :=
  ∀ t l a, ancestors !! t = Some l → a ∈ l →
    level a < level t ∧ (a = s ∨ a ∈ dom ancestors).

(** What [networkx] maintains: the successors of a node are nodes. *)
Definition graph_closed (g : DiGraph) : Prop :=
  ∀ u a v, g !! u = Some a → v ∈ dom a → v ∈ dom g.

(** The state [(ancestors, frontier, explored)] of a search from [start]
    after [i] rounds: the explored nodes are the start and the nodes that
    have ancestors, the frontier is at level [i], and every ancestor relation
    is an edge of the graph from one level to the next. *)
Definition search_inv (g : DiGraph) (start : string) (i : nat)
    (s : ancestors_map * gset string * gset string) : Prop :=
  let '(ancestors, frontier, explored) := s in
  ∃ level : string → nat,
    ranked ancestors start level
    ∧ (∀ t, t ∈ frontier → level t = i)
    ∧ (∀ t, t ∈ explored → level t ≤ i)
    ∧ explored = {[start]} ∪ dom ancestors
    ∧ frontier ⊆ explored
    ∧ (∀ t l a, ancestors !! t = Some l → a ∈ l → is_Some (edge_tag g a t)).

(** Every entry of the memo holds the consistent paths to its node. *)
Definition memo_ok (ancestors : ancestors_map) (s : string)
    (path_dict : gmap string (list path)) : Prop :=
  ∀ t ps, path_dict !! t = Some ps → ∀ p, p ∈ ps ↔ consistent_path ancestors s t p.

(** The six result containers keep their shape from [st0] to [st]. *)
Definition shapes_kept (st0 st : RedGEM) : Prop :=
  (∀ names len, pair_shape names len (_intermediate_paths st0) →
     pair_shape names len (_intermediate_paths st))
  ∧ (∀ names len, pair_shape names len (_intermediate_reactions_id st0) →
       pair_shape names len (_intermediate_reactions_id st))
  ∧ (∀ names len, pair_shape names len (_intermediate_metabolites_id st0) →
       pair_shape names len (_intermediate_metabolites_id st))
  ∧ (∀ names len, slot_shape names len (_intermediate_extracellular_paths st0) →
       slot_shape names len (_intermediate_extracellular_paths st))
  ∧ (∀ names len, slot_shape names len (_intermediate_extracellular_reactions_id st0) →
       slot_shape names len (_intermediate_extracellular_reactions_id st))
  ∧ (∀ names len, slot_shape names len (_intermediate_extracellular_metabolites_id st0) →
       slot_shape names len (_intermediate_extracellular_metabolites_id st)).

(** What the search between the subsystems [i] and [j] at depth [d] may
    change from [st0] to [st]: nothing of the setup and of the extracellular
    containers, no path-result set but the one of (i, j, d), and the
    reactions it records tag edges of the graph. *)
Definition subsystems_step (i j : string) (d : nat) (st0 st : RedGEM) : Prop :=
  setup st = setup st0
  ∧ shapes_kept st0 st
  ∧ _intermediate_extracellular_paths st = _intermediate_extracellular_paths st0
  ∧ _intermediate_extracellular_reactions_id st = _intermediate_extracellular_reactions_id st0
  ∧ _intermediate_extracellular_metabolites_id st = _intermediate_extracellular_metabolites_id st0
  ∧ (∀ i' j' k', ¬ (i' = i ∧ j' = j ∧ k' = d) →
       path_result st i' j' k' = path_result st0 i' j' k')
  ∧ (∀ i' j' k' r, r ∈ pair_slot (_intermediate_reactions_id st) i' j' k' →
       r ∈ pair_slot (_intermediate_reactions_id st0) i' j' k' ∨ is_tag (_graph st0) r).

(** The same for the extracellular search of the subsystem [i] at depth
    [k]. *)
Definition extracellular_step (i : string) (k : nat) (st0 st : RedGEM) : Prop :=
  setup st = setup st0
  ∧ shapes_kept st0 st
  ∧ _intermediate_paths st = _intermediate_paths st0
  ∧ _intermediate_reactions_id st = _intermediate_reactions_id st0
  ∧ _intermediate_metabolites_id st = _intermediate_metabolites_id st0
  ∧ (∀ i' k', ¬ (i' = i ∧ k' = k) →
       name_slot (_intermediate_extracellular_reactions_id st) i' k'
       = name_slot (_intermediate_extracellular_reactions_id st0) i' k')
  ∧ (∀ i' k' r, r ∈ name_slot (_intermediate_extracellular_reactions_id st) i' k' →
       r ∈ name_slot (_intermediate_extracellular_reactions_id st0) i' k'
       ∨ is_tag (_graph st0) r).

(** What the searches need of a state: containers of the shape that
    [__init__] gives, a graph, and the metabolites of every subsystem
    extracted and among the nodes of the graph. *)
Definition ready (st : RedGEM) : Prop :=
  let names := _subsystem_names st in
  let len := length (range (_d st + 1)) in
  pair_shape names len (_intermediate_paths st)
  ∧ pair_shape names len (_intermediate_reactions_id st)
  ∧ pair_shape names len (_intermediate_metabolites_id st)
  ∧ slot_shape names len (_intermediate_extracellular_paths st)
  ∧ slot_shape names len (_intermediate_extracellular_reactions_id st)
  ∧ slot_shape names len (_intermediate_extracellular_metabolites_id st)
  ∧ graph_closed (_graph st)
  ∧ ∀ name, name ∈ names →
      ∃ M : gset string, _subsystem_metabolites_id st !! name = Some M ∧ M ⊆ dom (_graph st).

(** The attributes that nothing changes once the graph is built. *)
Definition config (st : RedGEM) :=
  (_gem st, _redgem st, _graph st, _subsystem_names st, _core_subsystems st,
   _cofactor_pairs st, _small_metabolites st, _inorganics st,
   _d st, _extracellular_system st, _n st).

(** The (i, j, k) intermediate-reaction set and the (subsystem, k)
    extracellular intermediate-reaction set. *)
Definition intermediate_reactions (st : RedGEM) (i j : string) (k : nat) : gset string :=
  pair_slot (_intermediate_reactions_id st) i j k.

Definition extracellular_reactions (st : RedGEM) (i : string) (k : nat) : gset string :=
  name_slot (_intermediate_extracellular_reactions_id st) i k.

(** The reaction-identifier set of a subsystem. *)
Definition subsystem_reactions (st : RedGEM) (name : string) : gset string :=
  default ∅ (_subsystem_reactions_id st !! name).

(** All reaction identifiers of the original network. *)
Definition all_reactions (st : RedGEM) : gset string :=
  list_to_set (rxn_id <$> model_reactions (_gem st)).

(** The retained set of the subsystems that [subsystem_names] lists: the
    union of the stored reaction set of every listed subsystem, of every
    (i, j, k) intermediate-reaction set for all pairs of listed subsystems and
    all depths [0..d], and of every (subsystem, k) extracellular
    intermediate-reaction set for all listed subsystems and all depths
    [0..n]. *)
Definition retained_reactions (st : RedGEM) : gset string :=
  ⋃ (subsystem_reactions st <$> _subsystem_names st)
  ∪ ⋃ ((λ i, ⋃ ((λ j, ⋃ (intermediate_reactions st i j <$> range (_d st + 1)))
                  <$> _subsystem_names st))
         <$> _subsystem_names st)
  ∪ ⋃ ((λ i, ⋃ (extracellular_reactions st i <$> range (_n st + 1)))
         <$> _subsystem_names st).

(** The reaction set of a subsystem, in the words of the specification: the
    identifiers of the reactions of the original network that carry the tag
    of the subsystem. *)
Definition reactions_of (st : RedGEM) (name : string) : gset string :=
  list_to_set
    (rxn_id <$> filter (λ rxn, rxn_subsystem rxn = name) (model_reactions (_gem st))).

(** The retained set, in the words of the specification: the union of every
    core subsystem's reaction set, of every (i, j, k) intermediate-reaction
    set for all pairs of core subsystems and all depths [0..d], and of every
    (subsystem, k) extracellular intermediate-reaction set for all core
    subsystems and all depths [0..n]. *)
Definition core_retained_reactions (st : RedGEM) : gset string :=
  ⋃ (reactions_of st <$> _core_subsystems st)
  ∪ ⋃ ((λ i, ⋃ ((λ j, ⋃ (intermediate_reactions st i j <$> range (_d st + 1)))
                  <$> _core_subsystems st))
         <$> _core_subsystems st)
  ∪ ⋃ ((λ i, ⋃ (extracellular_reactions st i <$> range (_n st + 1)))
         <$> _core_subsystems st).

(** What the driver may change from [st0] to [st]: nothing of the
    configuration, not the shape of the containers; the reactions it records
    tag edges of the graph, and it records no extracellular reaction at a
    depth beyond [n]. *)
Definition driver_step (st0 st : RedGEM) : Prop :=
  config st = config st0
  ∧ shapes_kept st0 st
  ∧ (∀ i j k r, r ∈ intermediate_reactions st i j k →
       r ∈ intermediate_reactions st0 i j k ∨ is_tag (_graph st0) r)
  ∧ (∀ i k r, r ∈ extracellular_reactions st i k →
       r ∈ extracellular_reactions st0 i k ∨ is_tag (_graph st0) r)
  ∧ (∀ i k, length (range (_n st0 + 1)) ≤ k →
       extracellular_reactions st i k = extracellular_reactions st0 i k)
  ∧ (∀ name r, r ∈ subsystem_reactions st name →
       r ∈ subsystem_reactions st0 name ∨ r ∈ all_reactions st0).

(** The result containers, the distance matrix and the memo. *)
Definition containers (st : RedGEM) :=
  (_intermediate_paths st, _intermediate_reactions_id st, _intermediate_metabolites_id st,
   _intermediate_extracellular_paths st, _intermediate_extracellular_reactions_id st,
   _intermediate_extracellular_metabolites_id st, _min_distance_sub_to_sub st, _path_dict st).

(** The metabolite-identifier set of a subsystem. *)
Definition subsystem_metabolites (st : RedGEM) (name : string) : gset string :=
  default ∅ (_subsystem_metabolites_id st !! name).

(** The one-node paths [(m,)] of the metabolites [m] that two subsystems
    share. *)
Definition shared_paths (st : RedGEM) (i j : string) : gset path :=
  set_map (λ m, [m]) (subsystem_metabolites st i ∩ subsystem_metabolites st j).

(** The first loop of [run_between_all_subsystems]. *)
Definition extract_all_subsystems (st : RedGEM) : res RedGEM :=
  for_each (_subsystem_names st)
    (λ st subsystem,
       extract_subsystem_metabolites (extract_subsystem_reactions st subsystem) subsystem)
    st.

(** Its second loop. *)
Definition search_all_pairs (limit : nat) (st : RedGEM) : res RedGEM :=
  for_each (_subsystem_names st)
    (λ st subsystem_i,
       for_each (_subsystem_names st)
         (λ st subsystem_j,
            for_each (range (_d st + 1))
              (λ st k,
                 breadth_search_subsystems_paths_length_d limit st subsystem_i subsystem_j k)
              st)
         st)
    st.

(** Every extracellular metabolite is a node of the graph. *)
Definition extracellular_in_graph (st : RedGEM) : Prop :=
  ∀ e, e ∈ _extracellular_system st → e ∈ dom (_graph st).


(** * Properties *)

(** ** Loops *)

Lemma bind_Ok {A B} (x : res A) (f : A → res B) (b : B) :
  (x ≫= f) = Ok b ↔ ∃ a, x = Ok a ∧ f a = Ok b.
Proof.
  destruct x as [a|e]; simpl.
  - split; [by exists a | by intros (? & [= ->] & ?)].
  - split; [done | by intros (? & ? & ?)].
Qed.

Lemma fmap_Ok {A B} (x : res A) (f : A → B) (b : B) :
  (f <$> x) = Ok b ↔ ∃ a, x = Ok a ∧ b = f a.
Proof.
  destruct x as [a|e]; simpl.
  - split; [intros [= <-]; by exists a | by intros (? & [= ->] & ->)].
  - split; [done | by intros (? & ? & ?)].
Qed.

Lemma getitem_Ok `{Countable K} {V} (d : gmap K V) (k : K) (v : V) :
  getitem d k = Ok v ↔ d !! k = Some v.
Proof. unfold getitem. destruct (d !! k); naive_solver. Qed.

Lemma getitem_Some `{Countable K} {V} (d : gmap K V) (k : K) (v : V) :
  d !! k = Some v → getitem d k = Ok v.
Proof. apply getitem_Ok. Qed.

Lemma getindex_Some {A} (l : list A) (k : nat) (v : A) :
  l !! k = Some v → getindex l k = Ok v.
Proof. unfold getindex. by intros ->. Qed.

Lemma getindex_Ok {A} (l : list A) (k : nat) (v : A) :
  getindex l k = Ok v ↔ l !! k = Some v.
Proof. unfold getindex. destruct (l !! k); naive_solver. Qed.

Lemma for_each_app {A S} (l1 l2 : list A) (body : S → A → res S) (s : S) :
  for_each (l1 ++ l2) body s = for_each l1 body s ≫= for_each l2 body.
Proof.
  revert s. induction l1 as [|x l1 IH]; intros s; simpl; [done|].
  destruct (body s x); simpl; [apply IH | done].
Qed.

(** A property that every iteration preserves holds when the loop ends. *)
Lemma for_each_invariant {A S} (P : S → Prop) (l : list A) (body : S → A → res S) s s' :
  (∀ s x s', x ∈ l → P s → body s x = Ok s' → P s') →
  P s → for_each l body s = Ok s' → P s'.
Proof.
  revert s. induction l as [|x l IH]; intros s Hbody Hs; simpl.
  - by intros [= <-].
  - intros (s1 & H1 & H2)%bind_Ok. apply (IH s1); [| |done].
    + intros. eapply Hbody; [|done..]. by right.
    + eapply Hbody; [|done..]. by left.
Qed.

(** A loop whose iterations all end, under an invariant, ends. *)
Lemma for_each_total {A S} (P : S → Prop) (l : list A) (body : S → A → res S) s :
  (∀ s x, x ∈ l → P s → ∃ s', body s x = Ok s' ∧ P s') →
  P s → ∃ s', for_each l body s = Ok s' ∧ P s'.
Proof.
  revert s. induction l as [|x l IH]; intros s Hbody Hs; simpl.
  - by exists s.
  - destruct (Hbody s x) as (s1 & -> & Hs1); [by left | done |]. simpl.
    apply IH; [|done]. intros. apply Hbody; [by right | done].
Qed.

(** A loop in which the iteration for [x] establishes [Q x], when every
    iteration moves the state along a preorder [R] that keeps what was
    established: the loop ends and [Q x] holds at the end for every [x]. *)
Lemma for_each_establish {A S} (I : S → Prop) (R : S → S → Prop) (Q : A → S → Prop)
    (l : list A) (body : S → A → res S) s :
  (∀ s, R s s) → (∀ s1 s2 s3, R s1 s2 → R s2 s3 → R s1 s3) →
  (∀ x s s', R s s' → Q x s → Q x s') →
  (∀ s x, x ∈ l → I s → ∃ s', body s x = Ok s' ∧ I s' ∧ R s s' ∧ Q x s') →
  I s → ∃ s', for_each l body s = Ok s' ∧ I s' ∧ R s s' ∧ ∀ x, x ∈ l → Q x s'.
Proof.
  intros Hrefl Htrans Hstable.
  revert s. induction l as [|x l IH]; intros s Hbody Hs; simpl.
  - exists s. split_and!; [done..|]. by intros x ?%elem_of_nil.
  - destruct (Hbody s x) as (s1 & -> & Hs1 & HR1 & HQ1); [by left | done |]. simpl.
    destruct (IH s1) as (s' & Hrun & Hs' & HR' & HQ'); [|done|].
    { intros. apply Hbody; [by right | done]. }
    exists s'. split_and!; [done..|by eapply Htrans|].
    intros y [->|Hy]%elem_of_cons; [by eapply Hstable | by apply HQ'].
Qed.

(** A loop with an invariant on the elements processed so far. *)
Lemma for_each_prefix {A S} (P : list A → S → Prop) (l : list A) (body : S → A → res S) s :
  P [] s →
  (∀ done x s, (∃ rest, l = done ++ x :: rest) → P done s →
     ∃ s', body s x = Ok s' ∧ P (done ++ [x]) s') →
  ∃ s', for_each l body s = Ok s' ∧ P l s'.
Proof.
  intros Hs Hbody.
  cut (∀ rest done s, l = done ++ rest → P done s →
         ∃ s', for_each rest body s = Ok s' ∧ P l s').
  { intros Hcut. by apply (Hcut l []). }
  induction rest as [|x rest IH]; intros done s0 Hl Hdone; simpl.
  - exists s0. split; [done|]. by rewrite Hl, app_nil_r.
  - destruct (Hbody done x s0) as (s1 & -> & Hs1); [by exists rest | done |]. simpl.
    apply (IH (done ++ [x])); [|done]. by rewrite <- app_assoc.
Qed.

(** A loop whose iterations end, under an invariant, or raise [e]: the loop
    ends or raises [e]; it raises [e] if one iteration always does, and ends
    if none does. *)
Lemma for_each_raise {A S} (I : S → Prop) (e : exn) (l : list A) (body : S → A → res S) s :
  (∀ s x, x ∈ l → I s → (∃ s', body s x = Ok s' ∧ I s') ∨ body s x = Raise e) →
  I s →
  ((∃ s', for_each l body s = Ok s' ∧ I s') ∨ for_each l body s = Raise e)
  ∧ ((∃ x, x ∈ l ∧ ∀ s, I s → body s x = Raise e) → for_each l body s = Raise e)
  ∧ ((∀ x s, x ∈ l → I s → body s x ≠ Raise e) → ∃ s', for_each l body s = Ok s' ∧ I s').
Proof.
  revert s. induction l as [|x l IH]; intros s Hbody Hs; simpl.
  - split_and!; [left; by exists s| |by exists s]. by intros (x & ?%elem_of_nil & _).
  - destruct (Hbody s x) as [(s1 & Hrun & Hs1)|Hrun]; [by left|done| |];
      rewrite Hrun; simpl.
    + destruct (IH s1) as (IH1 & IH2 & IH3); [|done|].
      { intros. apply Hbody; [by right|done]. }
      split_and!; [done| |].
      * intros (y & [->|Hy]%elem_of_cons & Hraise).
        -- rewrite (Hraise s Hs) in Hrun. done.
        -- apply IH2. by exists y.
      * intros Hnone. apply IH3. intros y s' Hy. apply Hnone. by right.
    + split_and!; [by right|done|].
      intros Hnone. destruct (Hnone x s); [by left|done|done].
Qed.

(** ** The admission predicate (C2) *)

Lemma in_subsystem_Ok st node subsystem (M : gset string) :
  _subsystem_metabolites_id st !! subsystem = Some M →
  in_subsystem st node subsystem = Ok (bool_decide (node ∈ M)).
Proof. intros HM. unfold in_subsystem, getitem. by rewrite HM. Qed.

(** C2: with the metabolite-id sets [Mi] of subsystem i and [Mj] of
    subsystem j, the candidate is admitted if and only if it is not explored,
    not (i ≠ j and it is in [Mi]), not (s < D - 1 and it is in [Mj]) and not
    (s = D - 1 and it is not in [Mj]); the call does not raise. *)
Theorem is_node_allowed_spec st node (s : Z) explored subsystem_i subsystem_j (D : Z)
    (Mi Mj : gset string) :
  _subsystem_metabolites_id st !! subsystem_i = Some Mi →
  _subsystem_metabolites_id st !! subsystem_j = Some Mj →
  ∃ admitted : bool,
    is_node_allowed st node s explored subsystem_i subsystem_j D = Ok admitted ∧
    (admitted = true ↔
       (node ∉ explored)
       ∧ ¬ (subsystem_i ≠ subsystem_j ∧ node ∈ Mi)
       ∧ ¬ ((s < D - 1)%Z ∧ node ∈ Mj)
       ∧ ¬ (s = (D - 1)%Z ∧ node ∉ Mj)).
Proof.
  intros Hi Hj. unfold is_node_allowed.
  rewrite (in_subsystem_Ok _ _ _ _ Hi), (in_subsystem_Ok _ _ _ _ Hj).
  destruct (decide (node ∈ explored)) as [He|He].
  { rewrite bool_decide_eq_true_2 by done. eexists; split; [done|]. naive_solver. }
  rewrite (bool_decide_eq_false_2 _ He).
  destruct (decide (subsystem_i ≠ subsystem_j)) as [Hij|Hij];
    [rewrite (bool_decide_eq_true_2 _ Hij)|rewrite (bool_decide_eq_false_2 _ Hij)]; simpl.
  all: destruct (decide (s < D - 1)%Z) as [Hlt|Hlt];
    [rewrite (bool_decide_eq_true_2 _ Hlt)|rewrite (bool_decide_eq_false_2 _ Hlt)]; simpl.
  all: destruct (decide (s = D - 1)%Z) as [Heq|Heq];
    [rewrite (bool_decide_eq_true_2 _ Heq)|rewrite (bool_decide_eq_false_2 _ Heq)]; simpl.
  all: try lia.
  all: repeat (case_bool_decide; simpl).
  all: eexists; (split; [reflexivity|]); naive_solver.
Qed.

Lemma is_node_allowed_spec_witness :
  _subsystem_metabolites_id (Demo.extracted 1 0) !! "X" = Some {[ "A"; "B" ]}
  ∧ _subsystem_metabolites_id (Demo.extracted 1 0) !! "Y" = Some {[ "C"; "D" ]}
  ∧ ∃ admitted : bool,
      is_node_allowed (Demo.extracted 1 0) "C" 0 {[ "B" ]} "X" "Y" 1 = Ok admitted ∧
      (admitted = true ↔
         ("C" ∉ ({[ "B" ]} : gset string))
         ∧ ¬ ("X" ≠ "Y" ∧ "C" ∈ ({[ "A"; "B" ]} : gset string))
         ∧ ¬ ((0 < 1 - 1)%Z ∧ "C" ∈ ({[ "C"; "D" ]} : gset string))
         ∧ ¬ (0%Z = (1 - 1)%Z ∧ "C" ∉ ({[ "C"; "D" ]} : gset string))).
Proof.
  split; [vm_compute; reflexivity|]. split; [vm_compute; reflexivity|].
  apply (is_node_allowed_spec (Demo.extracted 1 0) "C" 0 {[ "B" ]} "X" "Y" 1
           {[ "A"; "B" ]} {[ "C"; "D" ]}); vm_compute; reflexivity.
Defined.

(** ** The graph builder (C6) *)

Lemma graph_rxn_id_edge_tag g u v :
  graph_rxn_id g u v = match edge_tag g u v with Some t => Ok t | None => Raise KeyError end.
Proof.
  unfold graph_rxn_id, edge_tag, getitem.
  destruct (g !! u) as [a|]; simpl; [|done]. by destruct (a !! v).
Qed.

Lemma dom_add_node g u : dom (add_node g u) = {[u]} ∪ dom g.
Proof.
  unfold add_node. destruct (g !! u) eqn:Hu.
  - apply elem_of_dom_2 in Hu. set_solver.
  - by rewrite dom_insert_L.
Qed.

Lemma edge_tag_add_node g u a b : edge_tag (add_node g u) a b = edge_tag g a b.
Proof.
  unfold add_node, edge_tag. destruct (g !! u) eqn:Hu; [done|].
  destruct (decide (u = a)) as [->|Hne].
  - by rewrite lookup_insert_eq, Hu.
  - by rewrite lookup_insert_ne.
Qed.

Lemma dom_add_edge g u v t : dom (add_edge g u v t) = {[u; v]} ∪ dom g.
Proof. unfold add_edge. rewrite dom_insert_L, !dom_add_node. set_solver. Qed.

Lemma edge_tag_add_edge g u v t a b :
  edge_tag (add_edge g u v t) a b =
    if decide (a = u ∧ b = v) then Some t else edge_tag g a b.
Proof.
  unfold add_edge.
  set (g' := add_node (add_node g u) v).
  assert (Hg' : ∀ x y, edge_tag g' x y = edge_tag g x y).
  { intros. unfold g'. by rewrite !edge_tag_add_node. }
  unfold edge_tag at 1.
  destruct (decide (a = u)) as [->|Hau].
  - rewrite lookup_insert_eq. simpl.
    destruct (decide (b = v)) as [->|Hbv].
    + rewrite lookup_insert_eq. by rewrite decide_True.
    + rewrite lookup_insert_ne by done. rewrite decide_False by naive_solver.
      rewrite <- Hg'. unfold edge_tag. by destruct (g' !! u).
  - rewrite lookup_insert_ne by done. rewrite decide_False by naive_solver.
    apply Hg'.
Qed.

Lemma dom_foldl_add_edge g u t (vs : list string) :
  dom g ⊆ dom (foldl (λ g v, add_edge g u v t) g vs).
Proof.
  revert g. induction vs as [|v vs IH]; intros g; simpl; [done|].
  etrans; [|apply IH]. rewrite dom_add_edge. set_solver.
Qed.

Lemma edge_tag_foldl_add_edge g u t (vs : list string) a b :
  edge_tag (foldl (λ g v, add_edge g u v t) g vs) a b =
    if decide (a = u ∧ b ∈ vs) then Some t else edge_tag g a b.
Proof.
  revert g. induction vs as [|v vs IH]; intros g; simpl.
  - rewrite decide_False; [done|]. intros [_ ?%elem_of_nil]. done.
  - rewrite IH, edge_tag_add_edge.
    repeat case_decide; try done; set_solver.
Qed.

Lemma dom_add_rxn_edges g r : dom g ⊆ dom (add_rxn_edges g r).
Proof.
  unfold add_rxn_edges. generalize (reactants r) as us.
  intros us. revert g. induction us as [|u us IH]; intros g; simpl; [done|].
  etrans; [|apply IH]. apply dom_foldl_add_edge.
Qed.

Lemma edge_tag_add_rxn_edges g r a b :
  edge_tag (add_rxn_edges g r) a b =
    if decide (induces r a b) then Some (rxn_id r) else edge_tag g a b.
Proof.
  unfold add_rxn_edges, induces. generalize (reactants r) as us.
  intros us. revert g. induction us as [|u us IH]; intros g; simpl.
  - done.
  - rewrite IH, edge_tag_foldl_add_edge.
    repeat case_decide; try done; set_solver.
Qed.

Lemma dom_foldl_add_rxn_edges g rs : dom g ⊆ dom (foldl add_rxn_edges g rs).
Proof.
  revert g. induction rs as [|r rs IH]; intros g; simpl; [done|].
  etrans; [|apply IH]. apply dom_add_rxn_edges.
Qed.

Lemma dom_foldl_add_node g (ms : list string) :
  dom (foldl add_node g ms) = list_to_set ms ∪ dom g.
Proof.
  revert g. induction ms as [|m ms IH]; intros g; simpl; [set_solver|].
  rewrite IH, dom_add_node. set_solver.
Qed.

(** The tag of an edge after the reactions [rs] were processed in order is
    the identifier of the last reaction of [rs] that induces the edge. *)
Lemma edge_tag_last_writer g rs k r a b :
  rs !! k = Some r → induces r a b →
  ∃ k' r', k ≤ k' ∧ rs !! k' = Some r' ∧ induces r' a b
    ∧ edge_tag (foldl add_rxn_edges g rs) a b = Some (rxn_id r')
    ∧ ∀ k'' r'', k' < k'' → rs !! k'' = Some r'' → ¬ induces r'' a b.
Proof.
  revert k r. induction rs as [|r0 rs IH] using rev_ind; intros k r Hk Hr; [done|].
  rewrite foldl_app. simpl. rewrite edge_tag_add_rxn_edges.
  destruct (decide (induces r0 a b)) as [H0|H0].
  - exists (length rs), r0. split_and!; [| |done|done|].
    + apply lookup_lt_Some in Hk. rewrite length_app in Hk. simpl in Hk. lia.
    + by rewrite lookup_app_r, Nat.sub_diag by lia.
    + intros k'' r'' Hlt Hk''. apply lookup_lt_Some in Hk''.
      rewrite length_app in Hk''. simpl in Hk''. lia.
  - assert (Hk' : rs !! k = Some r).
    { destruct (decide (k < length rs)) as [Hlt|Hge].
      - by rewrite lookup_app_l in Hk.
      - rewrite lookup_app_r in Hk by lia.
        destruct (k - length rs) eqn:E; simpl in Hk; [|done].
        injection Hk as ->. done. }
    destruct (IH k r Hk' Hr) as (k' & r' & Hle & Hk'r & Hind & Htag & Hlast).
    exists k', r'. split_and!; [done| |done|done|].
    + apply lookup_app_l_Some. done.
    + intros k'' r'' Hlt Hk''.
      destruct (decide (k'' < length rs)) as [Hlt'|Hge].
      * rewrite lookup_app_l in Hk'' by done. by eapply Hlast.
      * rewrite lookup_app_r in Hk'' by lia.
        destruct (k'' - length rs) eqn:E; simpl in Hk''; [|done].
        injection Hk'' as <-. done.
Qed.

(** C6: the built graph has every retained metabolite of every reaction
    as a node, whether an edge touches it or not.  And for [r] the [k]-th
    reaction of the network, [a] one of its retained reactants and [b] one of
    its retained products, the graph has the edge from [a] to [b]; its tag is
    the identifier of the last reaction in processing order that induces this
    edge, hence the identifier of [r] unless a reaction processed after [r]
    induces the edge too. *)
Theorem create_new_stoichiometric_matrix_graph st :
  (∀ r m, r ∈ model_reactions (_gem st) → m ∈ (retained st r).*1 →
     m ∈ dom (_graph (create_new_stoichiometric_matrix st)))
  ∧ (∀ k r a b,
       model_reactions (_gem st) !! k = Some r →
       a ∈ reactants (new_rxn st r) →
       b ∈ products (new_rxn st r) →
       (∃ k' r',
          k ≤ k' ∧ model_reactions (_gem st) !! k' = Some r'
          ∧ induces (new_rxn st r') a b
          ∧ graph_rxn_id (_graph (create_new_stoichiometric_matrix st)) a b = Ok (rxn_id r')
          ∧ ∀ k'' r'', k' < k'' → model_reactions (_gem st) !! k'' = Some r'' →
              ¬ induces (new_rxn st r'') a b)
       ∧ ((∀ k'' r'', k < k'' → model_reactions (_gem st) !! k'' = Some r'' →
             ¬ induces (new_rxn st r'') a b) →
          graph_rxn_id (_graph (create_new_stoichiometric_matrix st)) a b = Ok (rxn_id r))).
Proof.
  set (G := _graph (create_new_stoichiometric_matrix st)).
  assert (HG : G = foldl add_rxn_edges
                     (foldl add_node (_graph st) (elements (kept_metabolites st)))
                     (kept_rxns st)) by done.
  split.
  { intros r' m Hr' Hm. rewrite HG.
    apply dom_foldl_add_rxn_edges. rewrite dom_foldl_add_node.
    apply elem_of_union_l. rewrite list_to_set_elements_L.
    unfold kept_metabolites. rewrite elem_of_list_to_set.
    apply list_elem_of_bind. by exists r'. }
  intros k r a b Hk Ha Hb.
  assert (Hk' : kept_rxns st !! k = Some (new_rxn st r)).
  { unfold kept_rxns. by rewrite list_lookup_fmap, Hk. }
  destruct (edge_tag_last_writer
              (foldl add_node (_graph st) (elements (kept_metabolites st)))
              (kept_rxns st) k (new_rxn st r) a b Hk' (conj Ha Hb))
    as (k' & r' & Hle & Hr' & Hind & Htag & Hlast).
  rewrite <- HG in Htag.
  unfold kept_rxns in Hr'. rewrite list_lookup_fmap in Hr'.
  destruct (model_reactions (_gem st) !! k') as [r0|] eqn:Hr0; [|done].
  injection Hr' as <-.
  assert (Hlast' : ∀ k'' r'', k' < k'' → model_reactions (_gem st) !! k'' = Some r'' →
                     ¬ induces (new_rxn st r'') a b).
  { intros k'' r'' Hlt Hk''. apply (Hlast k'' (new_rxn st r'') Hlt).
    unfold kept_rxns. by rewrite list_lookup_fmap, Hk''. }
  split.
  - exists k', r0. split_and!; try done.
    by rewrite graph_rxn_id_edge_tag, Htag.
  - intros Hnone. rewrite graph_rxn_id_edge_tag, Htag. f_equal.
    destruct (decide (k = k')) as [<-|Hne]; [simpl; congruence|].
    exfalso. apply (Hnone k' r0); [lia|done|done].
Qed.

(** On the network of [Demo.lone] the metabolite L is a node that no edge
    touches, and the edge from A to B carries the identifier of r1. *)
Lemma create_new_stoichiometric_matrix_graph_witness :
  Demo.rL ∈ model_reactions (_gem Demo.lone)
  ∧ "L" ∈ (retained Demo.lone Demo.rL).*1
  ∧ model_reactions (_gem Demo.lone) !! 0 = Some Demo.r1
  ∧ "A" ∈ reactants (new_rxn Demo.lone Demo.r1)
  ∧ "B" ∈ products (new_rxn Demo.lone Demo.r1)
  ∧ "L" ∈ dom (_graph (create_new_stoichiometric_matrix Demo.lone))
  ∧ graph_rxn_id (_graph (create_new_stoichiometric_matrix Demo.lone)) "A" "B" = Ok "r1"
  ∧ _graph (create_new_stoichiometric_matrix Demo.lone)
    = {[ "A" := {[ "B" := "r1" ]}; "B" := ∅; "L" := ∅ ]}.
Proof.
  assert (HL : Demo.rL ∈ model_reactions (_gem Demo.lone)) by (right; left).
  assert (Hm : "L" ∈ (retained Demo.lone Demo.rL).*1) by (vm_compute; left).
  assert (H0 : model_reactions (_gem Demo.lone) !! 0 = Some Demo.r1) by reflexivity.
  assert (Ha : "A" ∈ reactants (new_rxn Demo.lone Demo.r1)) by (vm_compute; left).
  assert (Hb : "B" ∈ products (new_rxn Demo.lone Demo.r1)) by (vm_compute; left).
  destruct (create_new_stoichiometric_matrix_graph Demo.lone) as [Hnodes Hedges].
  destruct (Hedges 0 Demo.r1 "A" "B" H0 Ha Hb) as [_ Hr].
  split; [exact HL|]. split; [exact Hm|]. split; [exact H0|]. split; [exact Ha|].
  split; [exact Hb|]. split; [exact (Hnodes Demo.rL "L" HL Hm)|].
  split; [|vm_compute; reflexivity].
  apply Hr. intros k'' r'' Hlt Hk'' [Hx _].
  destruct k'' as [|[|k'']]; [lia|..]; simplify_eq/=.
  revert Hx; apply (bool_decide_unpack _); vm_compute; exact I.
Defined.

(** ** The minimal distances (C8) *)

Lemma elem_of_range k (z : Z) : k ∈ range z ↔ (Z.of_nat k < z)%Z.
Proof. unfold range. rewrite elem_of_seq. lia. Qed.

Lemma path_result_lookup st i j k ci cij s :
  _intermediate_paths st !! i = Some ci → ci !! j = Some cij → cij !! k = Some s →
  path_result st i j k = s.
Proof.
  intros Hi Hj Hk. unfold path_result, pair_slot.
  rewrite Hi. simpl. rewrite Hj. simpl. by rewrite Hk.
Qed.

(** The scan of [k = a, a + 1, ...] stops at the first non-empty set. *)
Lemma first_non_empty_spec st i j (a n : nat) :
  pair_shape (_subsystem_names st) (length (range (_d st + 1))) (_intermediate_paths st) →
  i ∈ _subsystem_names st → j ∈ _subsystem_names st →
  a + n ≤ length (range (_d st + 1)) →
  (∃ k, first_non_empty st i j (seq a n) = Ok (Some k)
        ∧ a ≤ k < a + n ∧ path_result st i j k ≠ ∅
        ∧ ∀ k', a ≤ k' < k → path_result st i j k' = ∅)
  ∨ (first_non_empty st i j (seq a n) = Ok None
     ∧ ∀ k', a ≤ k' < a + n → path_result st i j k' = ∅).
Proof.
  intros Hshape Hi Hj. revert a. induction n as [|n IH]; intros a Hle; simpl.
  - right. split; [done|]. lia.
  - destruct (Hshape i j Hi Hj) as (ci & cij & Hci & Hcij & Hlen).
    unfold getitem. rewrite Hci. simpl. rewrite Hcij. simpl.
    destruct (lookup_lt_is_Some_2 cij a) as [s Hs].
    { rewrite Hlen. lia. }
    unfold getindex. rewrite Hs. simpl.
    pose proof (path_result_lookup st i j a ci cij s Hci Hcij Hs) as Hpr.
    destruct (decide (s ≠ ∅)) as [Hne|He].
    + left. exists a. split_and!; [done|lia|lia|congruence|lia].
    + apply dec_stable in He.
      destruct (IH (S a)) as [(k & Hk & Hrange & Hnonempty & Hbefore)|[Hnone Hall]]; [lia|..].
      * left. exists k. split_and!; [done|lia|lia|done|].
        intros k' Hk'. destruct (decide (k' = a)) as [->|]; [congruence|]. apply Hbefore. lia.
      * right. split; [done|].
        intros k' Hk'. destruct (decide (k' = a)) as [->|]; [congruence|]. apply Hall. lia.
Qed.

Lemma is_min_depth_unique st i j k1 k2 :
  is_min_depth st i j k1 → is_min_depth st i j k2 → k1 = k2.
Proof.
  intros (_ & Hne1 & Hb1) (_ & Hne2 & Hb2).
  destruct (lt_eq_lt_dec k1 k2) as [[Hlt| ->]|Hlt]; [|done|].
  - by apply Hb2 in Hlt.
  - by apply Hb1 in Hlt.
Qed.

Lemma min_distance_insert m i j mi (v : Z) i' j' :
  m !! i = Some mi →
  min_distance (<[i := <[j := v]> mi]> m) i' j' =
    if decide (i' = i ∧ j' = j) then Some v else min_distance m i' j'.
Proof.
  intros Hmi. unfold min_distance.
  destruct (decide (i' = i)) as [->|Hi].
  - rewrite lookup_insert_eq, Hmi. simpl.
    destruct (decide (j' = j)) as [->|Hj].
    + by rewrite lookup_insert_eq, decide_True.
    + rewrite lookup_insert_ne by done. rewrite decide_False by naive_solver. done.
  - rewrite lookup_insert_ne by done. rewrite decide_False by naive_solver. done.
Qed.

Section min_distance.
Variable st : RedGEM.
Hypothesis paths_shape :
  pair_shape (_subsystem_names st) (length (range (_d st + 1))) (_intermediate_paths st).
Hypothesis distances_shape :
  matrix_shape (_subsystem_names st) (_min_distance_sub_to_sub st).

(** What the scan leaves in the entry of the pair [(i, j)]. *)
Let settled (i j : string) (s : RedGEM) : Prop :=
  (∀ k, is_min_depth st i j k →
     min_distance (_min_distance_sub_to_sub s) i j = Some (Z.of_nat k))
  ∧ (no_depth st i j →
     min_distance (_min_distance_sub_to_sub s) i j
     = min_distance (_min_distance_sub_to_sub st) i j).

(** What every iteration keeps: the scan reads the same containers, and
    the entry of a pair without paths is the one before the call. *)
Let unchanged (s : RedGEM) : Prop :=
  _intermediate_paths s = _intermediate_paths st
  ∧ _subsystem_names s = _subsystem_names st
  ∧ _d s = _d st
  ∧ matrix_shape (_subsystem_names st) (_min_distance_sub_to_sub s)
  ∧ ∀ i j, no_depth st i j →
      min_distance (_min_distance_sub_to_sub s) i j
      = min_distance (_min_distance_sub_to_sub st) i j.

Let keeps (s s' : RedGEM) : Prop := ∀ i j, settled i j s → settled i j s'.

Local Lemma scan_pair s i j :
  i ∈ _subsystem_names st → j ∈ _subsystem_names st → unchanged s →
  ∃ s',
    (found ← first_non_empty s i j (range (_d s + 1));
     s1 ← match found with
          | Some k =>
            mi ← getitem (_min_distance_sub_to_sub s) i;
            Ok (set_min_distance_sub_to_sub s
                  (<[i := <[j := Z.of_nat k]> mi]> (_min_distance_sub_to_sub s)))
          | None => Ok s
          end;
     mi ← getitem (_min_distance_sub_to_sub s1) i;
     _ ← getitem mi j;
     Ok s1) = Ok s'
    ∧ unchanged s' ∧ keeps s s' ∧ settled i j s'.
Proof.
  intros Hi Hj (Hpaths & Hnames & Hd & Hshape & Hnone).
  assert (Hpr : ∀ k, path_result s i j k = path_result st i j k).
  { intros k. unfold path_result. by rewrite Hpaths. }
  destruct (Hshape i j Hi Hj) as [v Hv].
  unfold min_distance in Hv.
  destruct (_min_distance_sub_to_sub s !! i) as [mi|] eqn:Hmi; [|done]. simpl in Hv.
  destruct (first_non_empty_spec s i j 0 (Z.to_nat (_d s + 1)))
    as [(k & Hk & Hrange & Hnonempty & Hbefore)|[Hk Hall]].
  { by rewrite Hpaths, Hnames, Hd. } { by rewrite Hnames. } { by rewrite Hnames. }
  { unfold range. rewrite length_seq. lia. }
  - unfold range. rewrite Hk. simpl. rewrite (getitem_Some _ _ _ Hmi). simpl.
    unfold getitem. rewrite lookup_insert_eq. simpl. rewrite lookup_insert_eq. simpl.
    eexists. split; [done|].
    assert (Hmin : is_min_depth st i j k).
    { split_and!; [lia|by rewrite <- Hpr|]. intros k' Hk'. rewrite <- Hpr. apply Hbefore. lia. }
    assert (Hdepth : ¬ no_depth st i j).
    { intros Hno. destruct Hmin as (Hle & Hne & _). by apply Hne, Hno. }
    split_and!.
    + unfold unchanged. simpl. split_and!; [done..| |].
      * intros i' j' Hi' Hj'. rewrite min_distance_insert by done.
        case_decide; [done|]. by apply Hshape.
      * intros i' j' Hno. rewrite min_distance_insert by done.
        case_decide as Hij; [|by apply Hnone]. destruct Hij as [-> ->]. done.
    + intros i' j' [Hs1 Hs2]. unfold settled. simpl.
      rewrite min_distance_insert by done.
      case_decide as Hij; [|done]. destruct Hij as [-> ->].
      split; [|done]. intros k' Hk'. by rewrite (is_min_depth_unique _ _ _ _ _ Hk' Hmin).
    + unfold settled. simpl. rewrite min_distance_insert by done.
      rewrite decide_True by done.
      split; [|done]. intros k' Hk'. by rewrite (is_min_depth_unique _ _ _ _ _ Hk' Hmin).
  - unfold range. rewrite Hk. simpl. unfold getitem. rewrite Hmi. simpl. rewrite Hv. simpl.
    exists s. split_and!; [done|done|by intros ?? ?|].
    assert (Hno : no_depth st i j).
    { intros k Hle. rewrite <- Hpr. apply Hall. lia. }
    split; [|by intros; apply Hnone].
    intros k (Hle & Hne & _). by specialize (Hno k Hle).
Qed.

(** C8: the call returns the matrix; for every ordered pair of subsystems,
    the entry is the smallest [k] in [0, d] whose (i, j, k) path-result set
    is not empty, and when there is no such [k] the entry is the one the
    matrix had before the call (the sentinel of the initialization). *)
Theorem find_min_distance_between_subsystems_spec :
  ∃ m st',
    find_min_distance_between_subsystems st = Ok (m, st')
    ∧ ∀ i j, i ∈ _subsystem_names st → j ∈ _subsystem_names st →
        (∀ k, is_min_depth st i j k → min_distance m i j = Some (Z.of_nat k))
        ∧ (no_depth st i j →
           min_distance m i j = min_distance (_min_distance_sub_to_sub st) i j).
Proof.
  unfold find_min_distance_between_subsystems.
  destruct (for_each_establish unchanged keeps
              (λ i s, ∀ j, j ∈ _subsystem_names st → settled i j s)
              (_subsystem_names st)
              (λ s i, for_each (_subsystem_names s)
                 (λ s j,
                    found ← first_non_empty s i j (range (_d s + 1));
                    s1 ← match found with
                         | Some k =>
                           mi ← getitem (_min_distance_sub_to_sub s) i;
                           Ok (set_min_distance_sub_to_sub s
                                 (<[i := <[j := Z.of_nat k]> mi]> (_min_distance_sub_to_sub s)))
                         | None => Ok s
                         end;
                    mi ← getitem (_min_distance_sub_to_sub s1) i;
                    _ ← getitem mi j;
                    Ok s1) s) st)
    as (st' & Hrun & _ & _ & Hall).
  - by intros s i j.
  - intros s1 s2 s3 H12 H23 i j H. by apply H23, H12.
  - intros i s s' Hk Hs j Hj. by apply Hk, Hs.
  - intros s i Hi Hs.
    assert (Hnames : _subsystem_names s = _subsystem_names st) by apply Hs.
    rewrite Hnames.
    apply (for_each_establish unchanged keeps (λ j s, settled i j s)); [| | | |done].
    + by intros s0 i0 j0.
    + intros s1 s2 s3 H12 H23 i0 j0 H. by apply H23, H12.
    + intros j s0 s' Hk. apply Hk.
    + intros s0 j Hj Hs0. by apply scan_pair.
  - unfold unchanged. split_and!; [done..|]. done.
  - rewrite Hrun. simpl. eexists _, _. split; [done|].
    intros i j Hi Hj. by apply Hall.
Qed.
End min_distance.

(** ** The path enumerator (C1) *)

Lemma retrieve_all_paths_init limit path_dict dest_node src_node ancestors :
  retrieve_all_paths limit path_dict dest_node src_node ancestors true
  = retrieve_all_paths limit ∅ dest_node src_node ancestors false.
Proof. by destruct limit. Qed.

Lemma consistent_path_source ancestors s p :
  consistent_path ancestors s s p ↔ p = [s].
Proof.
  split; [|intros ->; constructor].
  inversion 1; [done|]. congruence.
Qed.

Lemma consistent_path_step ancestors s t l p :
  t ≠ s → ancestors !! t = Some l →
  consistent_path ancestors s t p ↔
    ∃ a q, a ∈ l ∧ consistent_path ancestors s a q ∧ p = q ++ [t].
Proof.
  intros Hts Hl. split.
  - inversion 1 as [|t' l' a q _ Hl' Ha Hq]; [congruence|]. subst.
    exists a, q. split_and!; [|done..]. congruence.
  - intros (a & q & Ha & Hq & ->). by econstructor.
Qed.

Section enumerator.
Variable ancestors : ancestors_map.
Variable s : string.
Variable level : string → nat.
Hypothesis ancestors_ranked : ranked ancestors s level.

(** With a limit above the level of the destination, the enumerator returns
    the consistent paths to it; the memo stays right and only grows. *)
Lemma retrieve_all_paths_memo limit t path_dict :
  level t < limit → t = s ∨ t ∈ dom ancestors → memo_ok ancestors s path_dict →
  ∃ ps path_dict',
    retrieve_all_paths limit path_dict t s ancestors false = Ok (ps, path_dict')
    ∧ memo_ok ancestors s path_dict'
    ∧ path_dict' !! t = Some ps
    ∧ dom path_dict ⊆ dom path_dict'.
Proof.
  revert t path_dict. induction limit as [|limit IH]; intros t pd Hlt Ht Hpd; [lia|].
  simpl. destruct (decide (t = s)) as [->|Hts].
  - rewrite lookup_insert_eq. simpl. rewrite (getitem_Some _ _ _ (lookup_insert_eq _ _ _)). simpl.
    eexists _, _. split_and!; [done| |apply lookup_insert_eq|set_solver].
    intros t ps. destruct (decide (t = s)) as [->|Hne].
    + rewrite lookup_insert_eq. intros [= <-] p.
      rewrite consistent_path_source. apply list_elem_of_singleton.
    + rewrite lookup_insert_ne by done. apply Hpd.
  - destruct (pd !! t) as [ps|] eqn:Hmemo; simpl.
    { rewrite (getitem_Some _ _ _ Hmemo). simpl. by eexists _, _. }
    destruct Ht as [->|[l Hl]%elem_of_dom]; [done|].
    rewrite (getitem_Some _ _ _ Hl). simpl.
    destruct (for_each_prefix
                (λ done '(new_paths, pd'),
                   memo_ok ancestors s pd' ∧ dom pd ⊆ dom pd'
                   ∧ ∀ p, p ∈ new_paths ↔
                       ∃ a q, a ∈ done ∧ consistent_path ancestors s a q ∧ p = q ++ [t])
                l
                (λ '(new_paths, path_dict) previous_node,
                   '(paths, path_dict) ←
                     retrieve_all_paths limit path_dict previous_node s ancestors false;
                   Ok (new_paths ++ ((λ p, p ++ [t]) <$> paths), path_dict))
                ([], pd))
      as ([new_paths pd'] & -> & Hpd' & Hdom & Hnew).
    + split_and!; [done..|]. intros p. split; [by intros ?%elem_of_nil|].
      by intros (? & ? & ?%elem_of_nil & _).
    + intros done a [np pd1] [rest Hrest] (Hpd1 & Hdom1 & Hnp).
      assert (Ha : a ∈ l) by (rewrite Hrest; set_solver).
      destruct (ancestors_ranked t l a Hl Ha) as [Hlevel Hreach].
      destruct (IH a pd1) as (ps & pd2 & -> & Hpd2 & Hps & Hdom2); [lia|done|done|].
      simpl. eexists (_, _). split; [done|]. split_and!; [done|set_solver|].
      intros p. rewrite elem_of_app, Hnp, list_elem_of_fmap. split.
      * intros [(a' & q & Ha' & Hq & ->)|(q & -> & Hq)].
        -- exists a', q. split_and!; [set_solver|done..].
        -- exists a, q. split_and!; [set_solver| |done]. by apply (Hpd2 a ps).
      * intros (a' & q & [Ha'|Ha']%elem_of_app & Hq & ->).
        -- left. by exists a', q.
        -- right. apply list_elem_of_singleton in Ha' as ->. exists q. split; [done|].
           by apply (Hpd2 a ps).
    + simpl. rewrite (getitem_Some _ _ _ (lookup_insert_eq _ _ _)). simpl.
      eexists _, _. split_and!; [done| |apply lookup_insert_eq|set_solver].
      intros t' ps'. destruct (decide (t' = t)) as [->|Hne].
      * rewrite lookup_insert_eq. intros [= <-] p.
        rewrite (consistent_path_step _ _ _ _ _ Hts Hl). apply Hnew.
      * rewrite lookup_insert_ne by done. apply Hpd'.
Qed.

(** A top-level call: the memo it finds is discarded. *)
Lemma retrieve_all_paths_top limit t path_dict :
  level t < limit → t = s ∨ t ∈ dom ancestors →
  ∃ ps path_dict',
    retrieve_all_paths limit path_dict t s ancestors true = Ok (ps, path_dict')
    ∧ ∀ p, p ∈ ps ↔ consistent_path ancestors s t p.
Proof.
  intros Hlt Ht. rewrite retrieve_all_paths_init.
  destruct (retrieve_all_paths_memo limit t ∅ Hlt Ht) as (ps & pd' & Hrun & Hpd' & Hps & _).
  { by intros t' ps'. }
  exists ps, pd'. split; [done|]. by apply (Hpd' t ps).
Qed.
End enumerator.

(** ** The bounded breadth-first search *)

Lemma dom_ancestors_append ancestors new_node current_node :
  dom (ancestors_append ancestors new_node current_node) = {[new_node]} ∪ dom ancestors.
Proof.
  unfold ancestors_append. destruct (ancestors !! new_node); by rewrite dom_insert_L.
Qed.

Lemma lookup_ancestors_append_ne ancestors new_node current_node t :
  t ≠ new_node → ancestors_append ancestors new_node current_node !! t = ancestors !! t.
Proof.
  intros Hne. unfold ancestors_append.
  destruct (ancestors !! new_node); by rewrite lookup_insert_ne.
Qed.

Lemma lookup_ancestors_append ancestors new_node current_node :
  ancestors_append ancestors new_node current_node !! new_node
  = Some (default [] (ancestors !! new_node) ++ [current_node]).
Proof.
  unfold ancestors_append.
  destruct (ancestors !! new_node); by rewrite lookup_insert_eq.
Qed.

Section search_properties.
Variable allowed : string → Z → gset string → res bool.
Variable g : DiGraph.
Hypothesis allowed_fresh :
  ∀ node i explored, allowed node i explored = Ok true → node ∉ explored.

(** What the two inner loops keep while a round is in progress, from the
    ancestors [ancestors0] that the round started with. *)
Let round_inv (ancestors0 : ancestors_map) (frontier explored : gset string)
    (acc : gset string * ancestors_map) : Prop :=
  let '(new_nodes, ancestors) := acc in
  new_nodes ## explored
  ∧ dom ancestors = dom ancestors0 ∪ new_nodes
  ∧ (∀ t, t ∉ new_nodes → ancestors !! t = ancestors0 !! t)
  ∧ (∀ t l a, t ∈ new_nodes → ancestors !! t = Some l → a ∈ l →
       a ∈ frontier ∧ is_Some (edge_tag g a t)).

Local Lemma expand_round_inv ancestors0 frontier explored i acc current_node acc' :
  dom ancestors0 ⊆ explored → current_node ∈ frontier →
  round_inv ancestors0 frontier explored acc →
  expand allowed g i explored acc current_node = Ok acc' →
  round_inv ancestors0 frontier explored acc'.
Proof.
  intros Hdom0 Hcur Hacc. unfold expand.
  intros (successors & (adj & Hadj%getitem_Ok & [= <-])%bind_Ok & Hloop)%bind_Ok.
  revert Hloop. apply for_each_invariant; [|done].
  intros [new_nodes ancestors] new_node acc1 Hsucc%elem_of_elements
    (Hdisj & Hdom & Hold & Hnew) (ok & Hok & Hacc1)%bind_Ok.
  destruct ok; injection Hacc1 as <-; [|done].
  apply allowed_fresh in Hok.
  split_and!.
  - set_solver.
  - rewrite dom_ancestors_append. set_solver.
  - intros t Ht. rewrite lookup_ancestors_append_ne by set_solver. apply Hold. set_solver.
  - intros t l a Ht. destruct (decide (t = new_node)) as [->|Hne].
    + rewrite lookup_ancestors_append. intros [= <-] [Ha|Ha]%elem_of_app.
      * destruct (ancestors !! new_node) as [l|] eqn:Hl; simpl in Ha;
          [|by apply elem_of_nil in Ha].
        apply (Hnew new_node l a); [|done..].
        apply dec_stable. intros Hnot. rewrite (Hold _ Hnot) in Hl.
        apply elem_of_dom_2 in Hl. set_solver.
      * apply list_elem_of_singleton in Ha as ->. split; [done|].
        unfold edge_tag. rewrite Hadj. simpl. by apply elem_of_dom.
    + rewrite lookup_ancestors_append_ne by done. apply Hnew. set_solver.
Qed.

(** A round takes the invariant of the search from [i] to [i + 1]. *)
Lemma search_round_inv start i s s' :
  search_inv g start i s → search_round allowed g s i = Ok s' →
  search_inv g start (S i) s'.
Proof.
  destruct s as [[ancestors0 frontier] explored].
  intros (level & Hranked & Hfront & Hexpl & Hdom & Hsub & Hedge).
  unfold search_round.
  intros ([new_nodes ancestors] & Hloop & [= <-])%bind_Ok.
  assert (Hround : round_inv ancestors0 frontier explored (new_nodes, ancestors)).
  { revert Hloop. apply for_each_invariant.
    - intros acc current acc' Hcur%elem_of_elements Hacc Hrun.
      eapply expand_round_inv; [|done..]. set_solver.
    - split_and!; [set_solver..|done|set_solver]. }
  destruct Hround as (Hdisj & Hdom' & Hold & Hnew).
  assert (Hkeep : ∀ t, t ∈ explored → t ∉ new_nodes) by set_solver.
  exists (λ t, if decide (t ∈ new_nodes) then S i else level t).
  split_and!.
  - intros t l a Hl Ha. destruct (decide (t ∈ new_nodes)) as [Ht|Ht].
    + destruct (Hnew t l a Ht Hl Ha) as [Hfr _].
      rewrite decide_False by (apply Hkeep; set_solver).
      rewrite (Hfront a Hfr). split; [lia|].
      assert (a ∈ explored) as Hin by set_solver. rewrite Hdom in Hin. set_solver.
    + rewrite (Hold t Ht) in Hl.
      destruct (Hranked t l a Hl Ha) as [Hlt Hreach].
      rewrite decide_False; [split; [done|set_solver]|].
      apply Hkeep. rewrite Hdom. set_solver.
  - intros t Ht. by rewrite decide_True.
  - intros t Ht. case_decide; [done|].
    assert (t ∈ explored) as Hin by set_solver. specialize (Hexpl t Hin). lia.
  - rewrite Hdom, Hdom'. set_solver.
  - set_solver.
  - intros t l a Hl Ha. destruct (decide (t ∈ new_nodes)) as [Ht|Ht].
    + by apply (Hnew t l a).
    + rewrite (Hold t Ht) in Hl. by apply (Hedge t l a).
Qed.

Lemma search_inv_start start : search_inv g start 0 (∅, {[start]}, {[start]}).
Proof.
  exists (λ _, 0). split_and!; [done|done|done|set_solver|done|done].
Qed.

(** A search that returns, returns a state that satisfies the invariant. *)
Lemma search_search_inv d start s :
  search allowed g d start = Ok s → search_inv g start d s.
Proof.
  unfold search.
  cut (∀ n a s0, search_inv g start a s0 →
         for_each (seq a n) (search_round allowed g) s0 = Ok s →
         search_inv g start (a + n) s).
  { intros Hcut. apply (Hcut d 0), search_inv_start. }
  induction n as [|n IH]; intros a s0 Hs0; simpl.
  - intros [= <-]. by rewrite Nat.add_0_r.
  - intros (s1 & Hround & Hrest)%bind_Ok.
    replace (a + S n) with (S a + n) by lia.
    apply (IH (S a) s1); [|done]. by eapply search_round_inv.
Qed.
End search_properties.

Lemma is_node_allowed_fresh st subsystem_i subsystem_j d node i explored :
  is_node_allowed st node i explored subsystem_i subsystem_j d = Ok true → node ∉ explored.
Proof. unfold is_node_allowed. by case_bool_decide. Qed.

Lemma is_node_allowed_extracellular_fresh st subsystem n node i explored :
  is_node_allowed_extracellular st node i explored subsystem n = Ok true → node ∉ explored.
Proof. unfold is_node_allowed_extracellular. by case_bool_decide. Qed.

(** C1: let the ancestors map be the one that a search from [s] returned
    (with either admission predicate: both admit unexplored nodes only), and
    [t] a node that the search reached.  With a recursion limit above the
    depth of the search, the enumerator returns, and the paths it returns are
    exactly the paths from [s] to [t] that are consistent with the ancestor
    chain: the single path [(s,)] if [t = s], otherwise the paths returned
    for an immediate ancestor of [t] with [t] appended.  On the ancestors
    {B: [A], C: [A], D: [B, C]} the paths from A to D are (A,B,D) and
    (A,C,D). *)
Theorem retrieve_all_paths_spec allowed g d s ancestors frontier explored t limit path_dict :
  (∀ node i explored, allowed node i explored = Ok true → node ∉ explored) →
  search allowed g d s = Ok (ancestors, frontier, explored) →
  t ∈ explored →
  d < limit →
  (∃ paths path_dict',
     retrieve_all_paths limit path_dict t s ancestors true = Ok (paths, path_dict')
     ∧ (∀ p, p ∈ paths ↔ consistent_path ancestors s t p)
     ∧ (t = s → paths = [[s]])
     ∧ (t ≠ s → ∀ p, p ∈ paths ↔
          ∃ a paths_a path_dict_a q,
            a ∈ default [] (ancestors !! t)
            ∧ retrieve_all_paths limit path_dict a s ancestors true = Ok (paths_a, path_dict_a)
            ∧ q ∈ paths_a ∧ p = q ++ [t]))
  ∧ fst <$> retrieve_all_paths 1000 path_dict "D" "A"
              {[ "B" := ["A"]; "C" := ["A"]; "D" := ["B"; "C"] ]} true
    = Ok [["A"; "B"; "D"]; ["A"; "C"; "D"]].
Proof.
  intros Hfresh Hsearch Ht Hlimit. split; [|by rewrite retrieve_all_paths_init].
  destruct (search_search_inv allowed g Hfresh d s _ Hsearch)
    as (level & Hranked & _ & Hlevel & Hexplored & _ & _).
  assert (Hreach : t = s ∨ t ∈ dom ancestors) by set_solver.
  assert (Hlt : level t < limit) by (specialize (Hlevel t Ht); lia).
  destruct (retrieve_all_paths_top ancestors s level Hranked limit t path_dict Hlt Hreach)
    as (paths & pd' & Hrun & Hpaths).
  exists paths, pd'. split_and!; [done..| |].
  - intros ->. destruct limit as [|limit]; [lia|]. simpl in Hrun.
    rewrite decide_True in Hrun by done. rewrite lookup_insert_eq in Hrun. simpl in Hrun.
    rewrite (getitem_Some _ _ _ (lookup_insert_eq _ _ _)) in Hrun. simpl in Hrun. congruence.
  - intros Hts p. destruct Hreach as [->|[l Hl]%elem_of_dom]; [done|].
    rewrite Hl. simpl. rewrite Hpaths, (consistent_path_step _ _ _ _ _ Hts Hl).
    assert (Hanc : ∀ a, a ∈ l →
              ∃ ps pda, retrieve_all_paths limit path_dict a s ancestors true = Ok (ps, pda)
                        ∧ ∀ q, q ∈ ps ↔ consistent_path ancestors s a q).
    { intros a Ha. destruct (Hranked t l a Hl Ha) as [Hlevel_a Hreach_a].
      apply (retrieve_all_paths_top ancestors s level Hranked); [lia|done]. }
    split.
    + intros (a & q & Ha & Hq & ->).
      destruct (Hanc a Ha) as (ps & pda & Hrun_a & Hps).
      exists a, ps, pda, q. split_and!; [done..| |done]. by apply Hps.
    + intros (a & ps & pda & q & Ha & Hrun_a & Hq & ->).
      destruct (Hanc a Ha) as (ps' & pda' & Hrun_a' & Hps).
      exists a, q. split_and!; [done| |done]. apply Hps. congruence.
Qed.

Lemma retrieve_all_paths_spec_witness :
  (∀ node i explored,
     is_node_allowed (Demo.extracted 1 0) node i explored "X" "Y" 1 = Ok true →
     node ∉ explored)
  ∧ search (λ node i explored, is_node_allowed (Demo.extracted 1 0) node i explored "X" "Y" 1)
      (_graph (Demo.extracted 1 0)) 1 "B"
    = Ok ({[ "C" := ["B"] ]}, {[ "C" ]}, {[ "B"; "C" ]})
  ∧ "C" ∈ ({[ "B"; "C" ]} : gset string)
  ∧ 1 < 1000
  ∧ ∃ paths path_dict',
      retrieve_all_paths 1000 ∅ "C" "B" {[ "C" := ["B"] ]} true = Ok (paths, path_dict')
      ∧ ∀ p, p ∈ paths ↔ consistent_path {[ "C" := ["B"] ]} "B" "C" p.
Proof.
  assert (Hsearch :
    search (λ node i explored, is_node_allowed (Demo.extracted 1 0) node i explored "X" "Y" 1)
      (_graph (Demo.extracted 1 0)) 1 "B"
    = Ok ({[ "C" := ["B"] ]}, {[ "C" ]}, {[ "B"; "C" ]})) by (vm_compute; reflexivity).
  assert (Hin : "C" ∈ ({[ "B"; "C" ]} : gset string)) by (by vm_compute).
  assert (Hlimit : 1 < 1000) by lia.
  split_and!; [apply is_node_allowed_fresh|done..|].
  destruct (retrieve_all_paths_spec _ _ _ _ _ _ _ "C" 1000 ∅
              (is_node_allowed_fresh (Demo.extracted 1 0) "X" "Y" 1) Hsearch Hin Hlimit)
    as [(paths & pd' & Hrun & Hpaths & _) _].
  exists paths, pd'. split; [exact Hrun|exact Hpaths].
Defined.

(** ** The scope of the memo (C5) *)




(** ** The result containers *)

Section containers.
Context `{Countable A}.
Implicit Types (c : gmap string (gmap string (list (gset A)))) (e : gmap string (list (gset A))).

Lemma update_pair_slot c i j k f c' i' j' k' :
  update_pair c i j k f = Ok c' →
  pair_slot c' i' j' k' =
    if decide (i' = i ∧ j' = j ∧ k' = k) then f (pair_slot c i j k) else pair_slot c i' j' k'.
Proof.
  unfold update_pair.
  intros (ci & Hci%getitem_Ok & (cij & Hcij%getitem_Ok
            & (x & Hx%getindex_Ok & [= <-])%bind_Ok)%bind_Ok)%bind_Ok.
  unfold pair_slot. destruct (decide (i' = i)) as [->|Hi].
  - rewrite lookup_insert_eq, Hci. simpl. destruct (decide (j' = j)) as [->|Hj].
    + rewrite lookup_insert_eq, Hcij. simpl. destruct (decide (k' = k)) as [->|Hk].
      * rewrite decide_True by done. rewrite Hx. simpl.
        rewrite list_lookup_insert_eq; [done|]. by eapply lookup_lt_Some.
      * rewrite decide_False by naive_solver. by rewrite list_lookup_insert_ne.
    + rewrite decide_False by naive_solver. by rewrite lookup_insert_ne.
  - rewrite decide_False by naive_solver. by rewrite lookup_insert_ne.
Qed.

Lemma update_pair_shape c i j k f c' names len :
  update_pair c i j k f = Ok c' → pair_shape names len c → pair_shape names len c'.
Proof.
  unfold update_pair.
  intros (ci & Hci%getitem_Ok & (cij & Hcij%getitem_Ok
            & (x & Hx%getindex_Ok & [= <-])%bind_Ok)%bind_Ok)%bind_Ok Hshape i' j' Hi' Hj'.
  destruct (Hshape i' j' Hi' Hj') as (ci' & cij' & Hci' & Hcij' & Hlen).
  destruct (decide (i' = i)) as [->|Hi].
  - assert (ci' = ci) as -> by congruence.
    rewrite lookup_insert_eq. destruct (decide (j' = j)) as [->|Hj].
    + assert (cij' = cij) as -> by congruence.
      eexists _, _. split_and!; [done|apply lookup_insert_eq|].
      by rewrite length_insert.
    + exists (<[j:=<[k:=f x]> cij]> ci), cij'.
      split_and!; [done|by rewrite lookup_insert_ne|done].
  - rewrite lookup_insert_ne by done. by eexists _, _.
Qed.

Lemma update_pair_total c i j k f names len :
  pair_shape names len c → i ∈ names → j ∈ names → k < len →
  ∃ c', update_pair c i j k f = Ok c'.
Proof.
  intros Hshape Hi Hj Hk. destruct (Hshape i j Hi Hj) as (ci & cij & Hci & Hcij & Hlen).
  destruct (lookup_lt_is_Some_2 cij k) as [x Hx]; [lia|].
  unfold update_pair. rewrite (getitem_Some _ _ _ Hci). simpl.
  rewrite (getitem_Some _ _ _ Hcij). simpl. rewrite (getindex_Some _ _ _ Hx). simpl. by eexists.
Qed.

Lemma update_slot_slot e i k f e' i' k' :
  update_slot e i k f = Ok e' →
  name_slot e' i' k' =
    if decide (i' = i ∧ k' = k) then f (name_slot e i k) else name_slot e i' k'.
Proof.
  unfold update_slot.
  intros (ei & Hei%getitem_Ok & (x & Hx%getindex_Ok & [= <-])%bind_Ok)%bind_Ok.
  unfold name_slot. destruct (decide (i' = i)) as [->|Hi].
  - rewrite lookup_insert_eq, Hei. simpl. destruct (decide (k' = k)) as [->|Hk].
    + rewrite decide_True by done. rewrite Hx. simpl.
      rewrite list_lookup_insert_eq; [done|]. by eapply lookup_lt_Some.
    + rewrite decide_False by naive_solver. by rewrite list_lookup_insert_ne.
  - rewrite decide_False by naive_solver. by rewrite lookup_insert_ne.
Qed.

Lemma update_slot_shape e i k f e' names len :
  update_slot e i k f = Ok e' → slot_shape names len e → slot_shape names len e'.
Proof.
  unfold update_slot.
  intros (ei & Hei%getitem_Ok & (x & Hx%getindex_Ok & [= <-])%bind_Ok)%bind_Ok Hshape i' Hi'.
  destruct (Hshape i' Hi') as (ei' & Hei' & Hlen).
  destruct (decide (i' = i)) as [->|Hi].
  - assert (ei' = ei) as -> by congruence.
    rewrite lookup_insert_eq. eexists. split; [done|]. by rewrite length_insert.
  - rewrite lookup_insert_ne by done. by eexists.
Qed.

Lemma update_slot_total e i k f names len :
  slot_shape names len e → i ∈ names → k < len → ∃ e', update_slot e i k f = Ok e'.
Proof.
  intros Hshape Hi Hk. destruct (Hshape i Hi) as (ei & Hei & Hlen).
  destruct (lookup_lt_is_Some_2 ei k) as [x Hx]; [lia|].
  unfold update_slot. rewrite (getitem_Some _ _ _ Hei). simpl.
  rewrite (getindex_Some _ _ _ Hx). simpl. by eexists.
Qed.

(** A slot beyond the end of the list: [IndexError]. *)
Lemma update_slot_out e i k f names len :
  slot_shape names len e → i ∈ names → len ≤ k → update_slot e i k f = Raise IndexError.
Proof.
  intros Hshape Hi Hk. destruct (Hshape i Hi) as (ei & Hei & Hlen).
  unfold update_slot. rewrite (getitem_Some _ _ _ Hei). simpl.
  unfold getindex. rewrite lookup_ge_None_2; [done|lia].
Qed.

Lemma name_slot_out e i k names len :
  slot_shape names len e → i ∈ names → len ≤ k → name_slot e i k = ∅.
Proof.
  intros Hshape Hi Hk. destruct (Hshape i Hi) as (ei & Hei & Hlen).
  unfold name_slot. rewrite Hei. simpl. rewrite lookup_ge_None_2; [done|lia].
Qed.
End containers.

(** ** The searches end *)

(** On a graph whose successors are nodes, a search from a node with an
    admission predicate that does not raise returns. *)
Lemma search_total allowed (g : DiGraph) d start :
  (∀ node i explored, ∃ b : bool, allowed node i explored = Ok b) →
  graph_closed g → start ∈ dom g →
  ∃ s, search allowed g d start = Ok s.
Proof.
  intros Htotal Hclosed Hstart. unfold search.
  destruct (for_each_total
              (λ s : ancestors_map * gset string * gset string, s.1.2 ⊆ dom g)
              (seq 0 d) (search_round allowed g) (∅, {[start]}, {[start]}))
    as (s & Hs & _); [|simpl; set_solver|by exists s].
  intros [[ancestors frontier] explored] i _ Hfrontier. simpl in Hfrontier.
  unfold search_round.
  destruct (for_each_total
              (λ acc : gset string * ancestors_map, acc.1 ⊆ dom g)
              (elements frontier) (expand allowed g i explored) (∅, ancestors))
    as ([new_nodes ancestors'] & -> & Hnew); [|simpl; set_solver|by eexists].
  intros [new_nodes0 ancestors0] current Hcur%elem_of_elements Hacc. simpl in Hacc.
  unfold expand.
  destruct (g !! current) as [adj|] eqn:Hadj;
    [|apply Hfrontier in Hcur; by apply not_elem_of_dom in Hadj].
  unfold graph_adj. rewrite (getitem_Some _ _ _ Hadj). simpl.
  apply for_each_total; [|done].
  intros [new_nodes1 ancestors1] new_node Hsucc%elem_of_elements Hacc1. simpl in Hacc1.
  destruct (Htotal new_node (Z.of_nat i) explored) as [[] ->]; simpl.
  - eexists. split; [done|]. simpl.
    apply union_subseteq. split; [|done].
    apply singleton_subseteq_l. by eapply Hclosed.
  - by eexists.
Qed.

Lemma is_node_allowed_total st subsystem_i subsystem_j d node i explored :
  is_Some (_subsystem_metabolites_id st !! subsystem_i) →
  is_Some (_subsystem_metabolites_id st !! subsystem_j) →
  ∃ b : bool, is_node_allowed st node i explored subsystem_i subsystem_j d = Ok b.
Proof.
  intros [Mi Hi] [Mj Hj].
  destruct (is_node_allowed_spec st node i explored subsystem_i subsystem_j d Mi Mj Hi Hj)
    as (b & Hb & _).
  by exists b.
Qed.

Lemma is_node_allowed_extracellular_total st subsystem n node i explored :
  is_Some (_subsystem_metabolites_id st !! subsystem) →
  ∃ b : bool, is_node_allowed_extracellular st node i explored subsystem n = Ok b.
Proof.
  intros [M HM]. unfold is_node_allowed_extracellular.
  rewrite (in_subsystem_Ok _ _ _ _ HM).
  repeat (case_bool_decide; simpl); by eexists.
Qed.

(** The consistent paths of a search follow edges of the graph and end at
    their destination. *)
Lemma consistent_path_in_graph (g : DiGraph) ancestors s t p :
  (∀ t l a, ancestors !! t = Some l → a ∈ l → is_Some (edge_tag g a t)) →
  consistent_path ancestors s t p →
  path_in_graph g p ∧ last p = Some t.
Proof.
  intros Hedge. induction 1 as [|t l a p Hts Hl Ha Hp [IHp Hlast]].
  - split; [|done]. intros [|i] a b; simpl; [done|]. by rewrite lookup_nil.
  - split; [|by rewrite last_snoc].
    intros i x y Hx Hy.
    assert (Hlen : S i < length (p ++ [t])) by by eapply lookup_lt_Some.
    rewrite length_app in Hlen. simpl in Hlen.
    destruct (decide (S i < length p)) as [Hlt|Hge].
    + rewrite lookup_app_l in Hx, Hy by lia. by eapply IHp.
    + assert (S i = length p) as Hi by lia.
      rewrite lookup_app_l in Hx by lia.
      rewrite lookup_app_r, Hi, Nat.sub_diag in Hy by lia. injection Hy as <-.
      rewrite last_lookup in Hlast.
      replace (pred (length p)) with i in Hlast by lia.
      assert (x = a) as -> by congruence. by eapply Hedge.
Qed.

(** ** What a search changes *)

Lemma setup_fields st st' :
  setup st' = setup st →
  _gem st' = _gem st ∧ _graph st' = _graph st
  ∧ _subsystem_names st' = _subsystem_names st
  ∧ _subsystem_reactions_id st' = _subsystem_reactions_id st
  ∧ _subsystem_metabolites_id st' = _subsystem_metabolites_id st
  ∧ _d st' = _d st ∧ _extracellular_system st' = _extracellular_system st
  ∧ _n st' = _n st ∧ _redgem st' = _redgem st.
Proof. unfold setup. intros [= ]. by split_and!. Qed.

Lemma shapes_kept_refl st : shapes_kept st st.
Proof. by split_and!. Qed.

Lemma shapes_kept_trans st1 st2 st3 :
  shapes_kept st1 st2 → shapes_kept st2 st3 → shapes_kept st1 st3.
Proof.
  intros (H1 & H2 & H3 & H4 & H5 & H6) (K1 & K2 & K3 & K4 & K5 & K6).
  split_and!; naive_solver.
Qed.

Lemma subsystems_step_refl i j d st : subsystems_step i j d st st.
Proof. split_and!; [done|apply shapes_kept_refl|done..|by left]. Qed.

Lemma subsystems_step_trans i j d st1 st2 st3 :
  subsystems_step i j d st1 st2 → subsystems_step i j d st2 st3 →
  subsystems_step i j d st1 st3.
Proof.
  intros (H1 & H2 & H3 & H4 & H5 & H6 & H7) (K1 & K2 & K3 & K4 & K5 & K6 & K7).
  destruct (setup_fields _ _ H1) as (_ & Hg & _).
  split_and!; [congruence|by eapply shapes_kept_trans|congruence..| |].
  - intros i' j' k' Hne. by rewrite K6, H6.
  - intros i' j' k' r [Hr|Hr]%K7; [by apply H7|right; by rewrite <- Hg].
Qed.

Lemma extracellular_step_refl i k st : extracellular_step i k st st.
Proof. split_and!; [done|apply shapes_kept_refl|done..|by left]. Qed.

Lemma extracellular_step_trans i k st1 st2 st3 :
  extracellular_step i k st1 st2 → extracellular_step i k st2 st3 →
  extracellular_step i k st1 st3.
Proof.
  intros (H1 & H2 & H3 & H4 & H5 & H6 & H7) (K1 & K2 & K3 & K4 & K5 & K6 & K7).
  destruct (setup_fields _ _ H1) as (_ & Hg & _).
  split_and!; [congruence|by eapply shapes_kept_trans|congruence..| |].
  - intros i' k' Hne. by rewrite K6, H6.
  - intros i' k' r [Hr|Hr]%K7; [by apply H7|right; by rewrite <- Hg].
Qed.

Lemma ready_step st st' :
  setup st' = setup st → shapes_kept st st' → ready st → ready st'.
Proof.
  intros Hsetup (H1 & H2 & H3 & H4 & H5 & H6) (R1 & R2 & R3 & R4 & R5 & R6 & R7 & R8).
  destruct (setup_fields _ _ Hsetup) as (_ & Hg & Hnames & _ & Hmet & Hd & _).
  unfold ready. rewrite Hg, Hnames, Hmet, Hd. split_and!; auto.
Qed.

Section subsystems_search.
Variables (subsystem_i subsystem_j : string) (d : nat).
Variables (names : list string) (len : nat).
Hypothesis i_known : subsystem_i ∈ names.
Hypothesis j_known : subsystem_j ∈ names.
Hypothesis d_slot : d < len.

Lemma save_edge_step path st k :
  pair_shape names len (_intermediate_reactions_id st) →
  pair_shape names len (_intermediate_metabolites_id st) →
  path_in_graph (_graph st) path → S k < length path →
  ∃ st', save_edge path subsystem_i subsystem_j d st k = Ok st'
         ∧ subsystems_step subsystem_i subsystem_j d st st'
         ∧ _intermediate_paths st' = _intermediate_paths st.
Proof.
  intros Hrxn Hmet Hpath Hk.
  destruct (lookup_lt_is_Some_2 path k) as [a Ha]; [lia|].
  destruct (lookup_lt_is_Some_2 path (S k)) as [b Hb]; [lia|].
  destruct (Hpath k a b Ha Hb) as [r Hr].
  unfold save_edge. rewrite (getindex_Some _ _ _ Ha). simpl.
  rewrite Nat.add_1_r, (getindex_Some _ _ _ Hb). simpl.
  rewrite graph_rxn_id_edge_tag, Hr. simpl.
  destruct (update_pair_total (_intermediate_reactions_id st) subsystem_i subsystem_j d
              (λ s, s ∪ {[r]}) names len) as [rs Hrs]; [done..|].
  rewrite Hrs. simpl.
  assert (Htags : ∀ i' j' k' r', r' ∈ pair_slot rs i' j' k' →
            r' ∈ pair_slot (_intermediate_reactions_id st) i' j' k' ∨ is_tag (_graph st) r').
  { intros i' j' k' r'. rewrite (update_pair_slot _ _ _ _ _ _ i' j' k' Hrs).
    case_decide as Heq; [|by left]. destruct Heq as (-> & -> & ->).
    intros [?| ->%elem_of_singleton]%elem_of_union; [by left|right; by exists a, b]. }
  destruct (decide (0 < k)).
  - destruct (update_pair_total (_intermediate_metabolites_id st) subsystem_i subsystem_j d
                (λ s, s ∪ {[a]}) names len) as [ms Hms]; [done..|].
    rewrite Hms. simpl. eexists. split; [done|]. split; [|done].
    split_and!; try done. split_and!; simpl; try done.
    + intros ??. by apply (update_pair_shape _ _ _ _ _ _ _ _ Hrs).
    + intros ??. by apply (update_pair_shape _ _ _ _ _ _ _ _ Hms).
  - eexists. split; [done|]. split; [|done].
    split_and!; try done. split_and!; simpl; try done.
    intros ??. by apply (update_pair_shape _ _ _ _ _ _ _ _ Hrs).
Qed.

Lemma retrieve_intermediate_step st paths :
  pair_shape names len (_intermediate_reactions_id st) →
  pair_shape names len (_intermediate_metabolites_id st) →
  (∀ p, p ∈ paths → path_in_graph (_graph st) p) →
  ∃ st', retrieve_intermediate_metabolites_and_reactions st paths subsystem_i subsystem_j d
           = Ok st'
         ∧ subsystems_step subsystem_i subsystem_j d st st'
         ∧ _intermediate_paths st' = _intermediate_paths st.
Proof.
  intros Hrxn Hmet Hpaths. unfold retrieve_intermediate_metabolites_and_reactions.
  set (I := λ st', subsystems_step subsystem_i subsystem_j d st st'
                   ∧ _intermediate_paths st' = _intermediate_paths st).
  assert (Hedge : ∀ p k st1, p ∈ paths → k ∈ range (Z.of_nat (length p) - 1) → I st1 →
            ∃ st2, save_edge p subsystem_i subsystem_j d st1 k = Ok st2 ∧ I st2).
  { intros p k st1 Hp Hk%elem_of_range [Hstep Hsame].
    pose proof Hstep as (Hsetup & (_ & S2 & S3 & _) & _).
    destruct (setup_fields _ _ Hsetup) as (_ & Hg & _).
    destruct (save_edge_step p st1 k) as (st2 & Hrun & Hstep2 & Hsame2);
      [by apply S2|by apply S3|rewrite Hg; by apply Hpaths|lia|].
    exists st2. split; [done|]. split; [|congruence].
    by eapply subsystems_step_trans. }
  apply (for_each_total I); [|split; [apply subsystems_step_refl|done]].
  intros st1 p Hp Hst1. apply (for_each_total I); [|done].
  intros st2 k Hk Hst2. by apply Hedge.
Qed.

Lemma save_paths_step limit metabolite_id ancestors st node level :
  pair_shape names len (_intermediate_paths st) →
  pair_shape names len (_intermediate_reactions_id st) →
  pair_shape names len (_intermediate_metabolites_id st) →
  ranked ancestors metabolite_id level → level node < limit →
  node = metabolite_id ∨ node ∈ dom ancestors →
  (∀ t l a, ancestors !! t = Some l → a ∈ l → is_Some (edge_tag (_graph st) a t)) →
  ∃ st' paths,
    save_paths limit subsystem_i subsystem_j d metabolite_id ancestors st node = Ok st'
    ∧ (∀ p, p ∈ paths ↔ consistent_path ancestors metabolite_id node p)
    ∧ subsystems_step subsystem_i subsystem_j d st st'
    ∧ path_result st' subsystem_i subsystem_j d
      = path_result st subsystem_i subsystem_j d ∪ list_to_set paths.
Proof.
  intros Hpth Hrxn Hmet Hranked Hlevel Hreach Hedge.
  destruct (retrieve_all_paths_top ancestors metabolite_id level Hranked limit node
              (_path_dict st) Hlevel Hreach) as (paths & pd & Hrun & Hpaths).
  unfold save_paths. rewrite Hrun. simpl.
  destruct (update_pair_total (_intermediate_paths st) subsystem_i subsystem_j d
              (λ s, s ∪ list_to_set paths) names len) as [ps Hps]; [done..|].
  rewrite Hps. simpl.
  destruct (retrieve_intermediate_step
              (set_intermediate_paths (set_path_dict st pd) ps) paths)
    as (st' & Hrun' & Hstep & Hsame); [done|done| |].
  { intros p Hp%Hpaths. simpl. by eapply consistent_path_in_graph. }
  exists st', paths. split_and!; [done|done| |].
  - eapply subsystems_step_trans; [|done].
    split_and!; try done.
    + split_and!; simpl; try done.
      intros ??. by apply (update_pair_shape _ _ _ _ _ _ _ _ Hps).
    + intros i' j' k' Hne. unfold path_result. simpl.
      rewrite (update_pair_slot _ _ _ _ _ _ i' j' k' Hps). by rewrite decide_False.
    + intros. by left.
  - unfold path_result. rewrite Hsame. simpl.
    rewrite (update_pair_slot _ _ _ _ _ _ _ _ _ Hps). by rewrite decide_True.
Qed.
End subsystems_search.

Section subsystems_call.
Variables (limit : nat) (subsystem_i subsystem_j : string) (d : nat).
Variables (Mi Mj : gset string).

(** The paths of a depth-0 search from [m]. *)
Let found0 (m : string) : gset path := if decide (m ∈ Mj) then {[ [m] ]} else ∅.

Lemma search_from_step st m :
  ready st →
  subsystem_i ∈ _subsystem_names st → subsystem_j ∈ _subsystem_names st →
  d < length (range (_d st + 1)) → d < limit →
  _subsystem_metabolites_id st !! subsystem_i = Some Mi →
  _subsystem_metabolites_id st !! subsystem_j = Some Mj →
  m ∈ Mi →
  ∃ st', search_from limit subsystem_i subsystem_j d st m = Ok st'
         ∧ subsystems_step subsystem_i subsystem_j d st st'
         ∧ (d = 0 → path_result st' subsystem_i subsystem_j 0
                    = path_result st subsystem_i subsystem_j 0 ∪ found0 m).
Proof.
  intros (R1 & R2 & R3 & _ & _ & _ & Hclosed & Hnodes) Hi Hj Hd Hlimit HMi HMj Hm.
  assert (Hstart : m ∈ dom (_graph st)).
  { destruct (Hnodes subsystem_i Hi) as (M & HM & Hsub). set_solver. }
  unfold search_from, find_at_distance.
  destruct (search_total
              (λ node i explored,
                 is_node_allowed st node i explored subsystem_i subsystem_j (Z.of_nat d))
              (_graph st) d m) as [[[ancestors frontier] explored] Hsearch];
    [intros; by apply is_node_allowed_total|done|done|].
  rewrite Hsearch. simpl.
  apply search_search_inv in Hsearch as Hinv;
    [|intros ???; apply is_node_allowed_fresh].
  destruct Hinv as (level & Hranked & Hfront & _ & Hexplored & Hsub & Hedge).
  rewrite (in_subsystem_Ok _ _ _ _ HMj). simpl.
  destruct (decide (d = 0)) as [Hd0|Hd0].
  - (* depth 0: the frontier is the start or nothing *)
    rewrite (bool_decide_eq_true_2 _ Hd0). simpl. subst d.
    injection Hsearch as <- <- <-. unfold found0.
    destruct (decide (m ∈ Mj)) as [Hin|Hout].
    + rewrite (bool_decide_eq_true_2 _ Hin). simpl. rewrite elements_singleton. simpl.
      destruct (save_paths_step subsystem_i subsystem_j 0 (_subsystem_names st)
                  (length (range (_d st + 1))) Hi Hj Hd limit m ∅ st m (λ _, 0))
        as (st' & paths & -> & Hpaths & Hstep & Hres); [done..|lia|by left|done|].
      simpl. exists st'. split_and!; [done..|].
      intros _. rewrite Hres. f_equal. apply set_eq. intros p.
      rewrite elem_of_list_to_set, Hpaths, consistent_path_source. set_solver.
    + rewrite (bool_decide_eq_false_2 _ Hout). simpl. rewrite elements_empty. simpl.
      exists st. split_and!; [done|apply subsystems_step_refl|]. intros _. set_solver.
  - rewrite (bool_decide_eq_false_2 _ Hd0). simpl.
    destruct (for_each_total (subsystems_step subsystem_i subsystem_j d st)
                (elements frontier)
                (save_paths limit subsystem_i subsystem_j d m ancestors) st)
      as (st' & Hrun & Hstep); [|apply subsystems_step_refl|by exists st'].
    intros st1 node Hnode%elem_of_elements Hst1.
    pose proof Hst1 as (Hsetup & (S1 & S2 & S3 & _) & _).
    destruct (setup_fields _ _ Hsetup) as (_ & Hg & _).
    destruct (save_paths_step subsystem_i subsystem_j d (_subsystem_names st)
                (length (range (_d st + 1))) Hi Hj Hd limit m ancestors st1 node level)
      as (st2 & paths & Hrun & _ & Hstep & _);
      [by apply S1|by apply S2|by apply S3|done| | | |].
    + rewrite (Hfront node Hnode). lia.
    + set_solver.
    + by rewrite Hg.
    + exists st2. split; [done|]. by eapply subsystems_step_trans.
Qed.

(** A call of the search between two subsystems returns; it changes what
    [subsystems_step] allows, and at depth 0 it adds to the (i, j, 0)
    path-result set the paths [(m,)] of the metabolites [m] that the two
    subsystems share. *)
Lemma breadth_search_subsystems_step st :
  ready st →
  subsystem_i ∈ _subsystem_names st → subsystem_j ∈ _subsystem_names st →
  d < length (range (_d st + 1)) → d < limit →
  _subsystem_metabolites_id st !! subsystem_i = Some Mi →
  _subsystem_metabolites_id st !! subsystem_j = Some Mj →
  ∃ st', breadth_search_subsystems_paths_length_d limit st subsystem_i subsystem_j d = Ok st'
         ∧ subsystems_step subsystem_i subsystem_j d st st'
         ∧ (d = 0 → path_result st' subsystem_i subsystem_j 0
                    = path_result st subsystem_i subsystem_j 0
                      ∪ set_map (λ m, [m]) (Mi ∩ Mj)).
Proof.
  intros Hready Hi Hj Hd Hlimit HMi HMj.
  unfold breadth_search_subsystems_paths_length_d.
  rewrite (getitem_Some _ _ _ HMi). simpl.
  destruct (for_each_prefix
              (λ done st',
                 subsystems_step subsystem_i subsystem_j d st st'
                 ∧ (d = 0 → path_result st' subsystem_i subsystem_j 0
                            = path_result st subsystem_i subsystem_j 0
                              ∪ set_map (λ m, [m]) (list_to_set done ∩ Mj)))
              (elements Mi) (search_from limit subsystem_i subsystem_j d) st)
    as (st' & Hrun & Hstep & Hres).
  - split; [apply subsystems_step_refl|]. intros _. set_solver.
  - intros done m st1 [rest Hrest] [Hstep Hres].
    assert (Hm : m ∈ Mi).
    { apply elem_of_elements. rewrite Hrest. set_solver. }
    pose proof Hstep as (Hsetup & Hshapes & _).
    destruct (setup_fields _ _ Hsetup) as (_ & _ & Hnames & _ & Hmet & Hd' & _).
    destruct (search_from_step st1 m) as (st2 & Hrun & Hstep2 & Hres2);
      [by eapply ready_step|by rewrite Hnames|by rewrite Hnames|by rewrite Hd'|done
      |by rewrite Hmet|by rewrite Hmet|done|].
    exists st2. split; [done|]. split; [by eapply subsystems_step_trans|].
    intros Hd0. rewrite (Hres2 Hd0), (Hres Hd0). unfold found0.
    apply set_eq. intros p. rewrite !elem_of_union, !elem_of_map.
    case_decide; set_solver.
  - exists st'. split_and!; [done..|].
    intros Hd0. rewrite (Hres Hd0). by rewrite list_to_set_elements_L.
Qed.
End subsystems_call.

Section extracellular_search.
Variables (subsystem : string) (n : nat).
Variables (names : list string) (len : nat).
Hypothesis subsystem_known : subsystem ∈ names.

Lemma save_extracellular_edge_step path st k :
  n < len →
  slot_shape names len (_intermediate_extracellular_reactions_id st) →
  slot_shape names len (_intermediate_extracellular_metabolites_id st) →
  path_in_graph (_graph st) path → S k < length path →
  ∃ st', save_extracellular_edge path subsystem n st k = Ok st'
         ∧ extracellular_step subsystem n st st'
         ∧ _intermediate_extracellular_paths st' = _intermediate_extracellular_paths st.
Proof.
  intros Hn Hrxn Hmet Hpath Hk.
  destruct (lookup_lt_is_Some_2 path k) as [a Ha]; [lia|].
  destruct (lookup_lt_is_Some_2 path (S k)) as [b Hb]; [lia|].
  destruct (Hpath k a b Ha Hb) as [r Hr].
  unfold save_extracellular_edge. rewrite (getindex_Some _ _ _ Ha). simpl.
  rewrite Nat.add_1_r, (getindex_Some _ _ _ Hb). simpl.
  rewrite graph_rxn_id_edge_tag, Hr. simpl.
  destruct (update_slot_total (_intermediate_extracellular_reactions_id st) subsystem n
              (λ s, s ∪ {[r]}) names len) as [rs Hrs]; [done..|].
  rewrite Hrs. simpl.
  assert (Hframe : ∀ i' k', ¬ (i' = subsystem ∧ k' = n) →
            name_slot rs i' k' = name_slot (_intermediate_extracellular_reactions_id st) i' k').
  { intros i' k' Hne. rewrite (update_slot_slot _ _ _ _ _ i' k' Hrs). by rewrite decide_False. }
  assert (Htags : ∀ i' k' r', r' ∈ name_slot rs i' k' →
            r' ∈ name_slot (_intermediate_extracellular_reactions_id st) i' k'
            ∨ is_tag (_graph st) r').
  { intros i' k' r'. rewrite (update_slot_slot _ _ _ _ _ i' k' Hrs).
    case_decide as Heq; [|by left]. destruct Heq as (-> & ->).
    intros [?| ->%elem_of_singleton]%elem_of_union; [by left|right; by exists a, b]. }
  destruct (decide (0 < k)).
  - destruct (update_slot_total (_intermediate_extracellular_metabolites_id st) subsystem n
                (λ s, s ∪ {[a]}) names len) as [ms Hms]; [done..|].
    rewrite Hms. simpl. eexists. split; [done|]. split; [|done].
    split_and!; try done. split_and!; simpl; try done.
    + intros ??. by apply (update_slot_shape _ _ _ _ _ _ _ Hrs).
    + intros ??. by apply (update_slot_shape _ _ _ _ _ _ _ Hms).
  - eexists. split; [done|]. split; [|done].
    split_and!; try done. split_and!; simpl; try done.
    intros ??. by apply (update_slot_shape _ _ _ _ _ _ _ Hrs).
Qed.

Lemma retrieve_intermediate_extracellular_step st paths :
  n < len →
  slot_shape names len (_intermediate_extracellular_reactions_id st) →
  slot_shape names len (_intermediate_extracellular_metabolites_id st) →
  (∀ p, p ∈ paths → path_in_graph (_graph st) p) →
  ∃ st', retrieve_intermediate_extracellular_metabolites_and_reactions st paths subsystem n
           = Ok st'
         ∧ extracellular_step subsystem n st st'
         ∧ _intermediate_extracellular_paths st' = _intermediate_extracellular_paths st.
Proof.
  intros Hn Hrxn Hmet Hpaths.
  unfold retrieve_intermediate_extracellular_metabolites_and_reactions.
  set (I := λ st', extracellular_step subsystem n st st'
                   ∧ _intermediate_extracellular_paths st'
                     = _intermediate_extracellular_paths st).
  assert (Hedge : ∀ p k st1, p ∈ paths → k ∈ range (Z.of_nat (length p) - 1) → I st1 →
            ∃ st2, save_extracellular_edge p subsystem n st1 k = Ok st2 ∧ I st2).
  { intros p k st1 Hp Hk%elem_of_range [Hstep Hsame].
    pose proof Hstep as (Hsetup & (_ & _ & _ & _ & S5 & S6) & _).
    destruct (setup_fields _ _ Hsetup) as (_ & Hg & _).
    destruct (save_extracellular_edge_step p st1 k) as (st2 & Hrun & Hstep2 & Hsame2);
      [done|by apply S5|by apply S6|rewrite Hg; by apply Hpaths|lia|].
    exists st2. split; [done|]. split; [|congruence].
    by eapply extracellular_step_trans. }
  apply (for_each_total I); [|split; [apply extracellular_step_refl|done]].
  intros st1 p Hp Hst1. apply (for_each_total I); [|done].
  intros st2 k Hk Hst2. by apply Hedge.
Qed.

Lemma save_extracellular_paths_step limit metabolite_id ancestors st node level :
  n < len →
  slot_shape names len (_intermediate_extracellular_paths st) →
  slot_shape names len (_intermediate_extracellular_reactions_id st) →
  slot_shape names len (_intermediate_extracellular_metabolites_id st) →
  ranked ancestors metabolite_id level → level node < limit →
  node = metabolite_id ∨ node ∈ dom ancestors →
  (∀ t l a, ancestors !! t = Some l → a ∈ l → is_Some (edge_tag (_graph st) a t)) →
  ∃ st',
    save_extracellular_paths limit subsystem n metabolite_id ancestors st node = Ok st'
    ∧ extracellular_step subsystem n st st'.
Proof.
  intros Hn Hpth Hrxn Hmet Hranked Hlevel Hreach Hedge.
  destruct (retrieve_all_paths_top ancestors metabolite_id level Hranked limit node
              (_path_dict st) Hlevel Hreach) as (paths & pd & Hrun & Hpaths).
  unfold save_extracellular_paths. rewrite Hrun. simpl.
  destruct (update_slot_total (_intermediate_extracellular_paths st) subsystem n
              (λ s, s ∪ list_to_set paths) names len) as [ps Hps]; [done..|].
  rewrite Hps. simpl.
  destruct (retrieve_intermediate_extracellular_step
              (set_intermediate_extracellular_paths (set_path_dict st pd) ps) paths)
    as (st' & Hrun' & Hstep & Hsame); [done|done|done| |].
  { intros p Hp%Hpaths. simpl. by eapply consistent_path_in_graph. }
  exists st'. split; [done|].
  eapply extracellular_step_trans; [|done].
  split_and!; try done.
  - split_and!; simpl; try done.
    intros ??. by apply (update_slot_shape _ _ _ _ _ _ _ Hps).
  - intros. by left.
Qed.

(** Beyond the slots of the container, saving the paths to a node raises
    [IndexError]. *)
Lemma save_extracellular_paths_out limit metabolite_id ancestors st node level :
  len ≤ n →
  slot_shape names len (_intermediate_extracellular_paths st) →
  ranked ancestors metabolite_id level → level node < limit →
  node = metabolite_id ∨ node ∈ dom ancestors →
  save_extracellular_paths limit subsystem n metabolite_id ancestors st node
  = Raise IndexError.
Proof.
  intros Hn Hpth Hranked Hlevel Hreach.
  destruct (retrieve_all_paths_top ancestors metabolite_id level Hranked limit node
              (_path_dict st) Hlevel Hreach) as (paths & pd & Hrun & Hpaths).
  unfold save_extracellular_paths. rewrite Hrun. simpl.
  by rewrite (update_slot_out _ _ _ _ names len).
Qed.
End extracellular_search.

Section extracellular_call.
Variables (limit : nat) (subsystem : string) (n : nat).

Lemma find_extracellular_at_distance_total st e :
  ready st → extracellular_in_graph st →
  subsystem ∈ _subsystem_names st → e ∈ _extracellular_system st →
  ∃ ancestors frontier level,
    find_extracellular_at_distance st subsystem n e = Ok (ancestors, frontier)
    ∧ ranked ancestors e level
    ∧ (∀ t, t ∈ frontier → level t = n ∧ (t = e ∨ t ∈ dom ancestors))
    ∧ (∀ t l a, ancestors !! t = Some l → a ∈ l → is_Some (edge_tag (_graph st) a t)).
Proof.
  intros (_ & _ & _ & _ & _ & _ & Hclosed & Hnodes) Hextra Hsub He.
  destruct (Hnodes subsystem Hsub) as (M & HM & _).
  unfold find_extracellular_at_distance.
  destruct (search_total
              (λ node i explored,
                 is_node_allowed_extracellular st node i explored subsystem (Z.of_nat n))
              (_graph st) n e) as [[[ancestors frontier] explored] Hsearch];
    [intros; by apply is_node_allowed_extracellular_total|done|by apply Hextra|].
  rewrite Hsearch. simpl.
  apply search_search_inv in Hsearch as Hinv;
    [|intros ???; apply is_node_allowed_extracellular_fresh].
  destruct Hinv as (level & Hranked & Hfront & _ & Hexplored & Hsubset & Hedge).
  rewrite (in_subsystem_Ok _ _ _ _ HM). simpl.
  assert (Hfr : ∀ t, t ∈ frontier → level t = n ∧ (t = e ∨ t ∈ dom ancestors)).
  { intros t Ht. split; [by apply Hfront|]. set_solver. }
  destruct (bool_decide (n = 0)); simpl; [destruct (bool_decide (e ∈ M)); simpl|].
  all: eexists _, _, level; split_and!; [done|done| |done]; try done.
  all: intros t Ht; by apply elem_of_empty in Ht.
Qed.

Lemma extracellular_search_from_step st e :
  ready st → extracellular_in_graph st →
  subsystem ∈ _subsystem_names st → e ∈ _extracellular_system st →
  n < length (range (_d st + 1)) → n < limit →
  ∃ st', extracellular_search_from limit subsystem n st e = Ok st'
         ∧ extracellular_step subsystem n st st'.
Proof.
  intros Hready Hextra Hsub He Hn Hlimit.
  destruct (find_extracellular_at_distance_total st e Hready Hextra Hsub He)
    as (ancestors & frontier & level & Hfind & Hranked & Hfront & Hedge).
  destruct Hready as (_ & _ & _ & R4 & R5 & R6 & _).
  unfold extracellular_search_from. rewrite Hfind. simpl.
  apply (for_each_total (extracellular_step subsystem n st));
    [|apply extracellular_step_refl].
  intros st1 node Hnode%elem_of_elements Hst1.
  pose proof Hst1 as (Hsetup & (_ & _ & _ & S4 & S5 & S6) & _).
  destruct (setup_fields _ _ Hsetup) as (_ & Hg & _).
  destruct (Hfront node Hnode) as [Hlevel Hreach].
  destruct (save_extracellular_paths_step subsystem n (_subsystem_names st)
              (length (range (_d st + 1))) Hsub limit e ancestors st1 node level)
    as (st2 & Hrun & Hstep);
    [done|by apply S4|by apply S5|by apply S6|done|lia|done|by rewrite Hg|].
  exists st2. split; [done|]. by eapply extracellular_step_trans.
Qed.

(** Beyond the slots: the state is left as it is when nothing is found at
    that distance, [IndexError] is raised otherwise. *)
Lemma extracellular_search_from_out st e :
  ready st → extracellular_in_graph st →
  subsystem ∈ _subsystem_names st → e ∈ _extracellular_system st →
  length (range (_d st + 1)) ≤ n → n < limit →
  ∃ ancestors frontier,
    find_extracellular_at_distance st subsystem n e = Ok (ancestors, frontier)
    ∧ extracellular_search_from limit subsystem n st e
      = if decide (frontier = ∅) then Ok st else Raise IndexError.
Proof.
  intros Hready Hextra Hsub He Hn Hlimit.
  destruct (find_extracellular_at_distance_total st e Hready Hextra Hsub He)
    as (ancestors & frontier & level & Hfind & Hranked & Hfront & Hedge).
  destruct Hready as (_ & _ & _ & R4 & _).
  exists ancestors, frontier. split; [done|].
  unfold extracellular_search_from. rewrite Hfind. simpl.
  destruct (decide (frontier = ∅)) as [->|Hne]; [by rewrite elements_empty|].
  destruct (elements frontier) as [|node rest] eqn:Helems.
  { by apply elements_empty_inv, leibniz_equiv in Helems. }
  assert (Hnode : node ∈ frontier) by (apply elem_of_elements; rewrite Helems; set_solver).
  destruct (Hfront node Hnode) as [Hlevel Hreach]. simpl.
  by rewrite (save_extracellular_paths_out subsystem n (_subsystem_names st)
                (length (range (_d st + 1))) Hsub limit e ancestors st node level)
    by (done || lia).
Qed.

Lemma breadth_search_extracellular_step st :
  ready st → extracellular_in_graph st → subsystem ∈ _subsystem_names st →
  n < length (range (_d st + 1)) → n < limit →
  ∃ st', breadth_search_extracellular_system_paths limit st subsystem n = Ok st'
         ∧ extracellular_step subsystem n st st'.
Proof.
  intros Hready Hextra Hsub Hn Hlimit.
  unfold breadth_search_extracellular_system_paths.
  apply (for_each_total (extracellular_step subsystem n st));
    [|apply extracellular_step_refl].
  intros st1 e He Hst1.
  pose proof Hst1 as (Hsetup & Hshapes & _).
  destruct (setup_fields _ _ Hsetup) as (_ & Hg & Hnames & _ & _ & Hd & Hext & _).
  destruct (extracellular_search_from_step st1 e) as (st2 & Hrun & Hstep).
  - by eapply ready_step.
  - intros x. rewrite Hext, Hg. apply Hextra.
  - by rewrite Hnames.
  - by rewrite Hext.
  - by rewrite Hd.
  - done.
  - exists st2. split; [done|]. by eapply extracellular_step_trans.
Qed.

(** A call beyond the slots leaves the state as it is or raises
    [IndexError]; it raises when something is found at that distance from
    one of the extracellular metabolites. *)
Lemma breadth_search_extracellular_out st :
  ready st → extracellular_in_graph st → subsystem ∈ _subsystem_names st →
  length (range (_d st + 1)) ≤ n → n < limit →
  (breadth_search_extracellular_system_paths limit st subsystem n = Ok st
   ∨ breadth_search_extracellular_system_paths limit st subsystem n = Raise IndexError)
  ∧ ((∃ e ancestors frontier,
        e ∈ _extracellular_system st
        ∧ find_extracellular_at_distance st subsystem n e = Ok (ancestors, frontier)
        ∧ frontier ≠ ∅) →
     breadth_search_extracellular_system_paths limit st subsystem n = Raise IndexError).
Proof.
  intros Hready Hextra Hsub Hn Hlimit.
  unfold breadth_search_extracellular_system_paths.
  destruct (for_each_raise (λ s, s = st) IndexError (_extracellular_system st)
              (extracellular_search_from limit subsystem n) st) as (Hrun & Hraise & _);
    [|done|].
  - intros s e He ->.
    destruct (extracellular_search_from_out st e Hready Hextra Hsub He Hn Hlimit)
      as (ancestors & frontier & _ & ->).
    case_decide; [left; by exists st|by right].
  - split.
    + destruct Hrun as [(s' & Hrun & ->)|Hrun]; [by left|by right].
    + intros (e & ancestors & frontier & He & Hfind & Hne). apply Hraise.
      exists e. split; [done|]. intros s ->.
      destruct (extracellular_search_from_out st e Hready Hextra Hsub He Hn Hlimit)
        as (ancestors' & frontier' & Hfind' & ->).
      rewrite decide_False; [done|congruence].
Qed.
End extracellular_call.

(** ** What a search that returns has changed *)

Lemma graph_rxn_id_is_tag g a b r : graph_rxn_id g a b = Ok r → is_tag g r.
Proof.
  rewrite graph_rxn_id_edge_tag. destruct (edge_tag g a b) eqn:Hr; [|done].
  intros [= <-]. by exists a, b.
Qed.

Lemma save_edge_changes path i j d st k st' :
  save_edge path i j d st k = Ok st' → subsystems_step i j d st st'.
Proof.
  unfold save_edge.
  intros (a & _ & (b & _ & (r & Hr%graph_rxn_id_is_tag
            & (rs & Hrs & Hrest)%bind_Ok)%bind_Ok)%bind_Ok)%bind_Ok.
  assert (Htags : ∀ i' j' k' r', r' ∈ pair_slot rs i' j' k' →
            r' ∈ pair_slot (_intermediate_reactions_id st) i' j' k' ∨ is_tag (_graph st) r').
  { intros i' j' k' r'. rewrite (update_pair_slot _ _ _ _ _ _ i' j' k' Hrs).
    destruct (decide (i' = i ∧ j' = j ∧ k' = d)) as [(-> & -> & ->)|]; [|intros; by left].
    intros [?| ->%elem_of_singleton]%elem_of_union; [by left|by right]. }
  destruct (decide (0 < k)).
  - apply bind_Ok in Hrest as (ms & Hms & [= <-]).
    split_and!; try done. split_and!; simpl; try done.
    + intros ??. by apply (update_pair_shape _ _ _ _ _ _ _ _ Hrs).
    + intros ??. by apply (update_pair_shape _ _ _ _ _ _ _ _ Hms).
  - injection Hrest as <-.
    split_and!; try done. split_and!; simpl; try done.
    intros ??. by apply (update_pair_shape _ _ _ _ _ _ _ _ Hrs).
Qed.

Lemma retrieve_intermediate_changes st paths i j d st' :
  retrieve_intermediate_metabolites_and_reactions st paths i j d = Ok st' →
  subsystems_step i j d st st'.
Proof.
  apply (for_each_invariant (subsystems_step i j d st)); [|apply subsystems_step_refl].
  intros st1 p st2 _ Hst1.
  apply (for_each_invariant (subsystems_step i j d st)); [|done].
  intros st3 k st4 _ Hst3 Hrun%save_edge_changes. by eapply subsystems_step_trans.
Qed.

Lemma save_paths_changes limit i j d m ancestors st node st' :
  save_paths limit i j d m ancestors st node = Ok st' → subsystems_step i j d st st'.
Proof.
  unfold save_paths.
  intros ([paths pd] & _ & (ps & Hps & Hrun%retrieve_intermediate_changes)%bind_Ok)%bind_Ok.
  eapply subsystems_step_trans; [|done].
  split_and!; try done.
  - split_and!; simpl; try done.
    intros ??. by apply (update_pair_shape _ _ _ _ _ _ _ _ Hps).
  - intros i' j' k' Hne. unfold path_result. simpl.
    rewrite (update_pair_slot _ _ _ _ _ _ i' j' k' Hps). by rewrite decide_False.
  - intros. by left.
Qed.

Lemma breadth_search_subsystems_changes limit st i j d st' :
  breadth_search_subsystems_paths_length_d limit st i j d = Ok st' →
  subsystems_step i j d st st'.
Proof.
  unfold breadth_search_subsystems_paths_length_d.
  intros (sources & _ & Hrun)%bind_Ok. revert Hrun.
  apply (for_each_invariant (subsystems_step i j d st)); [|apply subsystems_step_refl].
  intros st1 m st2 _ Hst1. unfold search_from.
  intros ([ancestors frontier] & _ & Hrun)%bind_Ok. revert Hrun.
  apply (for_each_invariant (subsystems_step i j d st)); [|done].
  intros st3 node st4 _ Hst3 Hrun%save_paths_changes. by eapply subsystems_step_trans.
Qed.

Lemma save_extracellular_edge_changes path i n st k st' :
  save_extracellular_edge path i n st k = Ok st' → extracellular_step i n st st'.
Proof.
  unfold save_extracellular_edge.
  intros (a & _ & (b & _ & (r & Hr%graph_rxn_id_is_tag
            & (rs & Hrs & Hrest)%bind_Ok)%bind_Ok)%bind_Ok)%bind_Ok.
  assert (Hframe : ∀ i' k', ¬ (i' = i ∧ k' = n) →
            name_slot rs i' k' = name_slot (_intermediate_extracellular_reactions_id st) i' k').
  { intros i' k' Hne. rewrite (update_slot_slot _ _ _ _ _ i' k' Hrs). by rewrite decide_False. }
  assert (Htags : ∀ i' k' r', r' ∈ name_slot rs i' k' →
            r' ∈ name_slot (_intermediate_extracellular_reactions_id st) i' k'
            ∨ is_tag (_graph st) r').
  { intros i' k' r'. rewrite (update_slot_slot _ _ _ _ _ i' k' Hrs).
    destruct (decide (i' = i ∧ k' = n)) as [(-> & ->)|]; [|intros; by left].
    intros [?| ->%elem_of_singleton]%elem_of_union; [by left|by right]. }
  destruct (decide (0 < k)).
  - apply bind_Ok in Hrest as (ms & Hms & [= <-]).
    split_and!; try done. split_and!; simpl; try done.
    + intros ??. by apply (update_slot_shape _ _ _ _ _ _ _ Hrs).
    + intros ??. by apply (update_slot_shape _ _ _ _ _ _ _ Hms).
  - injection Hrest as <-.
    split_and!; try done. split_and!; simpl; try done.
    intros ??. by apply (update_slot_shape _ _ _ _ _ _ _ Hrs).
Qed.

Lemma retrieve_intermediate_extracellular_changes st paths i n st' :
  retrieve_intermediate_extracellular_metabolites_and_reactions st paths i n = Ok st' →
  extracellular_step i n st st'.
Proof.
  apply (for_each_invariant (extracellular_step i n st)); [|apply extracellular_step_refl].
  intros st1 p st2 _ Hst1.
  apply (for_each_invariant (extracellular_step i n st)); [|done].
  intros st3 k st4 _ Hst3 Hrun%save_extracellular_edge_changes.
  by eapply extracellular_step_trans.
Qed.

Lemma save_extracellular_paths_changes limit i n m ancestors st node st' :
  save_extracellular_paths limit i n m ancestors st node = Ok st' →
  extracellular_step i n st st'
  ∧ n < length (default [] (_intermediate_extracellular_paths st !! i)).
Proof.
  unfold save_extracellular_paths.
  intros ([paths pd] & _
          & (ps & Hps & Hrun%retrieve_intermediate_extracellular_changes)%bind_Ok)%bind_Ok.
  split.
  - eapply extracellular_step_trans; [|done].
    split_and!; try done.
    + split_and!; simpl; try done.
      intros ??. by apply (update_slot_shape _ _ _ _ _ _ _ Hps).
    + intros. by left.
  - simpl in Hps. unfold update_slot in Hps.
    apply bind_Ok in Hps as (l & Hl%getitem_Ok & (x & Hx%getindex_Ok & _)%bind_Ok).
    rewrite Hl. simpl. by eapply lookup_lt_Some.
Qed.

Lemma breadth_search_extracellular_changes limit st i n st' :
  breadth_search_extracellular_system_paths limit st i n = Ok st' →
  extracellular_step i n st st'.
Proof.
  unfold breadth_search_extracellular_system_paths.
  apply (for_each_invariant (extracellular_step i n st)); [|apply extracellular_step_refl].
  intros st1 m st2 _ Hst1. unfold extracellular_search_from.
  intros ([ancestors frontier] & _ & Hrun)%bind_Ok. revert Hrun.
  apply (for_each_invariant (extracellular_step i n st)); [|done].
  intros st3 node st4 _ Hst3 [Hrun _]%save_extracellular_paths_changes.
  by eapply extracellular_step_trans.
Qed.

(** ** The constructor and the graph builder, as the driver finds them *)

Lemma lookup_fresh_dict {V} (names : list string) (v : V) i :
  foldl (λ m name, <[name := v]> m) (∅ : gmap string V) names !! i
  = if decide (i ∈ names) then Some v else None.
Proof.
  induction names as [|name names IH] using rev_ind; [done|].
  rewrite foldl_app. simpl. destruct (decide (i = name)) as [->|Hne].
  - rewrite lookup_insert_eq. rewrite decide_True; [done|set_solver].
  - rewrite lookup_insert_ne by done. rewrite IH.
    repeat case_decide; try done; set_solver.
Qed.

Section fresh_containers.
Context `{Countable A}.

Lemma dict_of_lists_of_sets_shape (names : list string) (d : Z) :
  slot_shape names (length (range (d + 1))) (@dict_of_lists_of_sets A _ _ names d).
Proof.
  intros i Hi. unfold dict_of_lists_of_sets. rewrite lookup_fresh_dict, decide_True by done.
  eexists. split; [done|]. by rewrite length_replicate.
Qed.

Lemma dict_of_lists_of_sets_empty (names : list string) (d : Z) i k :
  name_slot (@dict_of_lists_of_sets A _ _ names d) i k = ∅.
Proof.
  unfold name_slot, dict_of_lists_of_sets. rewrite lookup_fresh_dict.
  case_decide; [|done]. simpl.
  destruct (replicate _ _ !! k) as [x|] eqn:Hx; [|done].
  by apply lookup_replicate in Hx as [-> _].
Qed.

Lemma dict_of_dicts_of_lists_of_sets_shape (names : list string) (d : Z) :
  pair_shape names (length (range (d + 1))) (@dict_of_dicts_of_lists_of_sets A _ _ names d).
Proof.
  intros i j Hi Hj. unfold dict_of_dicts_of_lists_of_sets.
  rewrite lookup_fresh_dict, decide_True by done.
  destruct (dict_of_lists_of_sets_shape names d j Hj) as (l & Hl & Hlen).
  by eexists _, _.
Qed.

Lemma dict_of_dicts_of_lists_of_sets_empty (names : list string) (d : Z) i j k :
  pair_slot (@dict_of_dicts_of_lists_of_sets A _ _ names d) i j k = ∅.
Proof.
  unfold pair_slot, dict_of_dicts_of_lists_of_sets. rewrite lookup_fresh_dict.
  case_decide; [|done]. simpl. apply dict_of_lists_of_sets_empty.
Qed.
End fresh_containers.

Lemma dict_of_dicts_of_int_sentinel (names : list string) i j :
  i ∈ names → j ∈ names → min_distance (dict_of_dicts_of_int names) i j = Some (-1)%Z.
Proof.
  intros Hi Hj. unfold min_distance, dict_of_dicts_of_int, dict_of_int.
  rewrite lookup_fresh_dict, decide_True by done. simpl.
  by rewrite lookup_fresh_dict, decide_True.
Qed.

(** The graph builder keeps the graph closed, and the tags it writes are
    reaction identifiers of the network. *)
Lemma graph_closed_empty : graph_closed ∅.
Proof. intros u a v Hu. by rewrite lookup_empty in Hu. Qed.

Lemma graph_closed_add_node g u : graph_closed g → graph_closed (add_node g u).
Proof.
  intros Hg. unfold add_node. destruct (g !! u) eqn:Hu; [done|].
  intros x a v. destruct (decide (x = u)) as [->|Hne].
  - rewrite lookup_insert_eq. intros [= <-]. set_solver.
  - rewrite lookup_insert_ne by done. intros Hx Hv.
    rewrite dom_insert_L. apply elem_of_union_r. by eapply Hg.
Qed.

Lemma graph_closed_add_edge g u v t : graph_closed g → graph_closed (add_edge g u v t).
Proof.
  intros Hg. pose proof (dom_add_edge g u v t) as Hdom. unfold add_edge in *.
  set (g' := add_node (add_node g u) v) in *.
  assert (Hg' : graph_closed g') by by do 2 apply graph_closed_add_node.
  assert (Hv : v ∈ dom g').
  { unfold g'. rewrite !dom_add_node. set_solver. }
  intros x a y. destruct (decide (x = u)) as [->|Hne].
  - rewrite lookup_insert_eq. intros [= <-]. rewrite dom_insert. intros [Hy|Hy]%elem_of_union.
    + apply elem_of_singleton in Hy as ->. rewrite dom_insert_L. set_solver.
    + rewrite dom_insert_L. apply elem_of_union_r.
      destruct (g' !! u) as [a|] eqn:Hu; simpl in Hy; [by eapply Hg'|set_solver].
  - rewrite lookup_insert_ne by done. intros Hx Hy.
    rewrite dom_insert_L. apply elem_of_union_r. by eapply Hg'.
Qed.

Lemma graph_closed_add_rxn_edges g r : graph_closed g → graph_closed (add_rxn_edges g r).
Proof.
  unfold add_rxn_edges. generalize (reactants r) as us. intros us. revert g.
  induction us as [|u us IH]; intros g Hg; simpl; [done|]. apply IH.
  generalize (products r) as vs. intros vs. revert g Hg.
  induction vs as [|v vs IHv]; intros g Hg; simpl; [done|].
  by apply IHv, graph_closed_add_edge.
Qed.

Lemma create_new_stoichiometric_matrix_closed st :
  graph_closed (_graph st) → graph_closed (_graph (create_new_stoichiometric_matrix st)).
Proof.
  intros Hg. simpl.
  assert (Hnodes : graph_closed (foldl add_node (_graph st) (elements (kept_metabolites st)))).
  { revert Hg. generalize (_graph st) as g.
    generalize (elements (kept_metabolites st)) as ms.
    induction ms as [|m ms IH]; intros g Hg; simpl; [done|].
    by apply IH, graph_closed_add_node. }
  revert Hnodes. clear Hg.
  generalize (foldl add_node (_graph st) (elements (kept_metabolites st))) as g.
  generalize (kept_rxns st) as rs.
  induction rs as [|r rs IH]; intros g Hg; simpl; [done|].
  by apply IH, graph_closed_add_rxn_edges.
Qed.

Lemma create_new_stoichiometric_matrix_nodes st :
  kept_metabolites st ⊆ dom (_graph (create_new_stoichiometric_matrix st)).
Proof.
  simpl. etrans; [|apply dom_foldl_add_rxn_edges].
  rewrite dom_foldl_add_node, list_to_set_elements_L. set_solver.
Qed.

Lemma create_new_stoichiometric_matrix_tags st r :
  is_tag (_graph (create_new_stoichiometric_matrix st)) r →
  is_tag (_graph st) r ∨ r ∈ all_reactions st.
Proof.
  intros (a & b & Hr). simpl in Hr. unfold all_reactions.
  assert (Hnodes : ∀ ms g, edge_tag (foldl add_node g ms) a b = edge_tag g a b).
  { induction ms as [|m ms IH]; intros g; simpl; [done|]. by rewrite IH, edge_tag_add_node. }
  assert (Hrxns : ∀ rs g, edge_tag (foldl add_rxn_edges g rs) a b = Some r →
            edge_tag g a b = Some r ∨ r ∈ rxn_id <$> rs).
  { induction rs as [|r0 rs IH]; intros g; simpl; [by left|].
    intros [Hr0|Hr0]%IH; [|right; set_solver].
    rewrite edge_tag_add_rxn_edges in Hr0. case_decide; [|by left].
    injection Hr0 as <-. right. set_solver. }
  apply Hrxns in Hr as [Hr|Hr].
  - left. exists a, b. by rewrite Hnodes in Hr.
  - right. rewrite elem_of_list_to_set. unfold kept_rxns in Hr.
    by rewrite <- list_fmap_compose in Hr.
Qed.

(** ** What the driver changes *)

Lemma setup_config st st' : setup st' = setup st → config st' = config st.
Proof. unfold setup, config. intros [= ]. congruence. Qed.

Lemma config_fields st st' :
  config st' = config st →
  _gem st' = _gem st ∧ _graph st' = _graph st
  ∧ _subsystem_names st' = _subsystem_names st
  ∧ _d st' = _d st ∧ _extracellular_system st' = _extracellular_system st
  ∧ _n st' = _n st ∧ _redgem st' = _redgem st.
Proof. unfold config. intros [= ]. by split_and!. Qed.

Lemma driver_step_refl st : driver_step st st.
Proof. split_and!; [done|apply shapes_kept_refl|by left..|done|by left]. Qed.

Lemma driver_step_trans st1 st2 st3 :
  driver_step st1 st2 → driver_step st2 st3 → driver_step st1 st3.
Proof.
  intros (H1 & H2 & H3 & H4 & H5 & H6) (K1 & K2 & K3 & K4 & K5 & K6).
  destruct (config_fields _ _ H1) as (Hgem & Hg & _ & _ & _ & Hn & _).
  split_and!; [congruence|by eapply shapes_kept_trans|..].
  - intros i j k r [Hr|Hr]%K3; [by apply H3|right; by rewrite <- Hg].
  - intros i k r [Hr|Hr]%K4; [by apply H4|right; by rewrite <- Hg].
  - intros i k Hk. rewrite K5, H5; [done..|]. by rewrite Hn.
  - intros name r [Hr|Hr]%K6; [by apply H6|right].
    unfold all_reactions in *. by rewrite <- Hgem.
Qed.

Lemma subsystems_step_driver i j d st st' : subsystems_step i j d st st' → driver_step st st'.
Proof.
  intros (H1 & H2 & H3 & H4 & H5 & H6 & H7).
  destruct (setup_fields _ _ H1) as (_ & _ & _ & Hrid & _).
  split_and!; [by apply setup_config|done|done|..].
  - intros i' k r. unfold extracellular_reactions. rewrite H4. by left.
  - intros i' k _. unfold extracellular_reactions. by rewrite H4.
  - intros name r. unfold subsystem_reactions. rewrite Hrid. by left.
Qed.

Lemma extracellular_step_driver i k st st' :
  k < length (range (_n st + 1)) → extracellular_step i k st st' → driver_step st st'.
Proof.
  intros Hk (H1 & H2 & H3 & H4 & H5 & H6 & H7).
  destruct (setup_fields _ _ H1) as (_ & _ & _ & Hrid & _).
  split_and!; [by apply setup_config|done|..|done| |].
  - intros i' j' k' r. unfold intermediate_reactions. rewrite H4. by left.
  - intros i' k' Hk'. apply H6. lia.
  - intros name r. unfold subsystem_reactions. rewrite Hrid. by left.
Qed.

(** A run of the two loops of [run_between_all_subsystems] and of
    [run_extracellular_system] that returns is a step of the driver. *)
Lemma extract_subsystem_driver st name st' :
  extract_subsystem_metabolites (extract_subsystem_reactions st name) name = Ok st' →
  driver_step st st'.
Proof.
  unfold extract_subsystem_metabolites.
  intros (rxns & _ & [= <-])%bind_Ok.
  split_and!; [done|by split_and!|by left..|done|].
  intros name' r. unfold subsystem_reactions. simpl.
  destruct (decide (name' = name)) as [->|Hne].
  - rewrite lookup_insert_eq. simpl. rewrite elem_of_list_to_set.
    intros (rxn & -> & [_ Hrxn]%list_elem_of_filter)%list_elem_of_fmap. right.
    unfold all_reactions. rewrite elem_of_list_to_set. by apply list_elem_of_fmap_2.
  - rewrite lookup_insert_ne by done. by left.
Qed.

Lemma run_between_all_subsystems_driver limit st st' :
  run_between_all_subsystems limit st = Ok st' → driver_step st st'.
Proof.
  unfold run_between_all_subsystems. intros (st1 & Hextract & Hrun)%bind_Ok.
  assert (H1 : driver_step st st1).
  { revert Hextract. apply for_each_invariant; [|apply driver_step_refl].
    intros s name s' _ Hs Hrun'%extract_subsystem_driver. by eapply driver_step_trans. }
  revert Hrun. apply for_each_invariant; [|done].
  intros s1 i s1' _ Hs1. apply for_each_invariant; [|done].
  intros s2 j s2' _ Hs2. apply for_each_invariant; [|done].
  intros s3 k s3' _ Hs3 Hrun%breadth_search_subsystems_changes%subsystems_step_driver.
  by eapply driver_step_trans.
Qed.

Lemma run_extracellular_system_driver limit st st' :
  run_extracellular_system limit st = Ok st' → driver_step st st'.
Proof.
  unfold run_extracellular_system.
  apply for_each_invariant; [|apply driver_step_refl].
  intros s1 i s1' _ Hs1.
  destruct (config_fields _ _ (proj1 Hs1)) as (_ & _ & _ & _ & _ & Hn1 & _).
  apply for_each_invariant; [|done].
  intros s2 k s2' Hk Hs2 Hrun%breadth_search_extracellular_changes.
  destruct (config_fields _ _ (proj1 Hs2)) as (_ & _ & _ & _ & _ & Hn2 & _).
  eapply driver_step_trans; [done|].
  eapply extracellular_step_driver; [|done].
  unfold range in *. rewrite length_seq. apply elem_of_seq in Hk. rewrite Hn2, <- Hn1. lia.
Qed.

(** ** The pruner *)

(** A loop that subtracts from a pair of sets. *)
Lemma for_each_removed {A} (l : list A)
    (body : gset string * gset string → A → res (gset string * gset string))
    (gm gr : A → gset string) acc result :
  (∀ x m r result, x ∈ l → body (m, r) x = Ok result → result = (m ∖ gm x, r ∖ gr x)) →
  for_each l body acc = Ok result →
  result = (acc.1 ∖ ⋃ (gm <$> l), acc.2 ∖ ⋃ (gr <$> l)).
Proof.
  revert acc. induction l as [|x l IH]; intros [m r] Hbody; simpl.
  - intros [= <-]. f_equal; set_solver.
  - intros (acc1 & Hx & Hrest)%bind_Ok.
    apply Hbody in Hx as ->; [|by left].
    apply IH in Hrest as ->; [|intros; eapply Hbody; [by right|done]].
    simpl. f_equal; set_solver.
Qed.

Lemma getindex_pair_slot `{Countable A} (c : gmap string (gmap string (list (gset A))))
    i j k ci cij (x : gset A) :
  getitem c i = Ok ci → getitem ci j = Ok cij → getindex cij k = Ok x → x = pair_slot c i j k.
Proof.
  intros Hi%getitem_Ok Hj%getitem_Ok Hk%getindex_Ok.
  unfold pair_slot. rewrite Hi. simpl. rewrite Hj. simpl. by rewrite Hk.
Qed.

Lemma getindex_name_slot `{Countable A} (c : gmap string (list (gset A))) i k ci (x : gset A) :
  getitem c i = Ok ci → getindex ci k = Ok x → x = name_slot c i k.
Proof.
  intros Hi%getitem_Ok Hk%getindex_Ok. unfold name_slot. rewrite Hi. simpl. by rewrite Hk.
Qed.

(** What [extract_sub_network] computes when it returns: the set of
    reactions to remove is the set of all reactions minus the reaction sets
    of the subsystems, minus the intermediate reactions of all pairs at the
    depths of [range(d+1)], minus the extracellular intermediate reactions of
    all subsystems at the depths of [range(d+1)]; the working copy is the
    only attribute that changes. *)
Lemma extract_sub_network_removed st st' to_remove_metabolites to_remove_reactions :
  extract_sub_network st = Ok (st', (to_remove_metabolites, to_remove_reactions)) →
  st' = set_redgem st (remove_reactions (_redgem st) to_remove_reactions true)
  ∧ to_remove_reactions =
      all_reactions st
      ∖ ⋃ (subsystem_reactions st <$> _subsystem_names st)
      ∖ ⋃ ((λ i, ⋃ ((λ j, ⋃ (intermediate_reactions st i j <$> range (_d st + 1)))
                      <$> _subsystem_names st))
             <$> _subsystem_names st)
      ∖ ⋃ ((λ i, ⋃ (extracellular_reactions st i <$> range (_d st + 1)))
             <$> _subsystem_names st).
Proof.
  unfold extract_sub_network.
  intros ([m1 r1] & H1 & ([m2 r2] & H2 & ([m3 r3] & H3 & [= <- <- <-])%bind_Ok)%bind_Ok)%bind_Ok.
  split; [done|].
  apply (for_each_removed _ _
           (λ name, default ∅ (_subsystem_metabolites_id st !! name))
           (subsystem_reactions st)) in H1.
  2:{ intros name m r result _ (rs & Hrs%getitem_Ok & (ms & Hms%getitem_Ok & [= <-])%bind_Ok)%bind_Ok.
      unfold subsystem_reactions. by rewrite Hrs, Hms. }
  apply (for_each_removed _ _
           (λ i, ⋃ ((λ j, ⋃ (pair_slot (_intermediate_metabolites_id st) i j
                              <$> range (_d st + 1))) <$> _subsystem_names st))
           (λ i, ⋃ ((λ j, ⋃ (intermediate_reactions st i j <$> range (_d st + 1)))
                      <$> _subsystem_names st))) in H2.
  2:{ intros i m r result _ Hi.
      apply (for_each_removed _ _
               (λ j, ⋃ (pair_slot (_intermediate_metabolites_id st) i j <$> range (_d st + 1)))
               (λ j, ⋃ (intermediate_reactions st i j <$> range (_d st + 1)))) in Hi; [done|].
      intros j m' r' result' _ Hj.
      apply (for_each_removed _ _
               (pair_slot (_intermediate_metabolites_id st) i j)
               (intermediate_reactions st i j)) in Hj; [done|].
      intros k m'' r'' result'' _
        (ri & Hri & (rij & Hrij & (rs & Hrs & (mi & Hmi & (mij & Hmij
           & (ms & Hms & [= <-])%bind_Ok)%bind_Ok)%bind_Ok)%bind_Ok)%bind_Ok)%bind_Ok.
      unfold intermediate_reactions.
      by rewrite (getindex_pair_slot _ _ _ _ _ _ _ Hri Hrij Hrs),
                 (getindex_pair_slot _ _ _ _ _ _ _ Hmi Hmij Hms). }
  apply (for_each_removed _ _
           (λ i, ⋃ (name_slot (_intermediate_extracellular_metabolites_id st) i
                      <$> range (_d st + 1)))
           (λ i, ⋃ (extracellular_reactions st i <$> range (_d st + 1)))) in H3.
  2:{ intros i m r result _ Hi.
      apply (for_each_removed _ _
               (name_slot (_intermediate_extracellular_metabolites_id st) i)
               (extracellular_reactions st i)) in Hi; [done|].
      intros k m' r' result' _
        (ri & Hri & (rs & Hrs & (mi & Hmi & (ms & Hms & [= <-])%bind_Ok)%bind_Ok)%bind_Ok)%bind_Ok.
      unfold extracellular_reactions.
      by rewrite (getindex_name_slot _ _ _ _ _ Hri Hrs), (getindex_name_slot _ _ _ _ _ Hmi Hms). }
  simpl in *. injection H1 as -> ->. injection H2 as -> ->. injection H3 as -> ->.
  done.
Qed.

(** ** The whole run: what is pruned (C3, C7) *)

Lemma elem_of_union_list_fmap {A} (f : A → gset string) (l : list A) r :
  r ∈ ⋃ (f <$> l) ↔ ∃ x, x ∈ l ∧ r ∈ f x.
Proof.
  rewrite elem_of_union_list. split.
  - intros (X & (x & -> & Hx)%list_elem_of_fmap & Hr). by exists x.
  - intros (x & Hx & Hr). exists (f x). split; [|done]. by apply list_elem_of_fmap_2.
Qed.

Lemma union_list_fmap_same {A} (f : A → gset string) (l1 l2 : list A) :
  (∀ x, x ∈ l1 ↔ x ∈ l2) → ⋃ (f <$> l1) = ⋃ (f <$> l2).
Proof.
  intros Hsame. apply set_eq. intros r. rewrite !elem_of_union_list_fmap.
  split; intros (x & Hx & Hr); exists x; (split; [by apply Hsame|done]).
Qed.

Lemma union_list_fmap_ext {A} (f g : A → gset string) (l : list A) :
  (∀ x, x ∈ l → f x = g x) → ⋃ (f <$> l) = ⋃ (g <$> l).
Proof.
  intros Hext. apply set_eq. intros r. rewrite !elem_of_union_list_fmap.
  split; intros (x & Hx & Hr); exists x; (split; [done|]).
  - by rewrite <- Hext.
  - by rewrite Hext.
Qed.

(** The first loop of [run_between_all_subsystems] stores, for every listed
    subsystem, the identifiers of the reactions that carry its tag. *)
Lemma extract_all_subsystems_reactions st st1 :
  extract_all_subsystems st = Ok st1 →
  ∀ name, name ∈ _subsystem_names st →
    _subsystem_reactions_id st1 !! name = Some (reactions_of st name).
Proof.
  intros Hrun.
  destruct (for_each_establish (λ s, _gem s = _gem st)
              (λ s s', ∀ name,
                 _subsystem_reactions_id s !! name = Some (reactions_of st name) →
                 _subsystem_reactions_id s' !! name = Some (reactions_of st name))
              (λ name s, _subsystem_reactions_id s !! name = Some (reactions_of st name))
              (_subsystem_names st)
              (λ st subsystem,
                 extract_subsystem_metabolites (extract_subsystem_reactions st subsystem)
                   subsystem) st)
    as (st1' & Hrun' & _ & _ & HQ); [naive_solver|naive_solver|naive_solver| |done|].
  - intros s name _ Hgem. unfold extract_subsystem_metabolites. simpl.
    rewrite (getitem_Some _ _ _ (lookup_insert_eq _ _ _)). simpl.
    eexists. split; [done|]. simpl. split; [done|]. split.
    + intros name' Hsome. destruct (decide (name' = name)) as [->|Hne].
      * rewrite lookup_insert_eq. unfold reactions_of. by rewrite Hgem.
      * by rewrite lookup_insert_ne.
    + rewrite lookup_insert_eq. unfold reactions_of. by rewrite Hgem.
  - unfold extract_all_subsystems in Hrun. assert (st1' = st1) as -> by congruence. done.
Qed.

(** The searches of the driver leave the setup as it is. *)
Lemma search_all_pairs_setup limit st st' :
  search_all_pairs limit st = Ok st' → setup st' = setup st.
Proof.
  unfold search_all_pairs.
  apply (for_each_invariant (λ s, setup s = setup st)); [|done].
  intros s1 i s1' _ Hs1. apply (for_each_invariant (λ s, setup s = setup st)); [|done].
  intros s2 j s2' _ Hs2. apply (for_each_invariant (λ s, setup s = setup st)); [|done].
  intros s3 k s3' _ Hs3 [Hsetup _]%breadth_search_subsystems_changes. congruence.
Qed.

Lemma run_extracellular_system_setup limit st st' :
  run_extracellular_system limit st = Ok st' → setup st' = setup st.
Proof.
  unfold run_extracellular_system.
  apply (for_each_invariant (λ s, setup s = setup st)); [|done].
  intros s1 i s1' _ Hs1. apply (for_each_invariant (λ s, setup s = setup st)); [|done].
  intros s2 k s2' _ Hs2 [Hsetup _]%breadth_search_extracellular_changes. congruence.
Qed.

(** When the core subsystems are the listed subsystems and the stored
    reaction sets are the sets of the tagged reactions, the retained set in
    the words of the specification is the retained set of the listed
    subsystems. *)
Lemma core_retained_reactions_names st :
  (∀ name, name ∈ _core_subsystems st ↔ name ∈ _subsystem_names st) →
  (∀ name, name ∈ _subsystem_names st → subsystem_reactions st name = reactions_of st name) →
  core_retained_reactions st = retained_reactions st.
Proof.
  intros Hsame Hstored. unfold core_retained_reactions, retained_reactions.
  rewrite (union_list_fmap_same (reactions_of st) _ _ Hsame).
  rewrite (union_list_fmap_ext (reactions_of st) (subsystem_reactions st));
    [|intros name Hname; symmetry; by apply Hstored].
  rewrite (union_list_fmap_same
             (λ i, ⋃ ((λ j, ⋃ (intermediate_reactions st i j <$> range (_d st + 1)))
                        <$> _core_subsystems st)) _ _ Hsame).
  rewrite (union_list_fmap_ext
             (λ i, ⋃ ((λ j, ⋃ (intermediate_reactions st i j <$> range (_d st + 1)))
                        <$> _core_subsystems st))
             (λ i, ⋃ ((λ j, ⋃ (intermediate_reactions st i j <$> range (_d st + 1)))
                        <$> _subsystem_names st)));
    [|intros i _; by apply union_list_fmap_same].
  by rewrite (union_list_fmap_same
                (λ i, ⋃ (extracellular_reactions st i <$> range (_n st + 1))) _ _ Hsame).
Qed.

Section run_outcome.
Variables (gem : Model) (core_subsystems cofactor_pairs small_metabolites inorganics : list string).
Variables (d : Z) (extracellular_system subsystem_names : list string) (n : Z).

Let st0 : RedGEM :=
  __init__ gem core_subsystems cofactor_pairs small_metabolites inorganics d
    extracellular_system subsystem_names n.

(** The state in which [run] calls [extract_sub_network]. *)
Lemma run_before_pruning limit st' out :
  run limit st0 = Ok (st', out) →
  ∃ st3, extract_sub_network st3 = Ok (st', out)
         ∧ driver_step (create_new_stoichiometric_matrix st0) st3.
Proof.
  unfold run. intros (st2 & H2 & (st3 & H3 & Hout)%bind_Ok)%bind_Ok.
  exists st3. split; [done|].
  eapply driver_step_trans.
  - by eapply run_between_all_subsystems_driver.
  - by eapply run_extracellular_system_driver.
Qed.

Lemma run_outcome limit st' to_remove_metabolites to_remove_reactions :
  run limit st0 = Ok (st', (to_remove_metabolites, to_remove_reactions)) →
  to_remove_reactions = all_reactions st0 ∖ retained_reactions st'
  ∧ retained_reactions st' ⊆ all_reactions st0.
Proof.
  intros (st3 & Hout & Hstep)%run_before_pruning.
  apply extract_sub_network_removed in Hout as [-> Hremoved].
  destruct Hstep as (Hconfig & Hshapes & Hinter & Hextra & Hbeyond & Hsub).
  destruct (config_fields _ _ Hconfig) as (Hgem & _ & Hnames & Hd & _ & Hn & _).
  simpl in Hgem, Hnames, Hd, Hn.
  assert (Hall : all_reactions st3 = all_reactions st0).
  { unfold all_reactions. by rewrite Hgem. }
  assert (Htag : ∀ r, is_tag (_graph (create_new_stoichiometric_matrix st0)) r →
                      r ∈ all_reactions st0).
  { intros r [(a & b & Hr)|Hr]%create_new_stoichiometric_matrix_tags; [|done].
    unfold edge_tag in Hr. simpl in Hr. by rewrite lookup_empty in Hr. }
  assert (Hinter' : ∀ i j k r, r ∈ intermediate_reactions st3 i j k → r ∈ all_reactions st0).
  { intros i j k r [Hr|Hr]%Hinter; [|by apply Htag].
    unfold intermediate_reactions in Hr. simpl in Hr.
    by rewrite dict_of_dicts_of_lists_of_sets_empty in Hr. }
  assert (Hextra' : ∀ i k r, r ∈ extracellular_reactions st3 i k → r ∈ all_reactions st0).
  { intros i k r [Hr|Hr]%Hextra; [|by apply Htag].
    unfold extracellular_reactions in Hr. simpl in Hr.
    by rewrite dict_of_lists_of_sets_empty in Hr. }
  assert (Hsub' : ∀ name r, r ∈ subsystem_reactions st3 name → r ∈ all_reactions st0).
  { intros name r [Hr|Hr]%Hsub; [|done].
    unfold subsystem_reactions in Hr. simpl in Hr. by rewrite lookup_empty in Hr. }
  (* the extracellular slots that the two ranges do not share are empty *)
  assert (Hranges : ∀ i r, i ∈ _subsystem_names st3 →
            (∃ k, k ∈ range (_d st3 + 1) ∧ r ∈ extracellular_reactions st3 i k)
            ↔ (∃ k, k ∈ range (_n st3 + 1) ∧ r ∈ extracellular_reactions st3 i k)).
  { intros i r Hi.
    assert (Hempty : ∀ k, length (range (n + 1)) ≤ k ∨ length (range (d + 1)) ≤ k →
              extracellular_reactions st3 i k = ∅).
    { intros k [Hk|Hk].
      - rewrite Hbeyond by done. unfold extracellular_reactions. simpl.
        apply dict_of_lists_of_sets_empty.
      - destruct Hshapes as (_ & _ & _ & _ & S5 & _).
        apply (name_slot_out _ _ _ subsystem_names (length (range (d + 1)))); [|by rewrite <- Hnames|done].
        apply S5. simpl. apply dict_of_lists_of_sets_shape. }
    rewrite Hd, Hn. unfold range in *. rewrite !length_seq in Hempty.
    split; intros (k & Hk%elem_of_seq & Hr); exists k; (split; [|done]);
      apply elem_of_seq; split; try lia.
    all: apply dec_stable; intros Hnot; rewrite Hempty in Hr by lia; set_solver. }
  assert (Hcode : ⋃ ((λ i, ⋃ (extracellular_reactions st3 i <$> range (_d st3 + 1)))
                       <$> _subsystem_names st3)
                  = ⋃ ((λ i, ⋃ (extracellular_reactions st3 i <$> range (_n st3 + 1)))
                         <$> _subsystem_names st3)).
  { apply set_eq. intros r. rewrite !elem_of_union_list_fmap.
    split; intros (i & Hi & Hr); exists i; (split; [done|]);
      rewrite elem_of_union_list_fmap in Hr |- *; by apply (Hranges i r Hi). }
  split.
  - rewrite Hremoved, Hcode, Hall. unfold retained_reactions. simpl. set_solver.
  - unfold retained_reactions. simpl. intros r.
    rewrite !elem_of_union, !elem_of_union_list_fmap.
    intros [[(name & _ & Hr)|(i & _ & Hr)]|(i & _ & Hr)].
    + by eapply Hsub'.
    + apply elem_of_union_list_fmap in Hr as (j & _ & Hr).
      apply elem_of_union_list_fmap in Hr as (k & _ & Hr). by eapply Hinter'.
    + apply elem_of_union_list_fmap in Hr as (k & _ & Hr). by eapply Hextra'.
Qed.

(** The stored reaction set of a listed subsystem, after a run. *)
Lemma run_subsystem_reactions limit st' out name :
  run limit st0 = Ok (st', out) → name ∈ subsystem_names →
  subsystem_reactions st' name = reactions_of st0 name.
Proof.
  unfold run, run_between_all_subsystems.
  intros (st2 & (st1 & Hextract & Hpairs)%bind_Ok & (st3 & Hextra & Hout)%bind_Ok)%bind_Ok
    Hname.
  apply search_all_pairs_setup in Hpairs. apply run_extracellular_system_setup in Hextra.
  destruct out as [trm trr]. apply extract_sub_network_removed in Hout as [-> _].
  destruct (setup_fields _ _ Hpairs) as (_ & _ & _ & Hrid2 & _).
  destruct (setup_fields _ _ Hextra) as (_ & _ & _ & Hrid3 & _).
  unfold subsystem_reactions. simpl. rewrite Hrid3, Hrid2.
  by rewrite (extract_all_subsystems_reactions (create_new_stoichiometric_matrix st0) st1
                Hextract name Hname).
Qed.

(** After a run with the core subsystems as the listed subsystems, the
    retained set in the words of the specification is the retained set of
    the listed subsystems. *)
Lemma run_core_retained limit st' out :
  run limit st0 = Ok (st', out) →
  (∀ name, name ∈ core_subsystems ↔ name ∈ subsystem_names) →
  core_retained_reactions st' = retained_reactions st'.
Proof.
  intros Hrun Hsame.
  pose proof Hrun as (st3 & Hout & Hstep)%run_before_pruning.
  destruct out as [trm trr]. apply extract_sub_network_removed in Hout as [Hst' _].
  destruct Hstep as (Hconfig & _). unfold config in Hconfig.
  injection Hconfig as Hgem _ _ Hnames Hcore _ _ _ _ _ _. simpl in Hgem, Hnames, Hcore.
  assert (Hgem' : _gem st' = gem) by (by rewrite Hst').
  assert (Hnames' : _subsystem_names st' = subsystem_names) by (by rewrite Hst').
  assert (Hcore' : _core_subsystems st' = core_subsystems) by (by rewrite Hst').
  apply core_retained_reactions_names.
  - by rewrite Hcore', Hnames'.
  - rewrite Hnames'. intros name Hname.
    rewrite (run_subsystem_reactions _ _ _ _ Hrun Hname).
    unfold reactions_of. by rewrite Hgem'.
Qed.

(** C3 as amended: after a run of the driver on a fresh object, the set of
    reactions to remove is the set of all reaction identifiers of the
    original network minus the union of the reaction set of every subsystem
    that [subsystem_names] lists, of every (i, j, k) intermediate-reaction
    set for all pairs of listed subsystems and depths in [0..d], and of every
    (subsystem, k) extracellular intermediate-reaction set for all listed
    subsystems and depths in [0..n] (a depth without a slot holds no
    reaction).  The reaction set of a listed subsystem holds the identifiers
    of the reactions that carry its tag.  The core subsystems are not read:
    the set is the one that the specification states when they are the
    listed subsystems. *)
Theorem run_to_remove_reactions limit st' to_remove_metabolites to_remove_reactions :
  run limit st0 = Ok (st', (to_remove_metabolites, to_remove_reactions)) →
  to_remove_reactions
  = list_to_set (rxn_id <$> model_reactions gem) ∖ retained_reactions st'
  ∧ (∀ name, name ∈ subsystem_names → subsystem_reactions st' name = reactions_of st0 name)
  ∧ ((∀ name, name ∈ core_subsystems ↔ name ∈ subsystem_names) →
     to_remove_reactions
     = list_to_set (rxn_id <$> model_reactions gem) ∖ core_retained_reactions st').
Proof.
  intros Hrun. pose proof Hrun as [-> _]%run_outcome. split_and!.
  - done.
  - intros name Hname. by eapply run_subsystem_reactions.
  - intros Hsame. by rewrite (run_core_retained _ _ _ Hrun Hsame).
Qed.

(** C7 as amended: after such a run, the reactions to remove and the
    retained reactions of the subsystems that [subsystem_names] lists
    partition the reaction identifiers of the original network; so do the
    reactions to remove and the retained set of the core subsystems when the
    core subsystems are the listed subsystems. *)
Theorem run_partition limit st' to_remove_metabolites to_remove_reactions :
  run limit st0 = Ok (st', (to_remove_metabolites, to_remove_reactions)) →
  (to_remove_reactions ∪ retained_reactions st'
   = list_to_set (rxn_id <$> model_reactions gem)
   ∧ to_remove_reactions ∩ retained_reactions st' = ∅)
  ∧ ((∀ name, name ∈ core_subsystems ↔ name ∈ subsystem_names) →
     to_remove_reactions ∪ core_retained_reactions st'
     = list_to_set (rxn_id <$> model_reactions gem)
     ∧ to_remove_reactions ∩ core_retained_reactions st' = ∅).
Proof.
  intros Hrun. pose proof Hrun as [-> Hsub]%run_outcome.
  assert (Hpart : (all_reactions st0 ∖ retained_reactions st') ∪ retained_reactions st'
                  = list_to_set (rxn_id <$> model_reactions gem)
                  ∧ (all_reactions st0 ∖ retained_reactions st') ∩ retained_reactions st'
                    = ∅).
  { unfold all_reactions in *. simpl in *. split; [|set_solver].
    apply set_eq. intros r. rewrite elem_of_union, elem_of_difference.
    destruct (decide (r ∈ retained_reactions st')); set_solver. }
  split; [done|].
  intros Hsame. by rewrite (run_core_retained _ _ _ Hrun Hsame).
Qed.
End run_outcome.

(** ** The driver returns *)

Lemma run_between_all_subsystems_loops limit st :
  run_between_all_subsystems limit st = extract_all_subsystems st ≫= search_all_pairs limit.
Proof. done. Qed.

Lemma retained_config st st' rxn : config st' = config st → retained st' rxn = retained st rxn.
Proof.
  unfold config. intros [= _ _ _ _ _ Hc Hs Hi _ _ _].
  unfold retained, ignorable. by rewrite Hc, Hs, Hi.
Qed.

(** The first loop returns: every configured subsystem has its metabolite
    set, made of retained metabolites of the network, and nothing else
    changes but the subsystem dictionaries. *)
Lemma extract_all_subsystems_total st :
  ∃ st1, extract_all_subsystems st = Ok st1
         ∧ config st1 = config st ∧ containers st1 = containers st
         ∧ ∀ name, name ∈ _subsystem_names st →
             ∃ M, _subsystem_metabolites_id st1 !! name = Some M ∧ M ⊆ kept_metabolites st.
Proof.
  set (Q := λ (name : string) (s : RedGEM),
         ∃ M, _subsystem_metabolites_id s !! name = Some M ∧ M ⊆ kept_metabolites st).
  destruct (for_each_establish
              (λ s, config s = config st ∧ containers s = containers st)
              (λ s s', ∀ name, Q name s → Q name s') Q
              (_subsystem_names st)
              (λ st subsystem,
                 extract_subsystem_metabolites (extract_subsystem_reactions st subsystem)
                   subsystem) st)
    as (st1 & Hrun & [Hconfig Hcont] & _ & HQ); [done|naive_solver|naive_solver| |done|].
  - intros s name Hname [Hconfig Hcont].
    unfold extract_subsystem_metabolites. simpl.
    rewrite (getitem_Some _ _ _ (lookup_insert_eq _ _ _)). simpl.
    eexists. split; [done|].
    assert (Hnew : list_to_set
                     (filter (λ rxn, rxn_subsystem rxn = name) (model_reactions (_gem s))
                      ≫= λ rxn, (retained (extract_subsystem_reactions s name) rxn).*1)
                   ⊆ kept_metabolites st).
    { destruct (config_fields _ _ Hconfig) as (Hgem & _).
      intros m. unfold kept_metabolites. rewrite !elem_of_list_to_set, !list_elem_of_bind.
      intros (rxn & Hm & [_ Hrxn]%list_elem_of_filter).
      exists rxn. split; [|by rewrite <- Hgem].
      by rewrite <- (retained_config st (extract_subsystem_reactions s name)). }
    split_and!; [done|done| |].
    + intros name' (M & HM & Hsub). unfold Q. simpl.
      destruct (decide (name' = name)) as [->|Hne].
      * rewrite lookup_insert_eq. by eexists.
      * rewrite lookup_insert_ne by done. by exists M.
    + unfold Q. simpl. rewrite lookup_insert_eq. by eexists.
  - by exists st1.
Qed.

Section all_pairs.
Variables (limit : nat) (st1 : RedGEM).
Hypothesis st1_ready : ready st1.
Hypothesis limit_enough : length (range (_d st1 + 1)) ≤ limit.

(** The depth-0 path set of the pair is the one before the loop with the
    paths of the shared metabolites. *)
Let settled (i j : string) (s : RedGEM) : Prop :=
  path_result s i j 0 = path_result st1 i j 0 ∪ shared_paths st1 i j.

Let inv (s : RedGEM) : Prop :=
  setup s = setup st1 ∧ shapes_kept st1 s
  ∧ _intermediate_extracellular_paths s = _intermediate_extracellular_paths st1
  ∧ _intermediate_extracellular_reactions_id s = _intermediate_extracellular_reactions_id st1
  ∧ _intermediate_extracellular_metabolites_id s
    = _intermediate_extracellular_metabolites_id st1
  ∧ ∀ i j, path_result s i j 0 = path_result st1 i j 0 ∨ settled i j s.

Let keeps (s s' : RedGEM) : Prop := ∀ i j, settled i j s → settled i j s'.

Local Lemma search_pair_at s i j k :
  i ∈ _subsystem_names st1 → j ∈ _subsystem_names st1 → k ∈ range (_d st1 + 1) → inv s →
  ∃ s', breadth_search_subsystems_paths_length_d limit s i j k = Ok s'
        ∧ inv s' ∧ keeps s s' ∧ (k = 0 → settled i j s').
Proof.
  intros Hi Hj Hk (Hsetup & Hshapes & E1 & E2 & E3 & Hzero).
  destruct (setup_fields _ _ Hsetup) as (_ & _ & Hnames & _ & Hmet & Hd & _).
  assert (Hready : ready s) by by eapply ready_step.
  pose proof st1_ready as (_ & _ & _ & _ & _ & _ & _ & Hkeys).
  destruct (Hkeys i Hi) as (Mi & HMi & _). destruct (Hkeys j Hj) as (Mj & HMj & _).
  assert (Hk' : k < length (range (_d st1 + 1))).
  { unfold range in *. rewrite length_seq. apply elem_of_seq in Hk. lia. }
  destruct (breadth_search_subsystems_step limit i j k Mi Mj s)
    as (s' & Hrun & Hstep & Hres);
    [done|by rewrite Hnames|by rewrite Hnames|by rewrite Hd|lia
    |by rewrite Hmet|by rewrite Hmet|].
  pose proof Hstep as (Hsetup' & Hshapes' & E1' & E2' & E3' & Hframe & _).
  assert (Hshared : shared_paths st1 i j = set_map (λ m, [m]) (Mi ∩ Mj)).
  { unfold shared_paths, subsystem_metabolites. by rewrite HMi, HMj. }
  assert (Hnew : ∀ i' j', path_result s' i' j' 0 =
            if decide (i' = i ∧ j' = j ∧ k = 0)
            then path_result s i j 0 ∪ shared_paths st1 i j
            else path_result s i' j' 0).
  { intros i' j'. destruct (decide (i' = i ∧ j' = j ∧ k = 0)) as [(-> & -> & ->)|Hne].
    - rewrite Hshared. by apply Hres.
    - apply Hframe. naive_solver. }
  exists s'. split_and!; [done| |..].
  - split_and!; [congruence|by eapply shapes_kept_trans|congruence..|].
    intros i' j'. rewrite Hnew. unfold settled. rewrite Hnew.
    destruct (decide (i' = i ∧ j' = j ∧ k = 0)) as [(-> & -> & ->)|Hne]; [|apply Hzero].
    right. destruct (Hzero i j) as [->| ->]; set_solver.
  - intros i' j'. unfold settled. rewrite Hnew.
    destruct (decide (i' = i ∧ j' = j ∧ k = 0)) as [(-> & -> & ->)|Hne]; [|done].
    intros ->. set_solver.
  - intros ->. unfold settled. rewrite Hnew, decide_True by done.
    destruct (Hzero i j) as [->| ->]; set_solver.
Qed.

(** The second loop returns; it leaves the setup and the extracellular
    containers as they are, and it adds to the depth-0 path set of every pair
    the paths of the metabolites that the pair shares. *)
Lemma search_all_pairs_total :
  ∃ st2, search_all_pairs limit st1 = Ok st2
         ∧ setup st2 = setup st1 ∧ shapes_kept st1 st2
         ∧ _intermediate_extracellular_paths st2 = _intermediate_extracellular_paths st1
         ∧ _intermediate_extracellular_reactions_id st2
           = _intermediate_extracellular_reactions_id st1
         ∧ _intermediate_extracellular_metabolites_id st2
           = _intermediate_extracellular_metabolites_id st1
         ∧ ∀ i j, i ∈ _subsystem_names st1 → j ∈ _subsystem_names st1 → (0 ≤ _d st1)%Z →
             path_result st2 i j 0 = path_result st1 i j 0 ∪ shared_paths st1 i j.
Proof.
  assert (Hrefl : ∀ s, keeps s s) by by intros s i j.
  assert (Htrans : ∀ s1 s2 s3, keeps s1 s2 → keeps s2 s3 → keeps s1 s3).
  { intros s1 s2 s3 H12 H23 i j H. by apply H23, H12. }
  assert (Hinv1 : inv st1).
  { split_and!; [done|apply shapes_kept_refl|done..|]. by left. }
  unfold search_all_pairs.
  destruct (for_each_establish inv keeps
              (λ i s, ∀ j, j ∈ _subsystem_names st1 → (0 ≤ _d st1)%Z → settled i j s)
              (_subsystem_names st1)
              (λ st subsystem_i,
                 for_each (_subsystem_names st)
                   (λ st subsystem_j,
                      for_each (range (_d st + 1))
                        (λ st k,
                           breadth_search_subsystems_paths_length_d limit st
                             subsystem_i subsystem_j k) st) st) st1)
    as (st2 & Hrun & Hinv & _ & Hall); [done|done| | |done|].
  - intros i s s' Hk Hs j Hj Hd. by apply Hk, Hs.
  - intros s i Hi Hs.
    destruct (setup_fields _ _ (proj1 Hs)) as (_ & _ & Hnames & _). rewrite Hnames.
    apply (for_each_establish inv keeps
             (λ j s, (0 ≤ _d st1)%Z → settled i j s)); [done|done| | |done].
    + intros j s0 s' Hk Hs0 Hd. by apply Hk, Hs0.
    + intros s0 j Hj Hs0.
      destruct (setup_fields _ _ (proj1 Hs0)) as (_ & _ & _ & _ & _ & Hd0 & _). rewrite Hd0.
      destruct (for_each_establish inv keeps (λ k s, k = 0 → settled i j s)
                  (range (_d st1 + 1))
                  (λ st k, breadth_search_subsystems_paths_length_d limit st i j k) s0)
        as (s' & Hrun & Hs' & Hkeeps & Hzero); [done|done| | |done|].
      * intros k s1 s1' Hk Hs1 Hk0. by apply Hk, Hs1.
      * intros s1 k Hk Hs1. by apply search_pair_at.
      * exists s'. split_and!; [done..|].
        intros Hd. apply (Hzero 0); [|done]. apply elem_of_range. lia.
  - destruct Hinv as (H1 & H2 & H3 & H4 & H5 & _).
    exists st2. split_and!; [done..|]. intros i j Hi Hj Hd. by apply Hall.
Qed.
End all_pairs.

(** ** The driver on a fresh object *)

Lemma containers_fields st st' :
  containers st' = containers st →
  _intermediate_paths st' = _intermediate_paths st
  ∧ _intermediate_reactions_id st' = _intermediate_reactions_id st
  ∧ _intermediate_metabolites_id st' = _intermediate_metabolites_id st
  ∧ _intermediate_extracellular_paths st' = _intermediate_extracellular_paths st
  ∧ _intermediate_extracellular_reactions_id st'
    = _intermediate_extracellular_reactions_id st
  ∧ _intermediate_extracellular_metabolites_id st'
    = _intermediate_extracellular_metabolites_id st
  ∧ _min_distance_sub_to_sub st' = _min_distance_sub_to_sub st.
Proof. unfold containers. intros [= ]. by split_and!. Qed.

Section fresh_run.
Variables (gem : Model) (core_subsystems cofactor_pairs small_metabolites inorganics : list string).
Variables (d : Z) (extracellular_system subsystem_names : list string) (n : Z).

Let st0 : RedGEM :=
  __init__ gem core_subsystems cofactor_pairs small_metabolites inorganics d
    extracellular_system subsystem_names n.

(** Once the graph is built and the subsystems are extracted, the state is
    ready for the searches, and its result sets are empty. *)
Lemma fresh_extracted st1 :
  extract_all_subsystems (create_new_stoichiometric_matrix st0) = Ok st1 →
  ready st1
  ∧ config st1 = config (create_new_stoichiometric_matrix st0)
  ∧ containers st1 = containers st0.
Proof.
  intros Hrun.
  destruct (extract_all_subsystems_total (create_new_stoichiometric_matrix st0))
    as (st1' & Hrun' & Hconfig & Hcont & Hkeys).
  assert (st1' = st1) as -> by congruence.
  split; [|done].
  destruct (config_fields _ _ Hconfig) as (_ & Hg & Hnames & Hd & _).
  destruct (containers_fields _ _ Hcont) as (C1 & C2 & C3 & C4 & C5 & C6 & _).
  unfold ready. rewrite Hg, Hnames, Hd, C1, C2, C3, C4, C5, C6. simpl.
  split_and!.
  - apply dict_of_dicts_of_lists_of_sets_shape.
  - apply dict_of_dicts_of_lists_of_sets_shape.
  - apply dict_of_dicts_of_lists_of_sets_shape.
  - apply dict_of_lists_of_sets_shape.
  - apply dict_of_lists_of_sets_shape.
  - apply dict_of_lists_of_sets_shape.
  - apply (create_new_stoichiometric_matrix_closed st0), graph_closed_empty.
  - intros name Hname. destruct (Hkeys name Hname) as (M & HM & Hsub).
    exists M. split; [done|]. etrans; [done|].
    apply (create_new_stoichiometric_matrix_nodes st0).
Qed.

(** [run_between_all_subsystems] returns on a fresh object whose graph is
    built, when the recursion limit is above [d]. *)
Lemma fresh_run_between_all_subsystems limit :
  (d < Z.of_nat limit)%Z →
  ∃ st1 st2,
    extract_all_subsystems (create_new_stoichiometric_matrix st0) = Ok st1
    ∧ run_between_all_subsystems limit (create_new_stoichiometric_matrix st0) = Ok st2
    ∧ ready st2 ∧ setup st2 = setup st1
    ∧ config st2 = config (create_new_stoichiometric_matrix st0)
    ∧ name_slot (_intermediate_extracellular_paths st2)
      = name_slot (_intermediate_extracellular_paths st0)
    ∧ ∀ i j, i ∈ subsystem_names → j ∈ subsystem_names → (0 ≤ d)%Z →
        path_result st2 i j 0 = shared_paths st2 i j.
Proof.
  intros Hlimit.
  destruct (extract_all_subsystems_total (create_new_stoichiometric_matrix st0))
    as (st1 & Hextract & _).
  destruct (fresh_extracted st1 Hextract) as (Hready & Hconfig & Hcont).
  destruct (config_fields _ _ Hconfig) as (_ & _ & Hnames & Hd & _).
  simpl in Hnames, Hd.
  destruct (containers_fields _ _ Hcont) as (C1 & _ & _ & C4 & _).
  destruct (search_all_pairs_total limit st1 Hready)
    as (st2 & Hpairs & Hsetup & Hshapes & E1 & E2 & E3 & Hzero).
  { rewrite Hd. unfold range. rewrite length_seq. lia. }
  exists st1, st2. split_and!; [done| |by eapply ready_step|done| | |].
  - rewrite run_between_all_subsystems_loops, Hextract. done.
  - rewrite <- Hconfig. by apply setup_config.
  - by rewrite E1, C4.
  - intros i j Hi Hj Hd0. rewrite Hzero; [|by rewrite Hnames..|by rewrite Hd].
    unfold path_result. rewrite C1. simpl.
    rewrite dict_of_dicts_of_lists_of_sets_empty.
    destruct (setup_fields _ _ Hsetup) as (_ & _ & _ & _ & Hmet & _).
    unfold shared_paths, subsystem_metabolites. rewrite Hmet. set_solver.
Qed.

(** C4 as amended: on a fresh object whose graph is built, the driver
    returns, and for all subsystems i and j the (i, j, 0) path-result set is
    the set of the paths [(m,)] of the metabolites [m] that belong to both
    subsystems: for i = j these are all the metabolites of the subsystem, for
    i ≠ j the set is empty if and only if the two subsystems share no
    metabolite.  At depth 0 the frontier of a search from [m] is [{m}] if [m]
    belongs to the destination subsystem, and empty otherwise. *)
Theorem depth_zero_paths limit :
  (0 ≤ d)%Z → (d < Z.of_nat limit)%Z →
  ∃ st',
    run_between_all_subsystems limit (create_new_stoichiometric_matrix st0) = Ok st'
    ∧ ∀ i j, i ∈ subsystem_names → j ∈ subsystem_names →
        path_result st' i j 0
        = set_map (λ m, [m]) (subsystem_metabolites st' i ∩ subsystem_metabolites st' j)
        ∧ path_result st' i i 0 = set_map (λ m, [m]) (subsystem_metabolites st' i)
        ∧ (path_result st' i j 0 = ∅ ↔
           subsystem_metabolites st' i ∩ subsystem_metabolites st' j = ∅)
        ∧ ∀ m, find_at_distance st' i j 0 m
               = Ok (∅, if decide (m ∈ subsystem_metabolites st' j) then {[m]} else ∅).
Proof.
  intros Hd Hlimit.
  destruct (fresh_run_between_all_subsystems limit Hlimit)
    as (st1 & st2 & _ & Hrun & Hready & _ & Hconfig & _ & Hzero).
  exists st2. split; [done|]. intros i j Hi Hj.
  destruct (config_fields _ _ Hconfig) as (_ & _ & Hnames & _). simpl in Hnames.
  destruct Hready as (_ & _ & _ & _ & _ & _ & _ & Hkeys).
  destruct (Hkeys j) as (Mj & HMj & _); [by rewrite Hnames|].
  split_and!.
  - by apply Hzero.
  - rewrite (Hzero i i Hi Hi Hd). unfold shared_paths. f_equal. set_solver.
  - rewrite (Hzero i j Hi Hj Hd). unfold shared_paths.
    generalize (subsystem_metabolites st2 i ∩ subsystem_metabolites st2 j). intros X.
    split.
    + intros Hempty. apply set_eq. intros m. split; [|set_solver].
      intros Hm. assert ([m] ∈ (set_map (λ m, [m]) X : gset path)) as Hin
        by (apply elem_of_map; by exists m).
      rewrite Hempty in Hin. set_solver.
    + intros ->. set_solver.
  - intros m. unfold find_at_distance. simpl.
    rewrite (in_subsystem_Ok _ _ _ _ HMj). simpl.
    unfold subsystem_metabolites. rewrite HMj. simpl.
    by destruct (decide (m ∈ Mj)) as [Hin|Hout];
      [rewrite (bool_decide_eq_true_2 _ Hin)|rewrite (bool_decide_eq_false_2 _ Hout)].
Qed.
End fresh_run.

(** ** The extracellular search beyond the slots (C10) *)

Lemma find_extracellular_at_distance_setup st st' subsystem k e :
  setup st' = setup st →
  find_extracellular_at_distance st' subsystem k e
  = find_extracellular_at_distance st subsystem k e.
Proof.
  intros (_ & Hg & _ & _ & Hmet & _ & Hext & _)%setup_fields.
  unfold find_extracellular_at_distance, is_node_allowed_extracellular, in_subsystem.
  by rewrite Hg, Hmet, Hext.
Qed.

Section extracellular_run.
Variables (limit : nat) (st : RedGEM).
Hypothesis st_ready : ready st.
Hypothesis st_extracellular : extracellular_in_graph st.
Hypothesis limit_enough : length (range (_n st + 1)) ≤ limit.

Let inv (s : RedGEM) : Prop := setup s = setup st ∧ shapes_kept st s.

Local Lemma extracellular_call s subsystem k :
  subsystem ∈ _subsystem_names st → k ∈ range (_n st + 1) → inv s →
  ((∃ s', breadth_search_extracellular_system_paths limit s subsystem k = Ok s' ∧ inv s')
   ∨ breadth_search_extracellular_system_paths limit s subsystem k = Raise IndexError)
  ∧ (k < length (range (_d st + 1)) →
     breadth_search_extracellular_system_paths limit s subsystem k ≠ Raise IndexError)
  ∧ (length (range (_d st + 1)) ≤ k →
     (∃ e ancestors frontier,
        e ∈ _extracellular_system st
        ∧ find_extracellular_at_distance st subsystem k e = Ok (ancestors, frontier)
        ∧ frontier ≠ ∅) →
     breadth_search_extracellular_system_paths limit s subsystem k = Raise IndexError).
Proof.
  intros Hsub Hk [Hsetup Hshapes].
  destruct (setup_fields _ _ Hsetup) as (_ & Hg & Hnames & _ & _ & Hd & Hext & _).
  assert (Hready : ready s) by by eapply ready_step.
  assert (Hextra : extracellular_in_graph s).
  { intros e. rewrite Hext, Hg. apply st_extracellular. }
  assert (Hk' : k < limit).
  { unfold range in *. rewrite length_seq in limit_enough. apply elem_of_seq in Hk. lia. }
  destruct (decide (k < length (range (_d st + 1)))) as [Hin|Hout].
  - destruct (breadth_search_extracellular_step limit subsystem k s)
      as (s' & Hrun & (Hsetup' & Hshapes' & _)); [done|done|by rewrite Hnames|by rewrite Hd|done|].
    rewrite Hrun. split_and!; [|done|lia].
    left. exists s'. split; [done|]. split; [congruence|by eapply shapes_kept_trans].
  - destruct (breadth_search_extracellular_out limit subsystem k s) as [Hcases Hraise];
      [done|done|by rewrite Hnames|rewrite Hd; lia|done|].
    split_and!; [|lia|].
    + destruct Hcases as [->| ->]; [left; by exists s|by right].
    + intros _ (e & ancestors & frontier & He & Hfind & Hne). apply Hraise.
      exists e, ancestors, frontier. split_and!; [by rewrite Hext| |done].
      by rewrite (find_extracellular_at_distance_setup st s).
Qed.

(** The extracellular loop returns or raises [IndexError]; it raises when
    the search finds something at a distance beyond the slots, and returns
    when no depth of [range(n+1)] is beyond the slots. *)
Lemma run_extracellular_system_cases :
  ((∃ st', run_extracellular_system limit st = Ok st' ∧ inv st')
   ∨ run_extracellular_system limit st = Raise IndexError)
  ∧ ((∃ subsystem k e ancestors frontier,
        subsystem ∈ _subsystem_names st ∧ k ∈ range (_n st + 1)
        ∧ length (range (_d st + 1)) ≤ k
        ∧ e ∈ _extracellular_system st
        ∧ find_extracellular_at_distance st subsystem k e = Ok (ancestors, frontier)
        ∧ frontier ≠ ∅) →
     run_extracellular_system limit st = Raise IndexError)
  ∧ (length (range (_n st + 1)) ≤ length (range (_d st + 1)) →
     ∃ st', run_extracellular_system limit st = Ok st' ∧ inv st').
Proof.
  assert (Hinner : ∀ s subsystem, subsystem ∈ _subsystem_names st → inv s →
            ((∃ s', for_each (range (_n st + 1))
                      (λ st k, breadth_search_extracellular_system_paths limit st subsystem k) s
                    = Ok s' ∧ inv s')
             ∨ for_each (range (_n st + 1))
                 (λ st k, breadth_search_extracellular_system_paths limit st subsystem k) s
               = Raise IndexError)
            ∧ ((∃ k e ancestors frontier,
                  k ∈ range (_n st + 1) ∧ length (range (_d st + 1)) ≤ k
                  ∧ e ∈ _extracellular_system st
                  ∧ find_extracellular_at_distance st subsystem k e = Ok (ancestors, frontier)
                  ∧ frontier ≠ ∅) →
               for_each (range (_n st + 1))
                 (λ st k, breadth_search_extracellular_system_paths limit st subsystem k) s
               = Raise IndexError)
            ∧ (length (range (_n st + 1)) ≤ length (range (_d st + 1)) →
               for_each (range (_n st + 1))
                 (λ st k, breadth_search_extracellular_system_paths limit st subsystem k) s
               ≠ Raise IndexError)).
  { intros s subsystem Hsub Hs.
    destruct (for_each_raise inv IndexError (range (_n st + 1))
                (λ st k, breadth_search_extracellular_system_paths limit st subsystem k) s)
      as (Hcases & Hraise & Hends); [|done|].
    { intros s1 k Hk Hs1. by apply extracellular_call. }
    split_and!; [done| |].
    - intros (k & e & ancestors & frontier & Hk & Hout & He & Hfind & Hne).
      apply Hraise. exists k. split; [done|]. intros s1 Hs1.
      destruct (extracellular_call s1 subsystem k Hsub Hk Hs1) as (_ & _ & Hr).
      apply Hr; [done|]. by exists e, ancestors, frontier.
    - intros Hle. destruct Hends as (s' & -> & _); [|done].
      intros k s1 Hk Hs1.
      destruct (extracellular_call s1 subsystem k Hsub Hk Hs1) as (_ & Hr & _).
      apply Hr. apply elem_of_seq in Hk. unfold range in Hle |- *.
      rewrite !length_seq in Hle. rewrite length_seq. lia. }
  assert (Hbody : ∀ s subsystem, subsystem ∈ _subsystem_names st → inv s →
            for_each (range (_n s + 1))
              (λ st k, breadth_search_extracellular_system_paths limit st subsystem k) s
            = for_each (range (_n st + 1))
                (λ st k, breadth_search_extracellular_system_paths limit st subsystem k) s).
  { intros s subsystem _ [Hsetup _].
    destruct (setup_fields _ _ Hsetup) as (_ & _ & _ & _ & _ & _ & _ & Hn & _).
    by rewrite Hn. }
  unfold run_extracellular_system.
  destruct (for_each_raise inv IndexError (_subsystem_names st)
              (λ st subsystem,
                 for_each (range (_n st + 1))
                   (λ st k, breadth_search_extracellular_system_paths limit st subsystem k)
                   st) st)
    as (Hcases & Hraise & Hends); [|split; [done|apply shapes_kept_refl]|].
  { intros s subsystem Hsub Hs. rewrite (Hbody s subsystem Hsub Hs).
    by destruct (Hinner s subsystem Hsub Hs) as (Hc & _). }
  split_and!; [done| |].
  - intros (subsystem & k & e & ancestors & frontier & Hsub & Hk & Hout & He & Hfind & Hne).
    apply Hraise. exists subsystem. split; [done|]. intros s Hs.
    rewrite (Hbody s subsystem Hsub Hs).
    destruct (Hinner s subsystem Hsub Hs) as (_ & Hr & _).
    apply Hr. by exists k, e, ancestors, frontier.
  - intros Hle. apply Hends. intros subsystem s Hsub Hs.
    rewrite (Hbody s subsystem Hsub Hs).
    destruct (Hinner s subsystem Hsub Hs) as (_ & _ & Hr). by apply Hr.
Qed.
End extracellular_run.

Section fresh_extracellular.
Variables (gem : Model) (core_subsystems cofactor_pairs small_metabolites inorganics : list string).
Variables (d : Z) (extracellular_system subsystem_names : list string) (n : Z).

Let st0 : RedGEM :=
  __init__ gem core_subsystems cofactor_pairs small_metabolites inorganics d
    extracellular_system subsystem_names n.

(** C10 as amended: the extracellular containers of a fresh object have
    the [d + 1] slots of [range(d+1)].  Let every extracellular metabolite be
    a node of the graph, and let the search find, at a distance [k] with
    [d < k ≤ n] from an extracellular metabolite, a metabolite of a
    subsystem.  Then the extracellular loop raises [IndexError], and so does
    the run. *)
Theorem run_extracellular_system_index_error limit st2 subsystem k e ancestors frontier :
  run_between_all_subsystems limit (create_new_stoichiometric_matrix st0) = Ok st2 →
  (∀ x, x ∈ extracellular_system → x ∈ dom (_graph (create_new_stoichiometric_matrix st0))) →
  (n < Z.of_nat limit)%Z →
  subsystem ∈ subsystem_names → e ∈ extracellular_system →
  (d < Z.of_nat k ≤ n)%Z →
  find_extracellular_at_distance st2 subsystem k e = Ok (ancestors, frontier) →
  frontier ≠ ∅ →
  slot_shape subsystem_names (length (range (d + 1))) (_intermediate_extracellular_paths st0)
  ∧ slot_shape subsystem_names (length (range (d + 1)))
      (_intermediate_extracellular_reactions_id st0)
  ∧ slot_shape subsystem_names (length (range (d + 1)))
      (_intermediate_extracellular_metabolites_id st0)
  ∧ run_extracellular_system limit st2 = Raise IndexError
  ∧ run limit st0 = Raise IndexError.
Proof.
  intros Hrun Hnodes Hlimit Hsub He Hk Hfind Hne.
  destruct (fresh_run_between_all_subsystems gem core_subsystems cofactor_pairs
              small_metabolites inorganics d extracellular_system subsystem_names n limit)
    as (st1 & st2' & _ & Hrun' & Hready & _ & Hconfig & _); [lia|].
  assert (st2' = st2) as -> by (fold st0 in Hrun'; congruence).
  destruct (config_fields _ _ Hconfig) as (_ & Hg & Hnames & Hd & Hext & Hn & _).
  simpl in Hnames, Hd, Hext, Hn.
  assert (Hraise : run_extracellular_system limit st2 = Raise IndexError).
  { destruct (run_extracellular_system_cases limit st2 Hready) as (_ & Hraise & _).
    - intros x. rewrite Hext, Hg. apply Hnodes.
    - rewrite Hn. unfold range. rewrite length_seq. lia.
    - apply Hraise. exists subsystem, k, e, ancestors, frontier.
      rewrite Hnames, Hn, Hd, Hext. split_and!; [done| | |done..].
      + apply elem_of_range. lia.
      + unfold range. rewrite length_seq. lia. }
  split_and!; [apply dict_of_lists_of_sets_shape..|done|].
  unfold run. fold st0. rewrite Hrun. simpl. by rewrite Hraise.
Qed.
End fresh_extracellular.

(** C10 as stated fails: with an extracellular identifier that is no node
    of the graph (h2o, an inorganic) listed before E, there is a path of
    length 1 > d = 0 from E to the subsystem X, and the run raises [KeyError],
    not [IndexError]. *)
Lemma run_key_error_before_index_error :
  (0 < 1)%Z
  ∧ find_extracellular_at_distance (Demo.searched ["h2o"; "E"]) "X" 1 "E"
    = Ok ({[ "A" := ["E"] ]}, {[ "A" ]})
  ∧ run 1000 (Demo.deeper ["h2o"; "E"]) = Raise KeyError.
Proof. split_and!; [done|vm_compute; reflexivity..]. Qed.

Lemma run_extracellular_system_index_error_witness :
  run_between_all_subsystems 1000 (create_new_stoichiometric_matrix (Demo.deeper ["E"]))
  = Ok (Demo.searched ["E"])
  ∧ (∀ x, x ∈ ["E"] →
       x ∈ dom (_graph (create_new_stoichiometric_matrix (Demo.deeper ["E"]))))
  ∧ (1 < Z.of_nat 1000)%Z
  ∧ "X" ∈ ["X"] ∧ "E" ∈ ["E"]
  ∧ (0 < Z.of_nat 1 ≤ 1)%Z
  ∧ find_extracellular_at_distance (Demo.searched ["E"]) "X" 1 "E"
    = Ok ({[ "A" := ["E"] ]}, {[ "A" ]})
  ∧ ({[ "A" ]} : gset string) ≠ ∅
  ∧ run_extracellular_system 1000 (Demo.searched ["E"]) = Raise IndexError
  ∧ run 1000 (Demo.deeper ["E"]) = Raise IndexError.
Proof.
  assert (H1 : run_between_all_subsystems 1000
                 (create_new_stoichiometric_matrix (Demo.deeper ["E"]))
               = Ok (Demo.searched ["E"])) by (vm_compute; reflexivity).
  assert (H2 : ∀ x, x ∈ ["E"] →
                 x ∈ dom (_graph (create_new_stoichiometric_matrix (Demo.deeper ["E"])))).
  { intros x ->%list_elem_of_singleton. by vm_compute. }
  assert (H3 : (1 < Z.of_nat 1000)%Z) by lia.
  assert (H4 : "X" ∈ ["X"]) by (by left).
  assert (H5 : "E" ∈ ["E"]) by (by left).
  assert (H6 : (0 < Z.of_nat 1 ≤ 1)%Z) by lia.
  assert (H7 : find_extracellular_at_distance (Demo.searched ["E"]) "X" 1 "E"
               = Ok ({[ "A" := ["E"] ]}, {[ "A" ]})) by (vm_compute; reflexivity).
  assert (H8 : ({[ "A" ]} : gset string) ≠ ∅) by (by vm_compute).
  split_and!; [done..| |].
  - apply (run_extracellular_system_index_error Demo.gem [] [] [] ["h2o"] 0 ["E"] ["X"] 1
             1000 _ "X" 1 "E" _ _ H1 H2 H3 H4 H5 H6 H7 H8).
  - apply (run_extracellular_system_index_error Demo.gem [] [] [] ["h2o"] 0 ["E"] ["X"] 1
             1000 _ "X" 1 "E" _ _ H1 H2 H3 H4 H5 H6 H7 H8).
Defined.

(** ** Depth 0 on concrete subsystems (C4) *)

(** C4 as stated fails: X and T are distinct subsystems, and their
    (X, T, 0) path-result set holds the paths of the two metabolites they
    share. *)
Lemma depth_zero_paths_of_distinct_subsystems :
  "X" ≠ "T"
  ∧ ∃ st',
      run_between_all_subsystems 1000 (create_new_stoichiometric_matrix Demo.sharing) = Ok st'
      ∧ path_result st' "X" "T" 0 = {[ ["A"]; ["B"] ]}
      ∧ path_result st' "X" "T" 0 ≠ ∅.
Proof.
  split; [done|]. eexists. split_and!; [vm_compute; reflexivity..|by vm_compute].
Qed.

Lemma depth_zero_paths_witness :
  (0 ≤ 0)%Z ∧ (0 < Z.of_nat 1000)%Z
  ∧ ∃ st',
      run_between_all_subsystems 1000 (create_new_stoichiometric_matrix Demo.sharing) = Ok st'
      ∧ ∀ i j, i ∈ ["X"; "T"] → j ∈ ["X"; "T"] →
          path_result st' i j 0
          = set_map (λ m, [m]) (subsystem_metabolites st' i ∩ subsystem_metabolites st' j)
          ∧ path_result st' i i 0 = set_map (λ m, [m]) (subsystem_metabolites st' i)
          ∧ (path_result st' i j 0 = ∅ ↔
             subsystem_metabolites st' i ∩ subsystem_metabolites st' j = ∅)
          ∧ ∀ m, find_at_distance st' i j 0 m
                 = Ok (∅, if decide (m ∈ subsystem_metabolites st' j) then {[m]} else ∅).
Proof.
  assert (H1 : (0 ≤ 0)%Z) by lia.
  assert (H2 : (0 < Z.of_nat 1000)%Z) by lia.
  split_and!; [done..|].
  exact (depth_zero_paths Demo.gem [] [] [] ["h2o"] 0 ["E"] ["X"; "T"] 0 1000 H1 H2).
Defined.

(** ** The pruner on a concrete network (C3, C7, C9) *)

(** C3 as stated fails: X is the core subsystem and Y the listed one; the
    run removes r1, the reaction of the core subsystem X, and keeps r3, which
    belongs to no core subsystem and is on no path between core subsystems. *)
Lemma run_removes_core_subsystem_reactions :
  run 1000 Demo.apart
  = Ok (Demo.apart_pruned, ({[ "A"; "B"; "h2o" ]}, {[ "r1"; "r2"; "r4" ]}))
  ∧ _core_subsystems Demo.apart_pruned = ["X"]
  ∧ reactions_of Demo.apart_pruned "X" = {[ "r1" ]}
  ∧ core_retained_reactions Demo.apart_pruned = {[ "r1" ]}
  ∧ ({[ "r1"; "r2"; "r4" ]} : gset string)
    ≠ list_to_set (rxn_id <$> model_reactions Demo.gem)
      ∖ core_retained_reactions Demo.apart_pruned.
Proof. split_and!; [vm_compute; reflexivity..|by vm_compute]. Qed.

(** C7 as stated fails: with the subsystem names left at their default,
    the run removes every reaction, those of the core subsystems X and Y too;
    and with X the core subsystem and Y the listed one, the reactions to
    remove and the retained set of the core subsystem share r1 and leave r3
    out. *)
Lemma run_partition_fails_for_core_subsystems :
  run 1000 Demo.unnamed
  = Ok (Demo.unnamed_pruned,
        ({[ "A"; "B"; "C"; "D"; "h2o" ]}, {[ "r1"; "r2"; "r3"; "r4" ]}))
  ∧ core_retained_reactions Demo.unnamed_pruned = {[ "r1"; "r3" ]}
  ∧ ({[ "r1"; "r2"; "r3"; "r4" ]} : gset string) ∩ core_retained_reactions Demo.unnamed_pruned
    ≠ ∅
  ∧ run 1000 Demo.apart
    = Ok (Demo.apart_pruned, ({[ "A"; "B"; "h2o" ]}, {[ "r1"; "r2"; "r4" ]}))
  ∧ ({[ "r1"; "r2"; "r4" ]} : gset string) ∪ core_retained_reactions Demo.apart_pruned
    ≠ list_to_set (rxn_id <$> model_reactions Demo.gem)
  ∧ ({[ "r1"; "r2"; "r4" ]} : gset string) ∩ core_retained_reactions Demo.apart_pruned ≠ ∅.
Proof.
  split_and!;
    [vm_compute; reflexivity|vm_compute; reflexivity|by vm_compute
    |vm_compute; reflexivity|by vm_compute|by vm_compute].
Qed.

Lemma run_to_remove_reactions_witness :
  run 1000 Demo.apart
  = Ok (Demo.apart_pruned, ({[ "A"; "B"; "h2o" ]}, {[ "r1"; "r2"; "r4" ]}))
  ∧ ({[ "r1"; "r2"; "r4" ]} : gset string)
    = list_to_set (rxn_id <$> model_reactions Demo.gem) ∖ retained_reactions Demo.apart_pruned
  ∧ (∀ name, name ∈ ["Y"] →
       subsystem_reactions Demo.apart_pruned name = reactions_of Demo.apart name)
  ∧ run 1000 Demo.fresh2 = Ok (Demo.pruned, ({[ "F"; "G"; "h2o" ]}, {[ "r5" ]}))
  ∧ (∀ name : string, name ∈ ["X"; "Y"] ↔ name ∈ ["X"; "Y"])
  ∧ ({[ "r5" ]} : gset string)
    = list_to_set (rxn_id <$> model_reactions Demo.gem2)
      ∖ core_retained_reactions Demo.pruned.
Proof.
  assert (H1 : run 1000 Demo.apart
               = Ok (Demo.apart_pruned, ({[ "A"; "B"; "h2o" ]}, {[ "r1"; "r2"; "r4" ]})))
    by (vm_compute; reflexivity).
  assert (H2 : run 1000 Demo.fresh2 = Ok (Demo.pruned, ({[ "F"; "G"; "h2o" ]}, {[ "r5" ]})))
    by (vm_compute; reflexivity).
  assert (Hsame : ∀ name : string, name ∈ ["X"; "Y"] ↔ name ∈ ["X"; "Y"])
    by (intros name; reflexivity).
  pose proof (run_to_remove_reactions Demo.gem ["X"] [] [] ["h2o"] 1 ["E"] ["Y"] 1
                1000 _ _ _ H1) as (Hnames & Hstored & _).
  pose proof (run_to_remove_reactions Demo.gem2 ["X"; "Y"] [] [] ["h2o"] 1 ["E"] ["X"; "Y"] 1
                1000 _ _ _ H2) as (_ & _ & Hcore).
  split; [exact H1|]. split; [exact Hnames|]. split; [exact Hstored|].
  split; [exact H2|]. split; [exact Hsame|]. exact (Hcore Hsame).
Defined.

Lemma run_partition_witness :
  run 1000 Demo.apart
  = Ok (Demo.apart_pruned, ({[ "A"; "B"; "h2o" ]}, {[ "r1"; "r2"; "r4" ]}))
  ∧ (({[ "r1"; "r2"; "r4" ]} : gset string) ∪ retained_reactions Demo.apart_pruned
     = list_to_set (rxn_id <$> model_reactions Demo.gem)
     ∧ ({[ "r1"; "r2"; "r4" ]} : gset string) ∩ retained_reactions Demo.apart_pruned = ∅)
  ∧ run 1000 Demo.fresh2 = Ok (Demo.pruned, ({[ "F"; "G"; "h2o" ]}, {[ "r5" ]}))
  ∧ (∀ name : string, name ∈ ["X"; "Y"] ↔ name ∈ ["X"; "Y"])
  ∧ (({[ "r5" ]} : gset string) ∪ core_retained_reactions Demo.pruned
     = list_to_set (rxn_id <$> model_reactions Demo.gem2)
     ∧ ({[ "r5" ]} : gset string) ∩ core_retained_reactions Demo.pruned = ∅).
Proof.
  assert (H1 : run 1000 Demo.apart
               = Ok (Demo.apart_pruned, ({[ "A"; "B"; "h2o" ]}, {[ "r1"; "r2"; "r4" ]})))
    by (vm_compute; reflexivity).
  assert (H2 : run 1000 Demo.fresh2 = Ok (Demo.pruned, ({[ "F"; "G"; "h2o" ]}, {[ "r5" ]})))
    by (vm_compute; reflexivity).
  assert (Hsame : ∀ name : string, name ∈ ["X"; "Y"] ↔ name ∈ ["X"; "Y"])
    by (intros name; reflexivity).
  pose proof (run_partition Demo.gem ["X"] [] [] ["h2o"] 1 ["E"] ["Y"] 1
                1000 _ _ _ H1) as (Hnames & _).
  pose proof (run_partition Demo.gem2 ["X"; "Y"] [] [] ["h2o"] 1 ["E"] ["X"; "Y"] 1
                1000 _ _ _ H2) as (_ & Hcore).
  split; [exact H1|]. split; [exact Hnames|].
  split; [exact H2|]. split; [exact Hsame|]. exact (Hcore Hsame).
Defined.

(** C9: [extract_sub_network] leaves the original network and every other
    attribute as they are and changes the working copy by one call of
    [remove_reactions] with the cascade to orphans; the set of metabolites to
    remove is computed and printed only.  The working copy loses the
    reactions to remove and no other; it gains no metabolite, a metabolite
    that it loses took part in a removed reaction and takes part in no
    remaining one, and a metabolite of a remaining reaction stays, whether it
    is in the set of metabolites to remove or not. *)
Theorem extract_sub_network_frame st st' to_remove_metabolites to_remove_reactions :
  extract_sub_network st = Ok (st', (to_remove_metabolites, to_remove_reactions)) →
  st' = set_redgem st (remove_reactions (_redgem st) to_remove_reactions true)
  ∧ _gem st' = _gem st
  ∧ model_reactions (_redgem st')
    = filter (λ r, rxn_id r ∉ to_remove_reactions) (model_reactions (_redgem st))
  ∧ (∀ m, m ∈ model_metabolites (_redgem st') → m ∈ model_metabolites (_redgem st))
  ∧ (∀ m, m ∈ model_metabolites (_redgem st) → m ∉ model_metabolites (_redgem st') →
       (∃ r, r ∈ model_reactions (_redgem st) ∧ rxn_id r ∈ to_remove_reactions
             ∧ m ∈ (rxn_metabolites r).*1)
       ∧ ∀ r, r ∈ model_reactions (_redgem st') → m ∉ (rxn_metabolites r).*1)
  ∧ (∀ m, m ∈ model_metabolites (_redgem st) →
       (∃ r, r ∈ model_reactions (_redgem st') ∧ m ∈ (rxn_metabolites r).*1) →
       m ∈ model_metabolites (_redgem st')).
Proof.
  intros [-> _]%extract_sub_network_removed. simpl.
  set (removed := filter (λ r, rxn_id r ∈ to_remove_reactions) (model_reactions (_redgem st))).
  set (left := filter (λ r, rxn_id r ∉ to_remove_reactions) (model_reactions (_redgem st))).
  split_and!; [done..| | |].
  - by intros m [_ Hm]%list_elem_of_filter.
  - intros m Hm Hgone.
    assert (Horphan : bool_decide (m ∈ removed ≫= λ r, (rxn_metabolites r).*1)
                      && bool_decide (m ∉ left ≫= λ r, (rxn_metabolites r).*1) = true).
    { apply not_false_iff_true. intros Hfalse. apply Hgone.
      by apply list_elem_of_filter. }
    apply andb_true_iff in Horphan as [Hin%bool_decide_eq_true Hout%bool_decide_eq_true].
    split.
    + apply list_elem_of_bind in Hin as (r & Hr & [Hid Hrxn]%list_elem_of_filter).
      by exists r.
    + intros r Hr Hmr. apply Hout. apply list_elem_of_bind. by exists r.
  - intros m Hm (r & Hr & Hmr). apply list_elem_of_filter. split; [|done].
    apply andb_false_iff. right. apply bool_decide_eq_false. intros Hout. apply Hout.
    apply list_elem_of_bind. by exists r.
Qed.

Lemma extract_sub_network_frame_witness :
  extract_sub_network (Demo.extracted 1 0)
  = Ok (set_redgem (Demo.extracted 1 0) (remove_reactions Demo.gem {[ "r2"; "r4" ]} true),
        ({[ "h2o" ]}, {[ "r2"; "r4" ]}))
  ∧ _gem (set_redgem (Demo.extracted 1 0) (remove_reactions Demo.gem {[ "r2"; "r4" ]} true))
    = Demo.gem
  ∧ model_metabolites (remove_reactions Demo.gem {[ "r2"; "r4" ]} true)
    = ["A"; "B"; "C"; "D"; "h2o"].
Proof.
  assert (H : extract_sub_network (Demo.extracted 1 0)
              = Ok (set_redgem (Demo.extracted 1 0)
                      (remove_reactions Demo.gem {[ "r2"; "r4" ]} true),
                    ({[ "h2o" ]}, {[ "r2"; "r4" ]}))) by (vm_compute; reflexivity).
  split; [done|].
  destruct (extract_sub_network_frame _ _ _ _ H) as (_ & Hgem & _).
  split; [exact Hgem|]. vm_compute. reflexivity.
Defined.

(** ** The containers after a run *)

Lemma setup_distances st st' :
  setup st' = setup st → _min_distance_sub_to_sub st' = _min_distance_sub_to_sub st.
Proof. unfold setup. by intros [= ]. Qed.

(** The driver does not touch the matrix of minimal distances. *)
Lemma run_keeps_distances limit st st' out :
  run limit st = Ok (st', out) →
  _min_distance_sub_to_sub st' = _min_distance_sub_to_sub st.
Proof.
  unfold run. intros (st2 & H2 & (st3 & H3 & Hout)%bind_Ok)%bind_Ok.
  destruct out as [m r]. apply extract_sub_network_removed in Hout as [-> _]. simpl.
  assert (E3 : _min_distance_sub_to_sub st3 = _min_distance_sub_to_sub st2).
  { revert H3. unfold run_extracellular_system.
    apply (for_each_invariant
             (λ s, _min_distance_sub_to_sub s = _min_distance_sub_to_sub st2)); [|done].
    intros s1 i s1' _ Hs1.
    apply (for_each_invariant
             (λ s, _min_distance_sub_to_sub s = _min_distance_sub_to_sub st2)); [|done].
    intros s2 k s2' _ Hs2 (Hsetup & _)%breadth_search_extracellular_changes.
    by rewrite (setup_distances _ _ Hsetup). }
  rewrite E3. clear E3 H3.
  apply bind_Ok in H2 as (st1 & H1 & H2).
  assert (E2 : _min_distance_sub_to_sub st2 = _min_distance_sub_to_sub st1).
  { revert H2.
    apply (for_each_invariant
             (λ s, _min_distance_sub_to_sub s = _min_distance_sub_to_sub st1)); [|done].
    intros s1 i s1' _ Hs1.
    apply (for_each_invariant
             (λ s, _min_distance_sub_to_sub s = _min_distance_sub_to_sub st1)); [|done].
    intros s2 j s2' _ Hs2.
    apply (for_each_invariant
             (λ s, _min_distance_sub_to_sub s = _min_distance_sub_to_sub st1)); [|done].
    intros s3 k s3' _ Hs3 (Hsetup & _)%breadth_search_subsystems_changes.
    by rewrite (setup_distances _ _ Hsetup). }
  rewrite E2. clear E2 H2. revert H1.
  apply (for_each_invariant
           (λ s, _min_distance_sub_to_sub s = _min_distance_sub_to_sub st)); [|done].
  intros s name s' _ Hs. unfold extract_subsystem_metabolites.
  by intros (rxns & _ & [= <-])%bind_Ok.
Qed.

(** After a run on a fresh object the path containers have their [d + 1]
    slots for every pair of subsystems, and the matrix has an entry for every
    pair. *)
Lemma run_shapes gem core_subsystems cofactor_pairs small_metabolites inorganics d
    extracellular_system subsystem_names n limit st' out :
  run limit (__init__ gem core_subsystems cofactor_pairs small_metabolites inorganics d
               extracellular_system subsystem_names n) = Ok (st', out) →
  pair_shape subsystem_names (length (range (d + 1))) (_intermediate_paths st')
  ∧ matrix_shape subsystem_names (_min_distance_sub_to_sub st').
Proof.
  intros Hrun. split.
  - apply run_before_pruning in Hrun as (st3 & Hout & (_ & (S1 & _) & _)).
    destruct out as [m r]. apply extract_sub_network_removed in Hout as [-> _]. simpl.
    apply S1. simpl. apply dict_of_dicts_of_lists_of_sets_shape.
  - rewrite (run_keeps_distances _ _ _ _ Hrun). simpl.
    intros i j Hi Hj. rewrite dict_of_dicts_of_int_sentinel by done. by eexists.
Qed.

(** ** The minimal distances on a concrete network (C8) *)

Lemma find_min_distance_between_subsystems_spec_witness :
  pair_shape (_subsystem_names Demo.pruned) (length (range (_d Demo.pruned + 1)))
    (_intermediate_paths Demo.pruned)
  ∧ matrix_shape (_subsystem_names Demo.pruned) (_min_distance_sub_to_sub Demo.pruned)
  ∧ ∃ m st',
      find_min_distance_between_subsystems Demo.pruned = Ok (m, st')
      ∧ ∀ i j, i ∈ _subsystem_names Demo.pruned → j ∈ _subsystem_names Demo.pruned →
          (∀ k, is_min_depth Demo.pruned i j k → min_distance m i j = Some (Z.of_nat k))
          ∧ (no_depth Demo.pruned i j →
             min_distance m i j = min_distance (_min_distance_sub_to_sub Demo.pruned) i j).
Proof.
  assert (H : run 1000 Demo.fresh2 = Ok (Demo.pruned, ({[ "F"; "G"; "h2o" ]}, {[ "r5" ]})))
    by (vm_compute; reflexivity).
  destruct (run_shapes Demo.gem2 ["X"; "Y"] [] [] ["h2o"] 1 ["E"] ["X"; "Y"] 1
              1000 _ _ H) as [H1 H2].
  split; [exact H1|]. split; [exact H2|].
  exact (find_min_distance_between_subsystems_spec Demo.pruned H1 H2).
Defined.

(** On that network the subsystem Y is at distance 1 from X, X at distance
    0 from itself, and X is not reached from Y: the sentinel stays. *)
Lemma find_min_distance_between_subsystems_demo :
  fst <$> find_min_distance_between_subsystems Demo.pruned
  = Ok {[ "X" := {[ "X" := 0%Z; "Y" := 1%Z ]}; "Y" := {[ "X" := (-1)%Z; "Y" := 0%Z ]} ]}.
Proof. vm_compute. reflexivity. Qed.

(** * Further properties of the code *)

(** ** The admission predicate of the extracellular search *)

(** X1: with the metabolite-id set [M] of the destination subsystem, the
    extracellular predicate does not raise, and it admits the candidate if
    and only if the candidate is not explored, is not an extracellular
    metabolite, is not in [M] before the last step, and is in [M] at the last
    step. *)
Theorem is_node_allowed_extracellular_spec st node (s : Z) explored subsystem (N : Z)
    (M : gset string) :
  _subsystem_metabolites_id st !! subsystem = Some M →
  ∃ admitted : bool,
    is_node_allowed_extracellular st node s explored subsystem N = Ok admitted ∧
    (admitted = true ↔
       (node ∉ explored)
       ∧ (node ∉ _extracellular_system st)
       ∧ ¬ ((s < N - 1)%Z ∧ node ∈ M)
       ∧ ¬ (s = (N - 1)%Z ∧ node ∉ M)).
Proof.
  intros HM. unfold is_node_allowed_extracellular.
  rewrite (in_subsystem_Ok _ _ _ _ HM).
  destruct (decide (node ∈ explored)) as [He|He].
  { rewrite bool_decide_eq_true_2 by done. eexists; split; [done|]. naive_solver. }
  rewrite (bool_decide_eq_false_2 _ He).
  destruct (decide (node ∈ _extracellular_system st)) as [Hx|Hx].
  { rewrite bool_decide_eq_true_2 by done. eexists; split; [done|]. naive_solver. }
  rewrite (bool_decide_eq_false_2 _ Hx).
  destruct (decide (s < N - 1)%Z) as [Hlt|Hlt];
    [rewrite (bool_decide_eq_true_2 _ Hlt)|rewrite (bool_decide_eq_false_2 _ Hlt)]; simpl.
  all: destruct (decide (s = N - 1)%Z) as [Heq|Heq];
    [rewrite (bool_decide_eq_true_2 _ Heq)|rewrite (bool_decide_eq_false_2 _ Heq)]; simpl.
  all: try lia.
  all: repeat (case_bool_decide; simpl).
  all: eexists; (split; [reflexivity|]); naive_solver.
Qed.

Lemma is_node_allowed_extracellular_spec_witness :
  _subsystem_metabolites_id (Demo.searched ["E"]) !! "X" = Some {[ "A"; "B" ]}
  ∧ ∃ admitted : bool,
      is_node_allowed_extracellular (Demo.searched ["E"]) "A" 0 {[ "E" ]} "X" 1 = Ok admitted ∧
      (admitted = true ↔
         ("A" ∉ ({[ "E" ]} : gset string))
         ∧ ("A" ∉ _extracellular_system (Demo.searched ["E"]))
         ∧ ¬ ((0 < 1 - 1)%Z ∧ "A" ∈ ({[ "A"; "B" ]} : gset string))
         ∧ ¬ (0%Z = (1 - 1)%Z ∧ "A" ∉ ({[ "A"; "B" ]} : gset string))).
Proof.
  assert (H : _subsystem_metabolites_id (Demo.searched ["E"]) !! "X" = Some {[ "A"; "B" ]})
    by (vm_compute; reflexivity).
  split; [exact H|].
  exact (is_node_allowed_extracellular_spec (Demo.searched ["E"]) "A" 0 {[ "E" ]} "X" 1
           {[ "A"; "B" ]} H).
Defined.

(** ** What a search leaves *)

(** X2: when a search returns, the explored nodes are the start and the
    nodes that have ancestors, the frontier is explored, and every ancestor of
    a node is an explored node with an edge of the graph to that node. *)
Theorem search_result_invariant allowed (g : DiGraph) d start ancestors frontier explored :
  (∀ node i explored, allowed node i explored = Ok true → node ∉ explored) →
  search allowed g d start = Ok (ancestors, frontier, explored) →
  explored = {[start]} ∪ dom ancestors
  ∧ frontier ⊆ explored
  ∧ ∀ t l a, ancestors !! t = Some l → a ∈ l →
      a ∈ explored ∧ is_Some (edge_tag g a t).
Proof.
  intros Hfresh Hsearch.
  destruct (search_search_inv allowed g Hfresh d start _ Hsearch)
    as (level & Hranked & _ & _ & Hexplored & Hsub & Hedge).
  split_and!; [done..|].
  intros t l a Hl Ha. split; [|by eapply Hedge].
  destruct (Hranked t l a Hl Ha) as [_ Hreach]. set_solver.
Qed.

Lemma search_result_invariant_witness :
  (∀ node i explored,
     is_node_allowed (Demo.extracted 1 0) node i explored "X" "Y" 1 = Ok true →
     node ∉ explored)
  ∧ search (λ node i explored, is_node_allowed (Demo.extracted 1 0) node i explored "X" "Y" 1)
      (_graph (Demo.extracted 1 0)) 1 "B"
    = Ok ({[ "C" := ["B"] ]}, {[ "C" ]}, {[ "B"; "C" ]})
  ∧ ({[ "C" ]} : gset string) ⊆ {[ "B"; "C" ]}.
Proof.
  assert (Hsearch :
    search (λ node i explored, is_node_allowed (Demo.extracted 1 0) node i explored "X" "Y" 1)
      (_graph (Demo.extracted 1 0)) 1 "B"
    = Ok ({[ "C" := ["B"] ]}, {[ "C" ]}, {[ "B"; "C" ]})) by (vm_compute; reflexivity).
  split; [apply is_node_allowed_fresh|]. split; [exact Hsearch|].
  destruct (search_result_invariant _ _ _ _ _ _ _
              (is_node_allowed_fresh (Demo.extracted 1 0) "X" "Y" 1) Hsearch)
    as (_ & Hsub & _).
  exact Hsub.
Defined.

Lemma consistent_path_head ancestors s t p : consistent_path ancestors s t p → head p = Some s.
Proof.
  induction 1 as [|t l a p _ _ _ _ IH]; [done|].
  destruct p as [|x p]; [done|]. done.
Qed.

(** X3: every path that the enumerator returns for a node reached by a
    search starts at the source, ends at that node, and follows edges of the
    graph. *)
Theorem enumerated_paths_follow_edges allowed (g : DiGraph) d s ancestors frontier explored
    t limit path_dict paths path_dict' :
  (∀ node i explored, allowed node i explored = Ok true → node ∉ explored) →
  search allowed g d s = Ok (ancestors, frontier, explored) →
  t ∈ explored → d < limit →
  retrieve_all_paths limit path_dict t s ancestors true = Ok (paths, path_dict') →
  ∀ p, p ∈ paths → path_in_graph g p ∧ head p = Some s ∧ last p = Some t.
Proof.
  intros Hfresh Hsearch Ht Hlimit Hrun p Hp.
  destruct (search_search_inv allowed g Hfresh d s _ Hsearch)
    as (level & Hranked & _ & Hlevel & Hexplored & _ & Hedge).
  destruct (retrieve_all_paths_top ancestors s level Hranked limit t path_dict)
    as (paths0 & pd0 & Hrun0 & Hpaths); [specialize (Hlevel t Ht); lia|set_solver|].
  assert (paths0 = paths) as -> by congruence.
  apply Hpaths in Hp.
  destruct (consistent_path_in_graph g _ _ _ _ Hedge Hp) as [Hpath Hlast].
  split_and!; [done| |done]. by eapply consistent_path_head.
Qed.

Lemma enumerated_paths_follow_edges_witness :
  (∀ node i explored,
     is_node_allowed (Demo.extracted 1 0) node i explored "X" "Y" 1 = Ok true →
     node ∉ explored)
  ∧ search (λ node i explored, is_node_allowed (Demo.extracted 1 0) node i explored "X" "Y" 1)
      (_graph (Demo.extracted 1 0)) 1 "B"
    = Ok ({[ "C" := ["B"] ]}, {[ "C" ]}, {[ "B"; "C" ]})
  ∧ "C" ∈ ({[ "B"; "C" ]} : gset string)
  ∧ 1 < 1000
  ∧ retrieve_all_paths 1000 ∅ "C" "B" {[ "C" := ["B"] ]} true
    = Ok ([["B"; "C"]], {[ "B" := [["B"]]; "C" := [["B"; "C"]] ]})
  ∧ path_in_graph (_graph (Demo.extracted 1 0)) ["B"; "C"].
Proof.
  assert (Hsearch :
    search (λ node i explored, is_node_allowed (Demo.extracted 1 0) node i explored "X" "Y" 1)
      (_graph (Demo.extracted 1 0)) 1 "B"
    = Ok ({[ "C" := ["B"] ]}, {[ "C" ]}, {[ "B"; "C" ]})) by (vm_compute; reflexivity).
  assert (Hin : "C" ∈ ({[ "B"; "C" ]} : gset string)) by (vm_compute; reflexivity).
  assert (Hlimit : 1 < 1000) by lia.
  assert (Hrun : retrieve_all_paths 1000 ∅ "C" "B" {[ "C" := ["B"] ]} true
                 = Ok ([["B"; "C"]], {[ "B" := [["B"]]; "C" := [["B"; "C"]] ]}))
    by (vm_compute; reflexivity).
  split; [apply is_node_allowed_fresh|].
  split; [exact Hsearch|]. split; [exact Hin|]. split; [exact Hlimit|]. split; [exact Hrun|].
  apply (enumerated_paths_follow_edges _ _ _ _ _ _ _ "C" 1000 ∅ _ _
           (is_node_allowed_fresh (Demo.extracted 1 0) "X" "Y" 1) Hsearch Hin Hlimit Hrun).
  left.
Defined.

(** ** What one call of a search changes *)

(** X4: a call of the search between the subsystems i and j at depth d that
    returns leaves the setup and the three extracellular containers as they
    are, changes no path-result set but the one of (i, j, d), and every
    reaction in an intermediate-reaction set was there before or tags an edge
    of the graph. *)
Theorem breadth_search_subsystems_frame limit st i j d st' :
  breadth_search_subsystems_paths_length_d limit st i j d = Ok st' →
  setup st' = setup st
  ∧ _intermediate_extracellular_paths st' = _intermediate_extracellular_paths st
  ∧ _intermediate_extracellular_reactions_id st' = _intermediate_extracellular_reactions_id st
  ∧ _intermediate_extracellular_metabolites_id st'
    = _intermediate_extracellular_metabolites_id st
  ∧ (∀ i' j' k', ¬ (i' = i ∧ j' = j ∧ k' = d) →
       path_result st' i' j' k' = path_result st i' j' k')
  ∧ (∀ i' j' k' r, r ∈ intermediate_reactions st' i' j' k' →
       r ∈ intermediate_reactions st i' j' k' ∨ is_tag (_graph st) r).
Proof.
  intros (H1 & _ & H3 & H4 & H5 & H6 & H7)%breadth_search_subsystems_changes.
  by split_and!.
Qed.

Lemma breadth_search_subsystems_frame_witness :
  breadth_search_subsystems_paths_length_d 1000 (Demo.extracted 1 0) "X" "Y" 1
  = Ok Demo.between
  ∧ path_result Demo.between "X" "Y" 1 = {[ ["B"; "C"] ]}
  ∧ (∀ i' j' k', ¬ (i' = "X" ∧ j' = "Y" ∧ k' = 1) →
       path_result Demo.between i' j' k' = path_result (Demo.extracted 1 0) i' j' k').
Proof.
  assert (H : breadth_search_subsystems_paths_length_d 1000 (Demo.extracted 1 0) "X" "Y" 1
              = Ok Demo.between) by (vm_compute; reflexivity).
  split; [exact H|]. split; [vm_compute; reflexivity|].
  exact (proj1 (proj2 (proj2 (proj2 (proj2
           (breadth_search_subsystems_frame 1000 (Demo.extracted 1 0) "X" "Y" 1
              Demo.between H)))))).
Defined.

(** X5: a call of the extracellular search for a subsystem at depth n that
    returns leaves the setup and the three containers of the search between
    subsystems as they are, changes no extracellular intermediate-reaction set
    but the one of (subsystem, n), and records only reactions that tag an edge
    of the graph. *)
Theorem breadth_search_extracellular_frame limit st subsystem n st' :
  breadth_search_extracellular_system_paths limit st subsystem n = Ok st' →
  setup st' = setup st
  ∧ _intermediate_paths st' = _intermediate_paths st
  ∧ _intermediate_reactions_id st' = _intermediate_reactions_id st
  ∧ _intermediate_metabolites_id st' = _intermediate_metabolites_id st
  ∧ (∀ i' k', ¬ (i' = subsystem ∧ k' = n) →
       extracellular_reactions st' i' k' = extracellular_reactions st i' k')
  ∧ (∀ i' k' r, r ∈ extracellular_reactions st' i' k' →
       r ∈ extracellular_reactions st i' k' ∨ is_tag (_graph st) r).
Proof.
  intros (H1 & _ & H3 & H4 & H5 & H6 & H7)%breadth_search_extracellular_changes.
  by split_and!.
Qed.

Lemma breadth_search_extracellular_frame_witness :
  breadth_search_extracellular_system_paths 1000 (Demo.extracted 1 1) "X" 1 = Ok Demo.outward
  ∧ extracellular_reactions Demo.outward "X" 1 = {[ "r4" ]}
  ∧ _intermediate_paths Demo.outward = _intermediate_paths (Demo.extracted 1 1).
Proof.
  assert (H : breadth_search_extracellular_system_paths 1000 (Demo.extracted 1 1) "X" 1
              = Ok Demo.outward) by (vm_compute; reflexivity).
  split; [exact H|]. split; [vm_compute; reflexivity|].
  exact (proj1 (proj2
           (breadth_search_extracellular_frame 1000 (Demo.extracted 1 1) "X" 1
              Demo.outward H))).
Defined.

(** ** What a run records *)

Section fresh_records.
Variables (gem : Model) (core_subsystems cofactor_pairs small_metabolites inorganics : list string).
Variables (d : Z) (extracellular_system subsystem_names : list string) (n : Z).

Let st0 : RedGEM :=
  __init__ gem core_subsystems cofactor_pairs small_metabolites inorganics d
    extracellular_system subsystem_names n.

(** X6: after a run on a fresh object, every identifier in an
    intermediate-reaction set, in an extracellular intermediate-reaction set
    or in the reaction set of a subsystem is the identifier of a reaction of
    the original network: the run invents no identifier. *)
Theorem run_records_network_reactions limit st' out r :
  run limit st0 = Ok (st', out) →
  (∀ i j k, r ∈ intermediate_reactions st' i j k → r ∈ rxn_id <$> model_reactions gem)
  ∧ (∀ i k, r ∈ extracellular_reactions st' i k → r ∈ rxn_id <$> model_reactions gem)
  ∧ (∀ name, r ∈ subsystem_reactions st' name → r ∈ rxn_id <$> model_reactions gem).
Proof.
  intros (st3 & Hout & Hstep)%run_before_pruning.
  destruct out as [trm trr]. apply extract_sub_network_removed in Hout as [-> _].
  destruct Hstep as (_ & _ & Hinter & Hextra & _ & Hsub).
  assert (Hall : ∀ x, x ∈ all_reactions (create_new_stoichiometric_matrix st0) →
                      x ∈ rxn_id <$> model_reactions gem).
  { intros x. unfold all_reactions. simpl. by rewrite elem_of_list_to_set. }
  assert (Htag : ∀ x, is_tag (_graph (create_new_stoichiometric_matrix st0)) x →
                      x ∈ rxn_id <$> model_reactions gem).
  { intros x [(a & b & Hx)|Hx]%create_new_stoichiometric_matrix_tags; [|by apply Hall].
    unfold edge_tag in Hx. simpl in Hx. by rewrite lookup_empty in Hx. }
  split_and!.
  - intros i j k [Hr|Hr]%Hinter; [|by apply Htag].
    unfold intermediate_reactions in Hr. simpl in Hr.
    by rewrite dict_of_dicts_of_lists_of_sets_empty in Hr.
  - intros i k [Hr|Hr]%Hextra; [|by apply Htag].
    unfold extracellular_reactions in Hr. simpl in Hr.
    by rewrite dict_of_lists_of_sets_empty in Hr.
  - intros name [Hr|Hr]%Hsub; [|by apply Hall].
    unfold subsystem_reactions in Hr. simpl in Hr. by rewrite lookup_empty in Hr.
Qed.

(** X7: the run does not compute the minimal distances: after a run on a
    fresh object the entry of every pair of subsystems is still the sentinel
    [-1]; [find_min_distance_between_subsystems] has to be called for them. *)
Theorem run_leaves_sentinel limit st' out i j :
  run limit st0 = Ok (st', out) →
  i ∈ subsystem_names → j ∈ subsystem_names →
  min_distance (_min_distance_sub_to_sub st') i j = Some (-1)%Z.
Proof.
  intros Hrun Hi Hj. rewrite (run_keeps_distances _ _ _ _ Hrun). simpl.
  by apply dict_of_dicts_of_int_sentinel.
Qed.
End fresh_records.

Lemma run_records_network_reactions_witness :
  run 1000 Demo.fresh2 = Ok (Demo.pruned, ({[ "F"; "G"; "h2o" ]}, {[ "r5" ]}))
  ∧ (∀ i j k, "r2" ∈ intermediate_reactions Demo.pruned i j k →
              "r2" ∈ rxn_id <$> model_reactions Demo.gem2).
Proof.
  assert (H : run 1000 Demo.fresh2 = Ok (Demo.pruned, ({[ "F"; "G"; "h2o" ]}, {[ "r5" ]})))
    by (vm_compute; reflexivity).
  split; [exact H|].
  destruct (run_records_network_reactions Demo.gem2 ["X"; "Y"] [] [] ["h2o"] 1 ["E"]
              ["X"; "Y"] 1 1000 _ _ "r2" H) as (Hinter & _).
  exact Hinter.
Defined.

Lemma run_leaves_sentinel_witness :
  run 1000 Demo.fresh2 = Ok (Demo.pruned, ({[ "F"; "G"; "h2o" ]}, {[ "r5" ]}))
  ∧ "X" ∈ ["X"; "Y"] ∧ "Y" ∈ ["X"; "Y"]
  ∧ min_distance (_min_distance_sub_to_sub Demo.pruned) "X" "Y" = Some (-1)%Z.
Proof.
  assert (H : run 1000 Demo.fresh2 = Ok (Demo.pruned, ({[ "F"; "G"; "h2o" ]}, {[ "r5" ]})))
    by (vm_compute; reflexivity).
  assert (Hx : "X" ∈ ["X"; "Y"]) by (left).
  assert (Hy : "Y" ∈ ["X"; "Y"]) by (right; left).
  split; [exact H|]. split; [exact Hx|]. split; [exact Hy|].
  exact (run_leaves_sentinel Demo.gem2 ["X"; "Y"] [] [] ["h2o"] 1 ["E"] ["X"; "Y"] 1
           1000 _ _ "X" "Y" H Hx Hy).
Defined.

(** ** Reusing the memo *)

(** X8: inside one search the memo could be kept from one destination to
    the next: a call with [init_dict = False] on the memo that the enumeration
    of another reached node of the same search left returns, and it returns
    exactly the consistent paths to its destination; the memo keeps its
    entries. *)
Theorem retrieve_all_paths_reuses_memo allowed (g : DiGraph) d s ancestors frontier explored
    t1 t2 limit path_dict paths1 path_dict1 :
  (∀ node i explored, allowed node i explored = Ok true → node ∉ explored) →
  search allowed g d s = Ok (ancestors, frontier, explored) →
  t1 ∈ explored → t2 ∈ explored → d < limit →
  retrieve_all_paths limit path_dict t1 s ancestors true = Ok (paths1, path_dict1) →
  ∃ paths2 path_dict2,
    retrieve_all_paths limit path_dict1 t2 s ancestors false = Ok (paths2, path_dict2)
    ∧ (∀ p, p ∈ paths2 ↔ consistent_path ancestors s t2 p)
    ∧ dom path_dict1 ⊆ dom path_dict2.
Proof.
  intros Hfresh Hsearch Ht1 Ht2 Hlimit Hrun1.
  destruct (search_search_inv allowed g Hfresh d s _ Hsearch)
    as (level & Hranked & _ & Hlevel & Hexplored & _ & _).
  rewrite retrieve_all_paths_init in Hrun1.
  destruct (retrieve_all_paths_memo ancestors s level Hranked limit t1 ∅)
    as (ps1 & pd1 & Hrun1' & Hmemo1 & _); [specialize (Hlevel t1 Ht1); lia|set_solver|done|].
  assert (pd1 = path_dict1) as -> by congruence.
  destruct (retrieve_all_paths_memo ancestors s level Hranked limit t2 path_dict1)
    as (ps2 & pd2 & Hrun2 & Hmemo2 & Hps2 & Hdom);
    [specialize (Hlevel t2 Ht2); lia|set_solver|done|].
  exists ps2, pd2. split_and!; [done| |done]. by apply (Hmemo2 t2 ps2).
Qed.

Lemma retrieve_all_paths_reuses_memo_witness :
  (∀ node i explored,
     is_node_allowed_extracellular (Demo.extracted 1 1) node i explored "X" 1 = Ok true →
     node ∉ explored)
  ∧ search (λ node i explored,
              is_node_allowed_extracellular (Demo.extracted 1 1) node i explored "X" 1)
      (_graph (Demo.extracted 1 1)) 1 "E"
    = Ok ({[ "A" := ["E"] ]}, {[ "A" ]}, {[ "A"; "E" ]})
  ∧ "E" ∈ ({[ "A"; "E" ]} : gset string) ∧ "A" ∈ ({[ "A"; "E" ]} : gset string)
  ∧ 1 < 1000
  ∧ retrieve_all_paths 1000 ∅ "E" "E" {[ "A" := ["E"] ]} true
    = Ok ([["E"]], {[ "E" := [["E"]] ]})
  ∧ ∃ paths2 path_dict2,
      retrieve_all_paths 1000 {[ "E" := [["E"]] ]} "A" "E" {[ "A" := ["E"] ]} false
      = Ok (paths2, path_dict2)
      ∧ (∀ p, p ∈ paths2 ↔ consistent_path {[ "A" := ["E"] ]} "E" "A" p)
      ∧ dom ({[ "E" := [["E"]] ]} : gmap string (list path)) ⊆ dom path_dict2.
Proof.
  assert (Hsearch :
    search (λ node i explored,
              is_node_allowed_extracellular (Demo.extracted 1 1) node i explored "X" 1)
      (_graph (Demo.extracted 1 1)) 1 "E"
    = Ok ({[ "A" := ["E"] ]}, {[ "A" ]}, {[ "A"; "E" ]})) by (vm_compute; reflexivity).
  assert (H1 : "E" ∈ ({[ "A"; "E" ]} : gset string)) by (vm_compute; reflexivity).
  assert (H2 : "A" ∈ ({[ "A"; "E" ]} : gset string)) by (vm_compute; reflexivity).
  assert (Hlimit : 1 < 1000) by lia.
  assert (Hrun : retrieve_all_paths 1000 ∅ "E" "E" {[ "A" := ["E"] ]} true
                 = Ok ([["E"]], {[ "E" := [["E"]] ]})) by (vm_compute; reflexivity).
  split; [apply is_node_allowed_extracellular_fresh|].
  split; [exact Hsearch|]. split; [exact H1|]. split; [exact H2|].
  split; [exact Hlimit|]. split; [exact Hrun|].
  exact (retrieve_all_paths_reuses_memo _ _ _ _ _ _ _ "E" "A" 1000 ∅ _ _
           (is_node_allowed_extracellular_fresh (Demo.extracted 1 1) "X" 1)
           Hsearch H1 H2 Hlimit Hrun).
Defined.

(** ** The run returns *)

(** The pruner returns on a state whose containers have the shape that
    [__init__] gives and whose subsystems are extracted: every subscript of
    its three loops is in range. *)
Lemma extract_sub_network_total st :
  ready st →
  (∀ name, name ∈ _subsystem_names st → is_Some (_subsystem_reactions_id st !! name)) →
  ∃ out, extract_sub_network st = Ok out.
Proof.
  intros (_ & R2 & R3 & _ & R5 & R6 & _ & Hmet) Hrxn.
  assert (Hslot : ∀ k, k ∈ range (_d st + 1) → k < length (range (_d st + 1))).
  { intros k Hk. unfold range in *. apply elem_of_seq in Hk. rewrite length_seq. lia. }
  unfold extract_sub_network. cbv zeta.
  match goal with
  | |- context [for_each ?l ?body ?s] =>
    destruct (for_each_total (λ _, True) l body s) as ([m1 r1] & -> & _); [|done|]
  end.
  { intros [m r] name Hname _.
    destruct (Hrxn name Hname) as [rs Hrs]. destruct (Hmet name Hname) as (ms & Hms & _).
    rewrite (getitem_Some _ _ _ Hrs). simpl. rewrite (getitem_Some _ _ _ Hms). simpl.
    by eexists. }
  simpl.
  match goal with
  | |- context [for_each ?l ?body ?s] =>
    destruct (for_each_total (λ _, True) l body s) as ([m2 r2] & -> & _); [|done|]
  end.
  { intros acc i Hi _. apply (for_each_total (λ _, True)); [|done]. intros acc' j Hj _.
    apply (for_each_total (λ _, True)); [|done]. intros [m r] k Hk%Hslot _.
    destruct (R2 i j Hi Hj) as (ri & rij & Hri & Hrij & Hlen).
    destruct (R3 i j Hi Hj) as (mi & mij & Hmi & Hmij & Hlen').
    destruct (lookup_lt_is_Some_2 rij k) as [rs Hrs]; [by rewrite Hlen|].
    destruct (lookup_lt_is_Some_2 mij k) as [ms Hms]; [by rewrite Hlen'|].
    rewrite (getitem_Some _ _ _ Hri). simpl. rewrite (getitem_Some _ _ _ Hrij). simpl.
    rewrite (getindex_Some _ _ _ Hrs). simpl.
    rewrite (getitem_Some _ _ _ Hmi). simpl. rewrite (getitem_Some _ _ _ Hmij). simpl.
    rewrite (getindex_Some _ _ _ Hms). simpl. by eexists. }
  simpl.
  match goal with
  | |- context [for_each ?l ?body ?s] =>
    destruct (for_each_total (λ _, True) l body s) as ([m3 r3] & -> & _); [|done|]
  end.
  { intros acc i Hi _. apply (for_each_total (λ _, True)); [|done].
    intros [m r] k Hk%Hslot _.
    destruct (R5 i Hi) as (ri & Hri & Hlen). destruct (R6 i Hi) as (mi & Hmi & Hlen').
    destruct (lookup_lt_is_Some_2 ri k) as [rs Hrs]; [by rewrite Hlen|].
    destruct (lookup_lt_is_Some_2 mi k) as [ms Hms]; [by rewrite Hlen'|].
    rewrite (getitem_Some _ _ _ Hri). simpl. rewrite (getindex_Some _ _ _ Hrs). simpl.
    rewrite (getitem_Some _ _ _ Hmi). simpl. rewrite (getindex_Some _ _ _ Hms). simpl.
    by eexists. }
  simpl. by eexists.
Qed.

Section fresh_returns.
Variables (gem : Model) (core_subsystems cofactor_pairs small_metabolites inorganics : list string).
Variables (d : Z) (extracellular_system subsystem_names : list string) (n : Z).

Let st0 : RedGEM :=
  __init__ gem core_subsystems cofactor_pairs small_metabolites inorganics d
    extracellular_system subsystem_names n.

(** X9: a run on a fresh object returns (it raises no [KeyError], no
    [IndexError] and no [RecursionError]) when [n] is at most [d], every
    extracellular metabolite is a retained metabolite of some reaction of the
    network, and the recursion limit is above [d]. *)
Theorem run_returns limit :
  (d < Z.of_nat limit)%Z → (n ≤ d)%Z →
  (∀ e, e ∈ extracellular_system → e ∈ kept_metabolites st0) →
  ∃ st' to_remove_metabolites to_remove_reactions,
    run limit st0 = Ok (st', (to_remove_metabolites, to_remove_reactions)).
Proof.
  intros Hlimit Hnd Hext.
  destruct (fresh_run_between_all_subsystems gem core_subsystems cofactor_pairs
              small_metabolites inorganics d extracellular_system subsystem_names n
              limit Hlimit)
    as (st1 & st2 & Hextract & Hrun2 & Hready2 & Hsetup2 & Hconfig2 & _).
  destruct (config_fields _ _ Hconfig2) as (_ & Hg & Hnames & Hd & Hextsys & Hn & _).
  cbn [_subsystem_names _d _extracellular_system _n create_new_stoichiometric_matrix
       set_graph __init__] in Hnames, Hd, Hextsys, Hn.
  destruct (run_extracellular_system_cases limit st2 Hready2) as (_ & _ & Hreturns).
  { intros e He. rewrite Hextsys in He. rewrite Hg.
    apply (create_new_stoichiometric_matrix_nodes st0). by apply Hext. }
  { rewrite Hn. unfold range. rewrite length_seq. lia. }
  destruct Hreturns as (st3 & Hrun3 & Hsetup3 & Hshapes3).
  { rewrite Hn, Hd. unfold range. rewrite !length_seq. lia. }
  destruct (setup_fields _ _ Hsetup3) as (_ & _ & Hnames3 & Hrid3 & _).
  destruct (setup_fields _ _ Hsetup2) as (_ & _ & Hnames2 & Hrid2 & _).
  destruct (extract_sub_network_total st3) as ([st' [trm trr]] & Hout).
  { by eapply ready_step. }
  { intros name Hname. rewrite Hrid3, Hrid2.
    rewrite (extract_all_subsystems_reactions _ _ Hextract); [done|].
    rewrite Hnames3, Hnames in Hname. done. }
  exists st', trm, trr. unfold run. cbv zeta.
  fold st0 in Hrun2. rewrite Hrun2. simpl. rewrite Hrun3. simpl. done.
Qed.
End fresh_returns.

Lemma run_returns_witness :
  (1 < Z.of_nat 1000)%Z ∧ (1 ≤ 1)%Z
  ∧ (∀ e, e ∈ ["E"] → e ∈ kept_metabolites Demo.fresh2)
  ∧ ∃ st' to_remove_metabolites to_remove_reactions,
      run 1000 Demo.fresh2 = Ok (st', (to_remove_metabolites, to_remove_reactions)).
Proof.
  assert (H1 : (1 < Z.of_nat 1000)%Z) by lia.
  assert (H2 : (1 ≤ 1)%Z) by lia.
  assert (H3 : ∀ e, e ∈ ["E"] → e ∈ kept_metabolites Demo.fresh2).
  { intros e ->%list_elem_of_singleton. vm_compute. reflexivity. }
  split; [exact H1|]. split; [exact H2|]. split; [exact H3|].
  exact (run_returns Demo.gem2 ["X"; "Y"] [] [] ["h2o"] 1 ["E"] ["X"; "Y"] 1 1000 H1 H2 H3).
Defined.
